(** * Nova-Core: the realtime audio session controller ([src/services/liveApi.ts])

    A shallow embedding of the audio helpers ([encode], [decode],
    [decodeAudioData], [createBlob]) and of the [LiveClient] class
    ([setStatus], [connect], [handleMessage], [disconnect]), followed by the
    properties of the specification that concern them.

    Conventions.
    - A [Uint8Array] is a [list byte]; an [Int16Array] is a [list Z] whose
      elements lie in [-32768, 32767]; typed-array views over a shared
      buffer use the little-endian byte order of the host.
    - A JavaScript string whose code units are below 256 is a [string].
    - A JavaScript number is a [number]: a finite value carried by the
      rational it denotes, or NaN, or an infinity.  The only arithmetic the
      helpers perform on samples is a product or a quotient by 32768, which
      binary64 computes exactly on the values involved.
    - Clock readings, start times and durations of the output timeline
      are binary64 numbers, each carried by the rational it denotes; the
      sum and the quotient the program computes on them are rounded by
      [binary64].
    - A [then] on [sessionPromise] does not run its callback at once: the
      callback is a microtask when the promise is fulfilled, and waits in
      the promise when it is pending.
    - Platform functions ([btoa], [atob], typed-array conversion,
      [createBuffer]) are modelled from their standards. *)

From Stdlib Require Import ZArith NArith QArith List String Ascii Bool Lia Lqa.
From Stdlib Require Import Qround Qabs Qpower.
From Stdlib Require Import Sorted.
From Stdlib Require Import Init.Byte.
Import ListNotations.

Local Open Scope Z_scope.
Local Open Scope list_scope.

(* ================================================================== *)
(** ** Platform: base64 ([btoa] and [atob]) *)
(* ================================================================== *)

Module Base64.

Local Open Scope N_scope.

Definition alphabet : list ascii :=
  list_ascii_of_string
    "ABCDEFGHIJKLMNOPQRSTUVWXYZabcdefghijklmnopqrstuvwxyz0123456789+/".

Definition pad_char : ascii := "="%char.

(** The character of a 6-bit group. *)
Definition sextet_char (n : N) : ascii := nth (N.to_nat n) alphabet pad_char.

(** The 6-bit group of a character of the alphabet. *)
Definition char_sextet (c : ascii) : option N :=
  let k := N_of_ascii c in
  if (65 <=? k) && (k <=? 90) then Some (k - 65)
  else if (97 <=? k) && (k <=? 122) then Some (k - 71)
  else if (48 <=? k) && (k <=? 57) then Some (k + 4)
  else if k =? 43 then Some 62
  else if k =? 47 then Some 63
  else None.

(** Three octets give four groups; a final block of one or two octets
    gives two or three. *)
Fixpoint encode_groups (bs : list N) : list ascii :=
  match bs with
  | [] => []
  | [a] => [sextet_char (a / 4); sextet_char ((a mod 4) * 16)]
  | [a; b] =>
      [sextet_char (a / 4); sextet_char ((a mod 4) * 16 + b / 16);
       sextet_char ((b mod 16) * 4)]
  | a :: b :: c :: rest =>
      sextet_char (a / 4) :: sextet_char ((a mod 4) * 16 + b / 16)
      :: sextet_char ((b mod 16) * 4 + c / 64) :: sextet_char (c mod 64)
      :: encode_groups rest
  end.

Definition padding (len : nat) : list ascii :=
  match Nat.modulo len 3 with
  | 1%nat => [pad_char; pad_char]
  | 2%nat => [pad_char]
  | _ => []
  end.

(** [btoa] on a binary string (every code unit is below 256, so the
    InvalidCharacterError of the platform function cannot arise). *)
Definition btoa (s : string) : string :=
  let bs := map N_of_ascii (list_ascii_of_string s) in
  string_of_list_ascii (encode_groups bs ++ padding (List.length bs)).

(** TAB, LF, FF, CR and SPACE. *)
Definition is_ascii_whitespace (c : ascii) : bool :=
  let k := N_of_ascii c in
  (k =? 9) || (k =? 10) || (k =? 12) || (k =? 13) || (k =? 32).

(** When the length is a multiple of four, one or two final [=] are
    removed. *)
Definition strip_padding (l : list ascii) : list ascii :=
  if Nat.eqb (Nat.modulo (List.length l) 4) 0 then
    match rev l with
    | c1 :: c2 :: r =>
        if Ascii.eqb c1 pad_char then
          if Ascii.eqb c2 pad_char then rev r else rev (c2 :: r)
        else l
    | [c1] => if Ascii.eqb c1 pad_char then [] else l
    | [] => l
    end
  else l.

Fixpoint sextets (l : list ascii) : option (list N) :=
  match l with
  | [] => Some []
  | c :: r =>
      match char_sextet c, sextets r with
      | Some n, Some ns => Some (n :: ns)
      | _, _ => None
      end
  end.

(** Four groups give three octets; a final block of two or three groups
    gives one or two octets, the spare bits being dropped. *)
Fixpoint decode_groups (ss : list N) : list N :=
  match ss with
  | a :: b :: c :: d :: rest =>
      (a * 4 + b / 16) :: ((b mod 16) * 16 + c / 4) :: ((c mod 4) * 64 + d)
      :: decode_groups rest
  | [a; b; c] => [a * 4 + b / 16; (b mod 16) * 16 + c / 4]
  | [a; b] => [a * 4 + b / 16]
  | _ => []
  end.

(** [atob], the forgiving base64 decoding of the platform; [None] stands
    for its InvalidCharacterError. *)
Definition atob (s : string) : option string :=
  let data :=
    strip_padding
      (filter (fun c => negb (is_ascii_whitespace c)) (list_ascii_of_string s)) in
  if Nat.eqb (Nat.modulo (List.length data) 4) 1 then None
  else
    match sextets data with
    | None => None
    | Some ss => Some (string_of_list_ascii (map ascii_of_N (decode_groups ss)))
    end.

End Base64.

(* ================================================================== *)
(** ** Audio helpers *)
(* ================================================================== *)

(** JavaScript numbers, as far as the helpers need them. *)
Inductive number : Type :=
| Finite (q : Q)
| NaN
| Infinity (negative : bool).

(** [String.fromCharCode] and [charCodeAt] between octets and the code
    units of a binary string. *)
Definition fromCharCode (b : byte) : ascii := ascii_of_byte b.
Definition charCodeAt (c : ascii) : byte := byte_of_ascii c.

(** [encode]: the loop appends one code unit per octet, then [btoa]. *)
Definition encode (bytes : list byte) : string :=
  let binary :=
    fold_left (fun acc b => (acc ++ String (fromCharCode b) EmptyString)%string)
              bytes EmptyString in
  Base64.btoa binary.

(** [decode]: [atob], then one octet per code unit; [None] when [atob]
    throws. *)
Definition decode (base64 : string) : option (list byte) :=
  match Base64.atob base64 with
  | None => None
  | Some binaryString => Some (map charCodeAt (list_ascii_of_string binaryString))
  end.

(** Truncation toward zero of a rational. *)
Definition Qtruncate (q : Q) : Z := Z.quot (Qnum q) (Zpos (Qden q)).

(** Reduction of an integer modulo 2^16 into the signed 16-bit range, as
    the conversion of ECMAScript does it. *)
Definition int16_of_Z (n : Z) : Z :=
  let r := n mod 65536 in
  if 32768 <=? r then r - 65536 else r.

(** ECMAScript ToInt16, the conversion on a store into an [Int16Array]. *)
Definition ToInt16 (x : number) : Z :=
  match x with
  | Finite q => int16_of_Z (Qtruncate q)
  | NaN | Infinity _ => 0
  end.

(** The product [x * 32768] of the capture loop. *)
Definition times_32768 (x : number) : number :=
  match x with
  | Finite q => Finite (q * 32768)
  | NaN => NaN
  | Infinity s => Infinity s
  end.

(** The quotient [v / 32768.0] of the playback loop, on an element of an
    [Int16Array]. *)
Definition over_32768 (v : Z) : number := Finite (v # 32768).

Definition byte_of_Z (n : Z) : byte :=
  match Byte.of_N (Z.to_N (n mod 256)) with
  | Some b => b
  | None => x00
  end.

Definition Z_of_byte (b : byte) : Z := Z.of_N (Byte.to_N b).

(** [new Uint8Array(int16.buffer)]: two octets per element, low octet
    first. *)
Definition bytes_of_int16 (v : Z) : list byte :=
  [byte_of_Z v; byte_of_Z (v / 256)].

Definition Uint8Array_of_Int16Array (int16 : list Z) : list byte :=
  flat_map bytes_of_int16 int16.

Definition int16_of_bytes (lo hi : byte) : Z :=
  int16_of_Z (Z_of_byte lo + 256 * Z_of_byte hi).

(** [new Int16Array(data.buffer)]: [None] stands for the RangeError raised
    when the byte length is odd. *)
Fixpoint Int16Array_of_Uint8Array (data : list byte) : option (list Z) :=
  match data with
  | [] => Some []
  | [_] => None
  | lo :: hi :: rest =>
      match Int16Array_of_Uint8Array rest with
      | Some vs => Some (int16_of_bytes lo hi :: vs)
      | None => None
      end
  end.

(** Binary64 arithmetic on finite values.  A finite binary64 number is
    the rational it denotes; an operation of the program gives the
    rounding of the exact result to the nearest binary64 number, the one
    with an even significand in case of a tie.  The exponent is bounded
    below (subnormal numbers) and not above: a result of magnitude
    [2 ^ 1024] or more, which the format turns into an infinity, is
    outside of what is modelled. *)

(** The largest [e] with [2 ^ e <= x], for a positive [x]. *)
Definition Qlog2 (x : Q) : Z :=
  let k := Z.log2 (Qnum x) - Z.log2 (Zpos (Qden x)) in
  if Qle_bool (2 ^ k) x then k else k - 1.

(** The nearest integer, the even one of two that are equally near. *)
Definition round_half_even (x : Q) : Z :=
  let f := Qfloor x in
  match (x - inject_Z f ?= 1 # 2)%Q with
  | Lt => f
  | Gt => f + 1
  | Eq => if Z.even f then f else f + 1
  end.

(** The unit in the last place at [x]: 52 binary places below the
    leading one, and [2 ^ -1074] in the subnormal range. *)
Definition ulp64 (x : Q) : Q := (2 ^ (Z.max (Qlog2 (Qabs x)) (-1022) - 52))%Q.

Definition binary64 (x : Q) : Q :=
  match (x ?= 0)%Q with
  | Eq => 0%Q
  | Gt => Qred (inject_Z (round_half_even (x / ulp64 x)) * ulp64 x)
  | Lt => Qred (- (inject_Z (round_half_even (- x / ulp64 x)) * ulp64 x))
  end.

Record Blob16 : Type := mkBlob16 { data : string; mimeType : string }.

(** [createBlob]. *)
Definition createBlob (samples : list number) : Blob16 :=
  let int16 := map (fun x => ToInt16 (times_32768 x)) samples in
  {| data := encode (Uint8Array_of_Int16Array int16);
     mimeType := "audio/pcm;rate=16000" |}.

Record AudioBuffer : Type := mkAudioBuffer {
  numberOfChannels : nat;
  frames : nat;
  sampleRate : positive;
  channels : list (list number)
}.

(** [duration] of an [AudioBuffer], in seconds: the binary64 quotient of
    the length by the sample rate. *)
Definition duration (b : AudioBuffer) : Q :=
  binary64 (Z.of_nat (frames b) # sampleRate b).

Inductive Exn : Type :=
| InvalidCharacterError
| RangeError
| NotSupportedError
| ConnectError (message : option string) (status : option Z)
| MediaError.

(** The samples of one channel: element [i * numChannels + channel] for
    every frame [i]. *)
Definition channel_samples (dataInt16 : list Z) (numChannels frameCount channel : nat)
  : list number :=
  map (fun i => over_32768 (nth (i * numChannels + channel) dataInt16 0))
      (seq 0 frameCount).

(** [decodeAudioData].  [createBuffer] raises NotSupportedError for zero
    channels or zero frames.  It raises it too for a channel count or a
    sample rate outside the range that the platform supports; that
    range, which differs between platforms, is not modelled: the program
    calls [decodeAudioData] with one channel at 24000 Hz, which every
    platform supports. *)
Definition decodeAudioData (bytes : list byte) (rate : positive) (numChannels : nat)
  : Exn + AudioBuffer :=
  match Int16Array_of_Uint8Array bytes with
  | None => inl RangeError
  | Some dataInt16 =>
      let frameCount := Nat.div (List.length dataInt16) numChannels in
      if Nat.eqb numChannels 0 || Nat.eqb frameCount 0 then inl NotSupportedError
      else
        inr {| numberOfChannels := numChannels;
               frames := frameCount;
               sampleRate := rate;
               channels :=
                 map (channel_samples dataInt16 numChannels frameCount)
                     (seq 0 numChannels) |}
  end.

(* ================================================================== *)
(** ** The controller: data *)
(* ================================================================== *)

Inductive AgentStatus : Type :=
| idle | connecting | listening | processing | speaking | error.

Definition status_eqb (a b : AgentStatus) : bool :=
  match a, b with
  | idle, idle | connecting, connecting | listening, listening
  | processing, processing | speaking, speaking | error, error => true
  | _, _ => false
  end.

Inductive Role : Type := user | model.

(** [AudioContext.state] and [MediaRecorder.state]. *)
Inductive ContextState : Type := ctx_suspended | ctx_running | ctx_closed.
Inductive RecordingState : Type := rec_inactive | rec_recording | rec_paused.

Definition is_closed (c : ContextState) : bool :=
  match c with ctx_closed => true | _ => false end.

Definition is_inactive (r : RecordingState) : bool :=
  match r with rec_inactive => true | _ => false end.

Record Blob : Type := mkBlob { blob_bytes : list byte; blob_type : string }.

Definition blob_size (b : Blob) : nat := List.length (blob_bytes b).

(** [new Blob(parts, { type })]. *)
Definition new_Blob (parts : list Blob) (type : string) : Blob :=
  {| blob_bytes := flat_map blob_bytes parts; blob_type := type |}.

Record MediaRecorder : Type := mkRecorder {
  rec_state : RecordingState;
  rec_mimeType : string
}.

(** What a [then] callback on [sessionPromise] does with the session. *)
Inductive SessionCall : Type :=
| ToolResponse (id name result : string)
| RealtimeInput (media : Blob16).

(** The promise held in [sessionPromise]; a pending promise carries the
    callbacks registered on it with [then], in the order of their
    registration. *)
Inductive SessionPromise : Type :=
| Pending (reactions : list SessionCall)
| Fulfilled
| Rejected.

(** Where a [disconnect] that nobody awaits is suspended: on the session
    promise, on the [stop] event of the recorder, or on the closing of
    one of the audio contexts. *)
Inductive TeardownPoint : Type :=
| AtSession | AtRecorder | AtInputClose | AtOutputClose.

Definition Args : Type := list (string * string).

Record FunctionCall : Type := mkFunctionCall {
  fc_id : string;
  fc_name : string;
  fc_args : Args
}.

Record Part : Type := mkPart { inlineData : option string }.

Record ServerContent : Type := mkServerContent {
  outputTranscription : option string;
  inputTranscription : option string;
  turnComplete : bool;
  modelTurn : option (list Part);
  interrupted : bool
}.

Record LiveServerMessage : Type := mkMessage {
  toolCall : option (list FunctionCall);
  serverContent : option ServerContent
}.

Inductive WhichContext : Type := InputContext | OutputContext.

Inductive LogSite : Type :=
| ErrorClosingSession
| ErrorClosingContext (which : WhichContext)
| RecorderFailedToStart
| RetryingConnection (attemptsLeft : nat)
| ConnectionFailedFully.

(** What the controller does to its collaborators: the callbacks it
    invokes and the calls it makes on the platform and on the session. *)
Inductive Event : Type :=
| StatusChange (status : AgentStatus)
| Transcript (text : string) (role : Role)
| LeadUpdate (args : Args)
| SendToolResponse (id name result : string)
| AudioRecord (blob : Blob)
| SourceStart (source : nat) (when : Q) (length : Q)
| SourceStop (source : nat)
| SessionClose
| RecorderStart (mime : string)
| RecorderStop
| ClearInterval (timer : nat)
| SetInterval (timer : nat) (ms : Z)
| TrackStop (track : nat)
| InputNodeDisconnect
| ContextClose (which : WhichContext)
| GetUserMedia
| ConnectAttempt (attempt : nat)
| Wait (ms : Z)
| Console (site : LogSite)
| SendRealtimeInput (media : Blob16)
| VolumeUpdate (volume : Q).

Definition call_event (c : SessionCall) : Event :=
  match c with
  | ToolResponse id name result => SendToolResponse id name result
  | RealtimeInput media => SendRealtimeInput media
  end.

(** The fields of [LiveClient].  A callback field holds [true] when a
    function is registered.  [freshSource] numbers the nodes made by
    [createBufferSource].  Two more fields hold what the runtime keeps
    for the client: [microtasks], the [then] callbacks of a fulfilled
    session promise that the running handler has queued and that have
    not run yet (the platform runs the queue to its end before it calls a
    handler, so that a handler starts with none), and [pendingTeardown],
    the point where a [disconnect] that was started without being
    awaited is suspended. *)
Record LiveClient : Type := mkLiveClient {
  inputAudioContext : option ContextState;
  outputAudioContext : option ContextState;
  inputNode : bool;
  outputNode : bool;
  outputAnalyser : bool;
  sources : list nat;
  nextStartTime : Q;
  stream : option (list nat);
  sessionPromise : option SessionPromise;
  outputVolumeInterval : option nat;
  currentStatus : AgentStatus;
  lastUserInteraction : Z;
  hasSpokenOnce : bool;
  mediaRecorder : option MediaRecorder;
  audioChunks : list Blob;
  currentInputTranscription : string;
  currentOutputTranscription : string;
  onVolumeUpdate : bool;
  onStatusChange : bool;
  onTranscript : bool;
  onLeadUpdate : bool;
  onAudioRecord : bool;
  freshSource : nat;
  microtasks : list SessionCall;
  pendingTeardown : option TeardownPoint
}.

(** The state the constructor leaves. *)
Definition new_LiveClient : LiveClient :=
  {| inputAudioContext := None; outputAudioContext := None;
     inputNode := false; outputNode := false; outputAnalyser := false;
     sources := []; nextStartTime := 0%Q; stream := None;
     sessionPromise := None; outputVolumeInterval := None;
     currentStatus := idle; lastUserInteraction := 0; hasSpokenOnce := false;
     mediaRecorder := None; audioChunks := [];
     currentInputTranscription := ""; currentOutputTranscription := "";
     onVolumeUpdate := false; onStatusChange := false; onTranscript := false;
     onLeadUpdate := false; onAudioRecord := false; freshSource := 0%nat;
     microtasks := []; pendingTeardown := None |}.

Section Setters.
Variable c : LiveClient.

Definition set_inputAudioContext v :=
    mkLiveClient v (outputAudioContext c) (inputNode c) (outputNode c)
      (outputAnalyser c) (sources c) (nextStartTime c) (stream c)
      (sessionPromise c) (outputVolumeInterval c) (currentStatus c)
      (lastUserInteraction c) (hasSpokenOnce c) (mediaRecorder c)
      (audioChunks c) (currentInputTranscription c)
      (currentOutputTranscription c) (onVolumeUpdate c) (onStatusChange c)
      (onTranscript c) (onLeadUpdate c) (onAudioRecord c) (freshSource c)
      (microtasks c) (pendingTeardown c).

Definition set_outputAudioContext v :=
    mkLiveClient (inputAudioContext c) v (inputNode c) (outputNode c)
      (outputAnalyser c) (sources c) (nextStartTime c) (stream c)
      (sessionPromise c) (outputVolumeInterval c) (currentStatus c)
      (lastUserInteraction c) (hasSpokenOnce c) (mediaRecorder c)
      (audioChunks c) (currentInputTranscription c)
      (currentOutputTranscription c) (onVolumeUpdate c) (onStatusChange c)
      (onTranscript c) (onLeadUpdate c) (onAudioRecord c) (freshSource c)
      (microtasks c) (pendingTeardown c).

Definition set_inputNode v :=
    mkLiveClient (inputAudioContext c) (outputAudioContext c) v (outputNode c)
      (outputAnalyser c) (sources c) (nextStartTime c) (stream c)
      (sessionPromise c) (outputVolumeInterval c) (currentStatus c)
      (lastUserInteraction c) (hasSpokenOnce c) (mediaRecorder c)
      (audioChunks c) (currentInputTranscription c)
      (currentOutputTranscription c) (onVolumeUpdate c) (onStatusChange c)
      (onTranscript c) (onLeadUpdate c) (onAudioRecord c) (freshSource c)
      (microtasks c) (pendingTeardown c).

Definition set_outputNodes v :=
    mkLiveClient (inputAudioContext c) (outputAudioContext c) (inputNode c) v
      v (sources c) (nextStartTime c) (stream c)
      (sessionPromise c) (outputVolumeInterval c) (currentStatus c)
      (lastUserInteraction c) (hasSpokenOnce c) (mediaRecorder c)
      (audioChunks c) (currentInputTranscription c)
      (currentOutputTranscription c) (onVolumeUpdate c) (onStatusChange c)
      (onTranscript c) (onLeadUpdate c) (onAudioRecord c) (freshSource c)
      (microtasks c) (pendingTeardown c).

Definition set_sources v :=
    mkLiveClient (inputAudioContext c) (outputAudioContext c) (inputNode c)
      (outputNode c) (outputAnalyser c) v (nextStartTime c) (stream c)
      (sessionPromise c) (outputVolumeInterval c) (currentStatus c)
      (lastUserInteraction c) (hasSpokenOnce c) (mediaRecorder c)
      (audioChunks c) (currentInputTranscription c)
      (currentOutputTranscription c) (onVolumeUpdate c) (onStatusChange c)
      (onTranscript c) (onLeadUpdate c) (onAudioRecord c) (freshSource c)
      (microtasks c) (pendingTeardown c).

Definition set_nextStartTime v :=
    mkLiveClient (inputAudioContext c) (outputAudioContext c) (inputNode c)
      (outputNode c) (outputAnalyser c) (sources c) v (stream c)
      (sessionPromise c) (outputVolumeInterval c) (currentStatus c)
      (lastUserInteraction c) (hasSpokenOnce c) (mediaRecorder c)
      (audioChunks c) (currentInputTranscription c)
      (currentOutputTranscription c) (onVolumeUpdate c) (onStatusChange c)
      (onTranscript c) (onLeadUpdate c) (onAudioRecord c) (freshSource c)
      (microtasks c) (pendingTeardown c).

Definition set_stream v :=
    mkLiveClient (inputAudioContext c) (outputAudioContext c) (inputNode c)
      (outputNode c) (outputAnalyser c) (sources c) (nextStartTime c) v
      (sessionPromise c) (outputVolumeInterval c) (currentStatus c)
      (lastUserInteraction c) (hasSpokenOnce c) (mediaRecorder c)
      (audioChunks c) (currentInputTranscription c)
      (currentOutputTranscription c) (onVolumeUpdate c) (onStatusChange c)
      (onTranscript c) (onLeadUpdate c) (onAudioRecord c) (freshSource c)
      (microtasks c) (pendingTeardown c).

Definition set_sessionPromise v :=
    mkLiveClient (inputAudioContext c) (outputAudioContext c) (inputNode c)
      (outputNode c) (outputAnalyser c) (sources c) (nextStartTime c) (stream c)
      v (outputVolumeInterval c) (currentStatus c)
      (lastUserInteraction c) (hasSpokenOnce c) (mediaRecorder c)
      (audioChunks c) (currentInputTranscription c)
      (currentOutputTranscription c) (onVolumeUpdate c) (onStatusChange c)
      (onTranscript c) (onLeadUpdate c) (onAudioRecord c) (freshSource c)
      (microtasks c) (pendingTeardown c).

Definition set_outputVolumeInterval v :=
    mkLiveClient (inputAudioContext c) (outputAudioContext c) (inputNode c)
      (outputNode c) (outputAnalyser c) (sources c) (nextStartTime c) (stream c)
      (sessionPromise c) v (currentStatus c)
      (lastUserInteraction c) (hasSpokenOnce c) (mediaRecorder c)
      (audioChunks c) (currentInputTranscription c)
      (currentOutputTranscription c) (onVolumeUpdate c) (onStatusChange c)
      (onTranscript c) (onLeadUpdate c) (onAudioRecord c) (freshSource c)
      (microtasks c) (pendingTeardown c).

Definition set_currentStatus v :=
    mkLiveClient (inputAudioContext c) (outputAudioContext c) (inputNode c)
      (outputNode c) (outputAnalyser c) (sources c) (nextStartTime c) (stream c)
      (sessionPromise c) (outputVolumeInterval c) v
      (lastUserInteraction c) (hasSpokenOnce c) (mediaRecorder c)
      (audioChunks c) (currentInputTranscription c)
      (currentOutputTranscription c) (onVolumeUpdate c) (onStatusChange c)
      (onTranscript c) (onLeadUpdate c) (onAudioRecord c) (freshSource c)
      (microtasks c) (pendingTeardown c).

(** [lastUserInteraction] and [hasSpokenOnce] are always written
    together. *)
Definition set_voiceActivity t b :=
    mkLiveClient (inputAudioContext c) (outputAudioContext c) (inputNode c)
      (outputNode c) (outputAnalyser c) (sources c) (nextStartTime c) (stream c)
      (sessionPromise c) (outputVolumeInterval c) (currentStatus c)
      t b (mediaRecorder c)
      (audioChunks c) (currentInputTranscription c)
      (currentOutputTranscription c) (onVolumeUpdate c) (onStatusChange c)
      (onTranscript c) (onLeadUpdate c) (onAudioRecord c) (freshSource c)
      (microtasks c) (pendingTeardown c).

Definition set_mediaRecorder v :=
    mkLiveClient (inputAudioContext c) (outputAudioContext c) (inputNode c)
      (outputNode c) (outputAnalyser c) (sources c) (nextStartTime c) (stream c)
      (sessionPromise c) (outputVolumeInterval c) (currentStatus c)
      (lastUserInteraction c) (hasSpokenOnce c) v
      (audioChunks c) (currentInputTranscription c)
      (currentOutputTranscription c) (onVolumeUpdate c) (onStatusChange c)
      (onTranscript c) (onLeadUpdate c) (onAudioRecord c) (freshSource c)
      (microtasks c) (pendingTeardown c).

Definition set_audioChunks v :=
    mkLiveClient (inputAudioContext c) (outputAudioContext c) (inputNode c)
      (outputNode c) (outputAnalyser c) (sources c) (nextStartTime c) (stream c)
      (sessionPromise c) (outputVolumeInterval c) (currentStatus c)
      (lastUserInteraction c) (hasSpokenOnce c) (mediaRecorder c)
      v (currentInputTranscription c)
      (currentOutputTranscription c) (onVolumeUpdate c) (onStatusChange c)
      (onTranscript c) (onLeadUpdate c) (onAudioRecord c) (freshSource c)
      (microtasks c) (pendingTeardown c).

Definition set_currentInputTranscription v :=
    mkLiveClient (inputAudioContext c) (outputAudioContext c) (inputNode c)
      (outputNode c) (outputAnalyser c) (sources c) (nextStartTime c) (stream c)
      (sessionPromise c) (outputVolumeInterval c) (currentStatus c)
      (lastUserInteraction c) (hasSpokenOnce c) (mediaRecorder c)
      (audioChunks c) v
      (currentOutputTranscription c) (onVolumeUpdate c) (onStatusChange c)
      (onTranscript c) (onLeadUpdate c) (onAudioRecord c) (freshSource c)
      (microtasks c) (pendingTeardown c).

Definition set_currentOutputTranscription v :=
    mkLiveClient (inputAudioContext c) (outputAudioContext c) (inputNode c)
      (outputNode c) (outputAnalyser c) (sources c) (nextStartTime c) (stream c)
      (sessionPromise c) (outputVolumeInterval c) (currentStatus c)
      (lastUserInteraction c) (hasSpokenOnce c) (mediaRecorder c)
      (audioChunks c) (currentInputTranscription c)
      v (onVolumeUpdate c) (onStatusChange c)
      (onTranscript c) (onLeadUpdate c) (onAudioRecord c) (freshSource c)
      (microtasks c) (pendingTeardown c).

Definition set_freshSource v :=
    mkLiveClient (inputAudioContext c) (outputAudioContext c) (inputNode c)
      (outputNode c) (outputAnalyser c) (sources c) (nextStartTime c) (stream c)
      (sessionPromise c) (outputVolumeInterval c) (currentStatus c)
      (lastUserInteraction c) (hasSpokenOnce c) (mediaRecorder c)
      (audioChunks c) (currentInputTranscription c)
      (currentOutputTranscription c) (onVolumeUpdate c) (onStatusChange c)
      (onTranscript c) (onLeadUpdate c) (onAudioRecord c) v
      (microtasks c) (pendingTeardown c).

Definition set_microtasks v :=
    mkLiveClient (inputAudioContext c) (outputAudioContext c) (inputNode c)
      (outputNode c) (outputAnalyser c) (sources c) (nextStartTime c) (stream c)
      (sessionPromise c) (outputVolumeInterval c) (currentStatus c)
      (lastUserInteraction c) (hasSpokenOnce c) (mediaRecorder c)
      (audioChunks c) (currentInputTranscription c)
      (currentOutputTranscription c) (onVolumeUpdate c) (onStatusChange c)
      (onTranscript c) (onLeadUpdate c) (onAudioRecord c) (freshSource c)
      v (pendingTeardown c).

Definition set_pendingTeardown v :=
    mkLiveClient (inputAudioContext c) (outputAudioContext c) (inputNode c)
      (outputNode c) (outputAnalyser c) (sources c) (nextStartTime c) (stream c)
      (sessionPromise c) (outputVolumeInterval c) (currentStatus c)
      (lastUserInteraction c) (hasSpokenOnce c) (mediaRecorder c)
      (audioChunks c) (currentInputTranscription c)
      (currentOutputTranscription c) (onVolumeUpdate c) (onStatusChange c)
      (onTranscript c) (onLeadUpdate c) (onAudioRecord c) (freshSource c)
      (microtasks c) v.
End Setters.

(* ================================================================== *)
(** ** The controller: a state, exception and trace monad *)
(* ================================================================== *)

(** A method runs from a state of the object and ends normally or by a
    throw, in a new state, having produced a trace of events. *)
Definition Run (A : Type) : Type :=
  LiveClient -> (Exn + A) * LiveClient * list Event.

Definition ret {A} (a : A) : Run A := fun st => (inr a, st, []).

Definition bind {A B} (m : Run A) (f : A -> Run B) : Run B := fun st =>
  match m st with
  | (inl e, st1, t1) => (inl e, st1, t1)
  | (inr a, st1, t1) =>
      match f a st1 with
      | (r, st2, t2) => (r, st2, t1 ++ t2)
      end
  end.

Definition throw {A} (e : Exn) : Run A := fun st => (inl e, st, []).

Definition try_catch {A} (m : Run A) (handler : Exn -> Run A) : Run A := fun st =>
  match m st with
  | (inl e, st1, t1) =>
      match handler e st1 with
      | (r, st2, t2) => (r, st2, t1 ++ t2)
      end
  | (inr a, st1, t1) => (inr a, st1, t1)
  end.

Definition get : Run LiveClient := fun st => (inr st, st, []).
Definition modify (f : LiveClient -> LiveClient) : Run unit :=
  fun st => (inr tt, f st, []).
Definition emit (e : Event) : Run unit := fun st => (inr tt, st, [e]).

Declare Scope run_scope.
Delimit Scope run_scope with run.
Notation "x <- m ;; k" := (bind m (fun x => k))
  (at level 61, m at next level, right associativity) : run_scope.
Notation "m ;; k" := (bind m (fun _ => k))
  (at level 61, right associativity) : run_scope.
Local Open Scope run_scope.

Definition when (b : bool) (m : Run unit) : Run unit := if b then m else ret tt.

Fixpoint for_each {A} (l : list A) (body : A -> Run unit) : Run unit :=
  match l with
  | [] => ret tt
  | x :: r => body x ;; for_each r body
  end.

(** [m], then [after] whether [m] ended normally or by a throw; the
    outcome is that of [m]. *)
Definition finally {A} (m : Run A) (after : Run unit) : Run A := fun st =>
  match m st with
  | (r, st1, t1) =>
      match after st1 with
      | (_, st2, t2) => (r, st2, t1 ++ t2)
      end
  end.

Definition outcome {A} (r : (Exn + A) * LiveClient * list Event) : Exn + A :=
  fst (fst r).
Definition final {A} (r : (Exn + A) * LiveClient * list Event) : LiveClient :=
  snd (fst r).
Definition trace {A} (r : (Exn + A) * LiveClient * list Event) : list Event :=
  snd r.

(* ================================================================== *)
(** ** The controller: strings and numbers of the platform *)
(* ================================================================== *)

(** White space of [String.prototype.trim] among the code units below
    256: TAB, LF, VT, FF, CR, SPACE and NBSP. *)
Definition is_js_whitespace (c : ascii) : bool :=
  let k := N_of_ascii c in
  ((9 <=? k) && (k <=? 13) || (k =? 32) || (k =? 160))%N.

Fixpoint trim_start (s : string) : string :=
  match s with
  | EmptyString => EmptyString
  | String c r => if is_js_whitespace c then trim_start r else s
  end.

Definition string_rev (s : string) : string :=
  string_of_list_ascii (rev (list_ascii_of_string s)).

Definition trim (s : string) : string :=
  string_rev (trim_start (string_rev (trim_start s))).

(** Truthiness of a string: it is not empty. *)
Definition truthy (s : string) : bool :=
  match s with EmptyString => false | String _ _ => true end.

(** [hay.includes(needle)]. *)
Fixpoint includes (needle hay : string) : bool :=
  if String.prefix needle hay then true
  else
    match hay with
    | EmptyString => false
    | String _ r => includes needle r
    end.

(** [Math.max] on two finite numbers. *)
Definition Math_max (a b : Q) : Q := if Qle_bool a b then b else a.

(* ================================================================== *)
(** ** The controller: [setStatus] and [handleMessage] *)
(* ================================================================== *)

Definition setStatus (status : AgentStatus) : Run unit :=
  st <- get ;;
  if status_eqb (currentStatus st) error
     && negb (status_eqb status idle) && negb (status_eqb status connecting)
  then ret tt
  else
    modify (fun st => set_currentStatus st status) ;;
    when (onStatusChange st) (emit (StatusChange status)).

(** [this.sessionPromise?.then(session => ...)].  The callback does not
    run at once: it is queued as a microtask when the promise is
    fulfilled, it waits in the promise when the promise is pending, and
    it never runs when the promise is rejected. *)
Definition thenSession (c : SessionCall) : Run unit :=
  modify (fun st =>
    match sessionPromise st with
    | Some (Pending reactions) =>
        set_sessionPromise st (Some (Pending (reactions ++ [c])))
    | Some Fulfilled => set_microtasks st (microtasks st ++ [c])
    | _ => st
    end).

(** The queued microtasks run, in order, when the running code suspends
    at an [await] or returns. *)
Definition runMicrotasks : Run unit :=
  st <- get ;;
  for_each (microtasks st) (fun c => emit (call_event c)) ;;
  modify (fun st => set_microtasks st []).

(** The pending session promise is fulfilled: the callbacks registered
    on it run. *)
Definition sessionFulfilled : Run unit :=
  st <- get ;;
  match sessionPromise st with
  | Some (Pending reactions) =>
      modify (fun st => set_sessionPromise st (Some Fulfilled)) ;;
      for_each reactions (fun c => emit (call_event c))
  | _ => ret tt
  end.

(** The tool calls of a message.  The response is sent from a [then] on
    [sessionPromise]. *)
Definition handleToolCall (fc : FunctionCall) : Run unit :=
  st <- get ;;
  when (String.eqb (fc_name fc) "update_lead" && onLeadUpdate st)
    (emit (LeadUpdate (fc_args fc)) ;;
     thenSession (ToolResponse (fc_id fc) (fc_name fc)
                               "Lead updated successfully.")).

Definition handleToolCalls (message : LiveServerMessage) : Run unit :=
  match toolCall message with
  | Some functionCalls => for_each functionCalls handleToolCall
  | None => ret tt
  end.

(** [message.serverContent?.outputTranscription?.text] and its input
    counterpart, when truthy. *)
Definition fragment (o : option string) : string :=
  match o with
  | Some text => text
  | None => EmptyString
  end.

Definition outputFragment (message : LiveServerMessage) : string :=
  match serverContent message with
  | Some sc => fragment (outputTranscription sc)
  | None => EmptyString
  end.

Definition inputFragment (message : LiveServerMessage) : string :=
  match serverContent message with
  | Some sc => fragment (inputTranscription sc)
  | None => EmptyString
  end.

Definition handleTranscription (message : LiveServerMessage) : Run unit :=
  when (truthy (outputFragment message))
    (modify (fun st =>
       set_currentOutputTranscription st
         (currentOutputTranscription st ++ outputFragment message)%string)) ;;
  when (truthy (inputFragment message))
    (modify (fun st =>
       set_currentInputTranscription st
         (currentInputTranscription st ++ inputFragment message)%string)).

Definition isTurnComplete (message : LiveServerMessage) : bool :=
  match serverContent message with
  | Some sc => turnComplete sc
  | None => false
  end.

Definition handleTurnComplete (message : LiveServerMessage) : Run unit :=
  when (isTurnComplete message)
    (st <- get ;;
     when (truthy (trim (currentInputTranscription st)) && onTranscript st)
       (emit (Transcript (currentInputTranscription st) user) ;;
        modify (fun st => set_currentInputTranscription st EmptyString)) ;;
     st <- get ;;
     when (truthy (trim (currentOutputTranscription st)) && onTranscript st)
       (emit (Transcript (currentOutputTranscription st) model) ;;
        modify (fun st => set_currentOutputTranscription st EmptyString))).

(** [message.serverContent?.modelTurn?.parts[0]?.inlineData?.data]. *)
Definition base64Audio (message : LiveServerMessage) : option string :=
  match serverContent message with
  | Some sc =>
      match modelTurn sc with
      | Some (part :: _) => inlineData part
      | _ => None
      end
  | None => None
  end.

Definition lift_option {A} (o : option A) (e : Exn) : Run A :=
  match o with
  | Some a => ret a
  | None => throw e
  end.

Definition lift_sum {A} (r : Exn + A) : Run A :=
  match r with
  | inr a => ret a
  | inl e => throw e
  end.

(** The audio payload of a message; [currentTime] is the reading of
    [outputAudioContext.currentTime].  [decode] runs before the handler
    suspends at its [await]; the promise of [decodeAudioData] is settled
    by then, so that the handler resumes as soon as the queued
    microtasks have run. *)
Definition handleAudio (message : LiveServerMessage) (currentTime : Q) : Run unit :=
  st <- get ;;
  match base64Audio message, outputAudioContext st with
  | Some b64, Some _ =>
      when (truthy b64 && outputNode st)
        (when (negb (status_eqb (currentStatus st) speaking)) (setStatus speaking) ;;
         modify (fun st =>
           set_nextStartTime st (Math_max (nextStartTime st) currentTime)) ;;
         bytes <- lift_option (decode b64) InvalidCharacterError ;;
         runMicrotasks ;;
         audioBuffer <- lift_sum (decodeAudioData bytes 24000 1) ;;
         st <- get ;;
         let source := freshSource st in
         modify (fun st => set_freshSource st (S source)) ;;
         emit (SourceStart source (nextStartTime st) (duration audioBuffer)) ;;
         modify (fun st =>
           set_nextStartTime st
             (binary64 (nextStartTime st + duration audioBuffer))) ;;
         modify (fun st => set_sources st (sources st ++ [source])))
  | _, _ => ret tt
  end.

Definition isInterrupted (message : LiveServerMessage) : bool :=
  match serverContent message with
  | Some sc => interrupted sc
  | None => false
  end.

Definition handleInterrupted (message : LiveServerMessage) : Run unit :=
  when (isInterrupted message)
    (st <- get ;;
     for_each (sources st) (fun s => emit (SourceStop s)) ;;
     modify (fun st => set_sources st []) ;;
     modify (fun st => set_nextStartTime st 0%Q) ;;
     setStatus listening ;;
     modify (fun st => set_voiceActivity st 0 false) ;;
     modify (fun st => set_currentOutputTranscription st EmptyString)).

(** [handleMessage].  It starts with no microtask queued; the microtasks
    that are queued when it returns or throws run then. *)
Definition handleMessage (message : LiveServerMessage) (currentTime : Q) : Run unit :=
  modify (fun st => set_microtasks st []) ;;
  finally
    (handleToolCalls message ;;
     handleTranscription message ;;
     handleTurnComplete message ;;
     handleAudio message currentTime ;;
     handleInterrupted message)
    runMicrotasks.

(** The listener of the [ended] event of a playback node. *)
Definition sourceEnded (source : nat) : Run unit :=
  modify (fun st =>
    set_sources st (filter (fun s => negb (Nat.eqb s source)) (sources st))) ;;
  st <- get ;;
  when (Nat.eqb (List.length (sources st)) 0)
    (setStatus listening ;;
     modify (fun st => set_voiceActivity st 0 false)).

(** The messages of a session are handled one after the other, each with
    its own clock reading; a handler that throws does not stop the
    following ones. *)
Fixpoint handleMessages (inbound : list (LiveServerMessage * Q)) (st : LiveClient)
  : LiveClient * list Event :=
  match inbound with
  | [] => (st, [])
  | (message, currentTime) :: rest =>
      let r := handleMessage message currentTime st in
      let (st', t) := handleMessages rest (final r) in
      (st', trace r ++ t)
  end.

(* ================================================================== *)
(** ** The controller: [disconnect] *)
(* ================================================================== *)

(** What the platform answers during a teardown. *)
Record TeardownEnv : Type := mkTeardownEnv {
  (** how a still pending connection settles once awaited *)
  pending_fulfils : bool;
  (** [session.close()] throws *)
  session_close_throws : bool;
  (** the data of the [dataavailable] event that [stop()] raises *)
  final_data : Blob;
  (** [close()] of either context rejects *)
  input_close_rejects : bool;
  output_close_rejects : bool
}.

(** 1. Close the session.  The promise is awaited: a pending promise
    settles, and when it is fulfilled the callbacks registered on it run
    before the teardown goes on. *)
Definition closeSession (env : TeardownEnv) : Run unit :=
  st <- get ;;
  match sessionPromise st with
  | Some p =>
      try_catch
        (let session :=
           match p with
           | Fulfilled => true
           | Rejected => false
           | Pending _ => pending_fulfils env
           end in
         match p with
         | Pending reactions =>
             when session (for_each reactions (fun c => emit (call_event c)))
         | _ => ret tt
         end ;;
         when session
           (emit SessionClose ;;
            when (session_close_throws env) (throw MediaError)))
        (fun _ => emit (Console ErrorClosingSession)) ;;
      modify (fun st => set_sessionPromise st None)
  | None => ret tt
  end.

(** The [ondataavailable] listener installed by [connect]. *)
Definition ondataavailable (chunk : Blob) : Run unit :=
  when (Nat.ltb 0 (blob_size chunk))
    (modify (fun st => set_audioChunks st (audioChunks st ++ [chunk]))).

(** The [onstop] listener installed by [disconnect]. *)
Definition onstop : Run unit :=
  st <- get ;;
  let type :=
    match mediaRecorder st with
    | Some r => if truthy (rec_mimeType r) then rec_mimeType r else "audio/webm"%string
    | None => "audio/webm"%string
    end in
  let blob := new_Blob (audioChunks st) type in
  when (onAudioRecord st && Nat.ltb 0 (blob_size blob)) (emit (AudioRecord blob)).

(** 2. Stop the recorder and wait for its [stop] event; the platform
    raises [dataavailable], then [stop], and the recorder is inactive. *)
Definition stopRecorder (env : TeardownEnv) : Run unit :=
  st <- get ;;
  match mediaRecorder st with
  | Some r =>
      when (negb (is_inactive (rec_state r)))
        (emit RecorderStop ;;
         modify (fun st =>
           set_mediaRecorder st (Some (mkRecorder rec_inactive (rec_mimeType r)))) ;;
         ondataavailable (final_data env) ;;
         onstop)
  | None => ret tt
  end.

Definition clearVolumeInterval : Run unit :=
  st <- get ;;
  match outputVolumeInterval st with
  | Some timer =>
      emit (ClearInterval timer) ;;
      modify (fun st => set_outputVolumeInterval st None)
  | None => ret tt
  end.

Definition stopTracks : Run unit :=
  st <- get ;;
  match stream st with
  | Some tracks =>
      for_each tracks (fun track => emit (TrackStop track)) ;;
      modify (fun st => set_stream st None)
  | None => ret tt
  end.

Definition disconnectInputNode : Run unit :=
  st <- get ;;
  when (inputNode st)
    (emit InputNodeDisconnect ;;
     modify (fun st => set_inputNode st false)).

Definition closeContext (which : WhichContext) (rejects : bool) : Run unit :=
  st <- get ;;
  match (match which with
         | InputContext => inputAudioContext st
         | OutputContext => outputAudioContext st
         end) with
  | Some state =>
      when (negb (is_closed state))
        (try_catch
           (emit (ContextClose which) ;;
            when rejects (throw MediaError))
           (fun _ => emit (Console (ErrorClosingContext which)))) ;;
      modify (fun st =>
        match which with
        | InputContext => set_inputAudioContext st None
        | OutputContext => set_outputAudioContext st None
        end)
  | None => ret tt
  end.

Definition stopSources : Run unit :=
  st <- get ;;
  for_each (sources st) (fun s => emit (SourceStop s)) ;;
  modify (fun st => set_sources st []).

Definition disconnect (env : TeardownEnv) : Run unit :=
  closeSession env ;;
  stopRecorder env ;;
  clearVolumeInterval ;;
  stopTracks ;;
  disconnectInputNode ;;
  closeContext InputContext (input_close_rejects env) ;;
  closeContext OutputContext (output_close_rejects env) ;;
  stopSources ;;
  setStatus idle.

(** A [disconnect] that is called without being awaited runs until its
    first [await] and goes on later.  [disconnect_start] is the part
    that runs at the call: it gives the point where the teardown is
    suspended, or nothing when the teardown has run to its end.
    [disconnect_from] is the rest, from that point, once what was
    awaited has settled. *)
Definition closeContext_call (which : WhichContext) : Run bool :=
  st <- get ;;
  match (match which with
         | InputContext => inputAudioContext st
         | OutputContext => outputAudioContext st
         end) with
  | Some state =>
      if is_closed state then
        modify (fun st =>
          match which with
          | InputContext => set_inputAudioContext st None
          | OutputContext => set_outputAudioContext st None
          end) ;;
        ret false
      else emit (ContextClose which) ;; ret true
  | None => ret false
  end.

Definition closeContext_settled (which : WhichContext) (rejects : bool) : Run unit :=
  when rejects (emit (Console (ErrorClosingContext which))) ;;
  modify (fun st =>
    match which with
    | InputContext => set_inputAudioContext st None
    | OutputContext => set_outputAudioContext st None
    end).

Definition start_at_output : Run (option TeardownPoint) :=
  awaited <- closeContext_call OutputContext ;;
  if awaited : bool then ret (Some AtOutputClose)
  else stopSources ;; setStatus idle ;; ret None.

Definition start_at_input : Run (option TeardownPoint) :=
  awaited <- closeContext_call InputContext ;;
  if awaited : bool then ret (Some AtInputClose) else start_at_output.

Definition start_at_interval : Run (option TeardownPoint) :=
  clearVolumeInterval ;;
  stopTracks ;;
  disconnectInputNode ;;
  start_at_input.

Definition disconnect_start : Run (option TeardownPoint) :=
  st <- get ;;
  match sessionPromise st with
  | Some _ => ret (Some AtSession)
  | None =>
      match mediaRecorder st with
      | Some r =>
          if negb (is_inactive (rec_state r)) then
            emit RecorderStop ;;
            modify (fun st =>
              set_mediaRecorder st (Some (mkRecorder rec_inactive (rec_mimeType r)))) ;;
            ret (Some AtRecorder)
          else start_at_interval
      | None => start_at_interval
      end
  end.

Definition disconnect_from (env : TeardownEnv) (point : TeardownPoint) : Run unit :=
  match point with
  | AtSession => disconnect env
  | AtRecorder =>
      ondataavailable (final_data env) ;;
      onstop ;;
      clearVolumeInterval ;;
      stopTracks ;;
      disconnectInputNode ;;
      closeContext InputContext (input_close_rejects env) ;;
      closeContext OutputContext (output_close_rejects env) ;;
      stopSources ;;
      setStatus idle
  | AtInputClose =>
      closeContext_settled InputContext (input_close_rejects env) ;;
      closeContext OutputContext (output_close_rejects env) ;;
      stopSources ;;
      setStatus idle
  | AtOutputClose =>
      closeContext_settled OutputContext (output_close_rejects env) ;;
      stopSources ;;
      setStatus idle
  end.

(** The suspended teardown goes on and runs to its end. *)
Definition resumeTeardown (env : TeardownEnv) : Run unit :=
  st <- get ;;
  match pendingTeardown st with
  | Some point =>
      modify (fun st => set_pendingTeardown st None) ;;
      disconnect_from env point
  | None => ret tt
  end.

(** The step of the teardown an event belongs to. *)
Definition teardown_step (e : Event) : nat :=
  match e with
  | SessionClose | Console ErrorClosingSession
  | SendToolResponse _ _ _ | SendRealtimeInput _ => 1
  | RecorderStop | AudioRecord _ => 2
  | ClearInterval _ => 3
  | TrackStop _ => 4
  | InputNodeDisconnect => 5
  | ContextClose _ | Console (ErrorClosingContext _) => 6
  | SourceStop _ => 7
  | StatusChange _ => 8
  | _ => 0
  end%nat.

(* ================================================================== *)
(** ** The controller: [connect] *)
(* ================================================================== *)

Inductive AttemptOutcome : Type :=
| Opened
| Failed (message : option string) (status : option Z).

(** What the platform and the remote service answer during [connect]. *)
Record ConnectEnv : Type := mkConnectEnv {
  teardown : TeardownEnv;
  (** the tracks of the granted microphone stream, or a refusal *)
  getUserMedia : option (list nat);
  (** [typeof MediaRecorder !== 'undefined'] and [isTypeSupported] *)
  recorder_defined : bool;
  isTypeSupported : string -> bool;
  (** the constructor of the recorder throws; its [start()] throws *)
  recorder_constructor_throws : bool;
  recorder_start_throws : bool;
  (** the handle [setInterval] returns *)
  interval_handle : nat;
  (** the outcome of each call of [ai.live.connect], by rank *)
  attempt : nat -> AttemptOutcome
}.

(** [e.message?.includes('unavailable') || e.status === 503]. *)
Definition is_unavailable (message : option string) (status : option Z) : bool :=
  match message with
  | Some m => includes "unavailable" m
  | None => false
  end
  || match status with
     | Some s => s =? 503
     | None => false
     end.

Definition startAudioInput : Run unit :=
  st <- get ;;
  match inputAudioContext st, stream st, sessionPromise st with
  | Some _, Some _, Some _ => modify (fun st => set_inputNode st true)
  | _, _, _ => ret tt
  end.

Definition startOutputVolumeMonitoring (env : ConnectEnv) : Run unit :=
  st <- get ;;
  match outputVolumeInterval st with
  | Some timer => emit (ClearInterval timer)
  | None => ret tt
  end ;;
  emit (SetInterval (interval_handle env) 50) ;;
  modify (fun st => set_outputVolumeInterval st (Some (interval_handle env))).

(** The [onopen] callback. *)
Definition onopen (env : ConnectEnv) : Run unit :=
  setStatus listening ;;
  startAudioInput ;;
  startOutputVolumeMonitoring env.

(** [connectWithRetry]; [rank] counts the calls of [ai.live.connect]. *)
Fixpoint connectWithRetry (env : ConnectEnv) (retries : nat) (rank : nat) : Run unit :=
  emit (ConnectAttempt rank) ;;
  match attempt env rank with
  | Opened => onopen env
  | Failed message status =>
      match retries with
      | S retries' =>
          if is_unavailable message status then
            emit (Console (RetryingConnection retries)) ;;
            emit (Wait 1500) ;;
            connectWithRetry env retries' (S rank)
          else throw (ConnectError message status)
      | O => throw (ConnectError message status)
      end
  end.

Definition chooseMimeType (env : ConnectEnv) : string :=
  if recorder_defined env then
    if isTypeSupported env "audio/webm;codecs=opus" then "audio/webm;codecs=opus"
    else if isTypeSupported env "audio/mp4" then "audio/mp4"
    else "audio/webm"
  else "audio/webm".

Definition setupRecording (env : ConnectEnv) : Run unit :=
  try_catch
    (when (recorder_constructor_throws env) (throw NotSupportedError) ;;
     modify (fun st =>
       set_mediaRecorder st (Some (mkRecorder rec_inactive (chooseMimeType env)))) ;;
     when (recorder_start_throws env) (throw MediaError) ;;
     emit (RecorderStart (chooseMimeType env)) ;;
     modify (fun st =>
       set_mediaRecorder st (Some (mkRecorder rec_recording (chooseMimeType env)))))
    (fun _ => emit (Console RecorderFailedToStart)).

(** [connect].  [sessionPromise] holds the promise of [connectWithRetry]
    from the moment of the call: pending while the attempts run, then
    fulfilled or rejected; nothing registers a callback on it before
    [connect] returns.  The result tells whether the [catch] block was
    entered: it then calls [disconnect] without awaiting it, and that
    teardown has run up to its first [await] when [connect] returns (up
    to [sessionPromise] when there is one, and up to the call that
    closes the input context otherwise); where it is suspended is kept
    in [pendingTeardown]. *)
Definition connect (env : ConnectEnv) : Run bool :=
  disconnect (teardown env) ;;
  setStatus connecting ;;
  modify (fun st => set_audioChunks st []) ;;
  try_catch
    (modify (fun st => set_inputAudioContext st (Some ctx_running)) ;;
     modify (fun st => set_outputAudioContext st (Some ctx_running)) ;;
     modify (fun st => set_outputNodes st true) ;;
     emit GetUserMedia ;;
     tracks <- lift_option (getUserMedia env) MediaError ;;
     modify (fun st => set_stream st (Some tracks)) ;;
     setupRecording env ;;
     modify (fun st => set_sessionPromise st (Some (Pending []))) ;;
     try_catch
       (connectWithRetry env 3 0 ;;
        modify (fun st => set_sessionPromise st (Some Fulfilled)))
       (fun e =>
          modify (fun st => set_sessionPromise st (Some Rejected)) ;;
          throw e) ;;
     ret false)
    (fun _ =>
       emit (Console ConnectionFailedFully) ;;
       setStatus error ;;
       point <- disconnect_start ;;
       modify (fun st => set_pendingTeardown st point) ;;
       ret true).

(** The teardown that a failed [connect] leaves behind, once it has run. *)
Definition connect_settled (env : ConnectEnv) (after : TeardownEnv) : Run unit :=
  teardownPending <- connect env ;;
  when teardownPending (resumeTeardown after).

(* ================================================================== *)
(** ** Observations on traces and on runs *)
(* ================================================================== *)

(** The playback nodes started, with their start time and the duration of
    their buffer. *)
Definition scheduled (tr : list Event) : list (Q * Q) :=
  flat_map (fun e => match e with SourceStart _ t d => [(t, d)] | _ => [] end) tr.


(** The calls of the transcript callback. *)
Definition transcripts (tr : list Event) : list (string * Role) :=
  flat_map (fun e => match e with Transcript t r => [(t, r)] | _ => [] end) tr.

(** The calls of the lead-update callback and the tool responses sent. *)
Definition is_tool_event (e : Event) : bool :=
  match e with
  | LeadUpdate _ | SendToolResponse _ _ _ => true
  | _ => false
  end.

Definition tool_events (tr : list Event) : list Event := filter is_tool_event tr.

(** The calls made on the session by [then] callbacks. *)
Definition is_session_call (e : Event) : bool :=
  match e with
  | SendToolResponse _ _ _ | SendRealtimeInput _ => true
  | _ => false
  end.

Definition functionCalls (message : LiveServerMessage) : list FunctionCall :=
  match toolCall message with
  | Some l => l
  | None => []
  end.

(** The backoff waits and the ranks of the connection attempts. *)
Definition waits (tr : list Event) : list Z :=
  flat_map (fun e => match e with Wait ms => [ms] | _ => [] end) tr.

Definition attempts (tr : list Event) : list nat :=
  flat_map (fun e => match e with ConnectAttempt k => [k] | _ => [] end) tr.

Definition join (l : list string) : string := fold_right String.append EmptyString l.

(** A sequence of status-update requests. *)
Definition setStatuses (requests : list AgentStatus) : Run unit :=
  for_each requests setStatus.

(** The blob that [onstop] assembles during a teardown. *)
Definition assembled_recording (env : TeardownEnv) (st : LiveClient) : Blob :=
  new_Blob
    (audioChunks st
     ++ (if Nat.ltb 0 (blob_size (final_data env)) then [final_data env] else []))
    (match mediaRecorder st with
     | Some r => if truthy (rec_mimeType r) then rec_mimeType r else "audio/webm"%string
     | None => "audio/webm"%string
     end).

Definition recorder_active (st : LiveClient) : bool :=
  match mediaRecorder st with
  | Some r => negb (is_inactive (rec_state r))
  | None => false
  end.

(* ================================================================== *)
(** ** Closed forms of the handlers and of the teardown *)
(* ================================================================== *)

(** What one function call of a message produces: a call of the lead
    callback, and a callback registered on the session promise. *)
Definition tool_call_events (st : LiveClient) (fc : FunctionCall) : list Event :=
  if String.eqb (fc_name fc) "update_lead" && onLeadUpdate st
  then [LeadUpdate (fc_args fc)]
  else [].

Definition tool_call_reactions (st : LiveClient) (fc : FunctionCall) : list SessionCall :=
  if String.eqb (fc_name fc) "update_lead" && onLeadUpdate st
  then [ToolResponse (fc_id fc) (fc_name fc) "Lead updated successfully."]
  else [].

(** The state after callbacks have been registered with [then]. *)
Definition after_then (calls : list SessionCall) (st : LiveClient) : LiveClient :=
  match sessionPromise st with
  | Some (Pending reactions) =>
      set_sessionPromise st (Some (Pending (reactions ++ calls)))
  | Some Fulfilled => set_microtasks st (microtasks st ++ calls)
  | _ => st
  end.

(** The microtasks that run, and the state they leave. *)
Definition microtask_events (st : LiveClient) : list Event :=
  map call_event (microtasks st).

Definition after_microtasks (st : LiveClient) : LiveClient := set_microtasks st [].

(** Whether the handler of a message reaches its [await]: the payload is
    base64. *)
Definition audio_awaited (m : LiveServerMessage) : bool :=
  match base64Audio m with
  | Some b64 =>
      match decode b64 with
      | Some _ => true
      | None => false
      end
  | None => false
  end.

Definition after_transcription (m : LiveServerMessage) (st : LiveClient) : LiveClient :=
  set_currentInputTranscription
    (set_currentOutputTranscription st
       (currentOutputTranscription st ++ outputFragment m)%string)
    (currentInputTranscription st ++ inputFragment m)%string.

Definition flushes_input (m : LiveServerMessage) (st : LiveClient) : bool :=
  isTurnComplete m && (truthy (trim (currentInputTranscription st)) && onTranscript st).

Definition flushes_output (m : LiveServerMessage) (st : LiveClient) : bool :=
  isTurnComplete m && (truthy (trim (currentOutputTranscription st)) && onTranscript st).

Definition after_turnComplete (m : LiveServerMessage) (st : LiveClient) : LiveClient :=
  set_currentOutputTranscription
    (set_currentInputTranscription st
       (if flushes_input m st then EmptyString else currentInputTranscription st))
    (if flushes_output m st then EmptyString else currentOutputTranscription st).

Definition turnComplete_events (m : LiveServerMessage) (st : LiveClient) : list Event :=
  (if flushes_input m st then [Transcript (currentInputTranscription st) user] else [])
  ++ (if flushes_output m st then [Transcript (currentOutputTranscription st) model]
      else []).

(** The state in which the audio branch of [handleMessage] runs. *)
Definition before_audio (m : LiveServerMessage) (st : LiveClient) : LiveClient :=
  after_turnComplete m
    (after_transcription m
       (after_then (flat_map (tool_call_reactions st) (functionCalls m))
          (after_microtasks st))).

(** The guard of the audio branch. *)
Definition audio_present (m : LiveServerMessage) (st : LiveClient) : bool :=
  match base64Audio m, outputAudioContext st with
  | Some b64, Some _ => truthy b64 && outputNode st
  | _, _ => false
  end.

(** [decodeAudioData(decode(base64Audio), ctx, 24000, 1)]. *)
Definition decoded_audio (m : LiveServerMessage) : Exn + AudioBuffer :=
  match base64Audio m with
  | Some b64 =>
      match decode b64 with
      | Some bytes => decodeAudioData bytes 24000 1
      | None => inl InvalidCharacterError
      end
  | None => inl InvalidCharacterError
  end.

(** The status a request leaves, and the callback it fires. *)
Definition status_after (request : AgentStatus) (st : LiveClient) : AgentStatus :=
  if status_eqb (currentStatus st) error
     && negb (status_eqb request idle) && negb (status_eqb request connecting)
  then currentStatus st
  else request.

Definition status_events (request : AgentStatus) (st : LiveClient) : list Event :=
  if status_eqb (currentStatus st) error
     && negb (status_eqb request idle) && negb (status_eqb request connecting)
  then []
  else if onStatusChange st then [StatusChange request] else [].

Definition speaking_events (st : LiveClient) : list Event :=
  if status_eqb (currentStatus st) speaking then [] else status_events speaking st.

Definition after_interrupted (st : LiveClient) : LiveClient :=
  set_currentOutputTranscription
    (set_voiceActivity
       (set_currentStatus (set_nextStartTime (set_sources st []) 0%Q)
          (status_after listening st))
       0 false)
    EmptyString.

Definition closeSession_events (env : TeardownEnv) (st : LiveClient) : list Event :=
  match sessionPromise st with
  | Some p =>
      if match p with
         | Fulfilled => true
         | Rejected => false
         | Pending _ => pending_fulfils env
         end
      then match p with
           | Pending reactions => map call_event reactions
           | _ => []
           end
           ++ SessionClose
              :: (if session_close_throws env then [Console ErrorClosingSession] else [])
      else []
  | None => []
  end.

Definition stopRecorder_events (env : TeardownEnv) (st : LiveClient) : list Event :=
  if recorder_active st then
    RecorderStop
    :: (if onAudioRecord st && Nat.ltb 0 (blob_size (assembled_recording env st))
        then [AudioRecord (assembled_recording env st)]
        else [])
  else [].

Definition after_stopRecorder (env : TeardownEnv) (st : LiveClient) : LiveClient :=
  set_audioChunks
    (set_mediaRecorder st
       (match mediaRecorder st with
        | Some r => Some (mkRecorder rec_inactive (rec_mimeType r))
        | None => None
        end))
    (if recorder_active st && Nat.ltb 0 (blob_size (final_data env))
     then audioChunks st ++ [final_data env]
     else audioChunks st).

Definition clearInterval_events (st : LiveClient) : list Event :=
  match outputVolumeInterval st with
  | Some timer => [ClearInterval timer]
  | None => []
  end.

Definition stopTracks_events (st : LiveClient) : list Event :=
  match stream st with
  | Some tracks => map TrackStop tracks
  | None => []
  end.

Definition inputNode_events (st : LiveClient) : list Event :=
  if inputNode st then [InputNodeDisconnect] else [].

Definition closeContext_events (which : WhichContext) (rejects : bool)
    (state : option ContextState) : list Event :=
  match state with
  | Some s =>
      if is_closed s then []
      else ContextClose which
           :: (if rejects then [Console (ErrorClosingContext which)] else [])
  | None => []
  end.

Definition teardown_events (env : TeardownEnv) (st : LiveClient) : list Event :=
  closeSession_events env st
  ++ stopRecorder_events env st
  ++ clearInterval_events st
  ++ stopTracks_events st
  ++ inputNode_events st
  ++ closeContext_events InputContext (input_close_rejects env) (inputAudioContext st)
  ++ closeContext_events OutputContext (output_close_rejects env) (outputAudioContext st)
  ++ map SourceStop (sources st)
  ++ (if onStatusChange st then [StatusChange idle] else []).

Definition after_disconnect (env : TeardownEnv) (st : LiveClient) : LiveClient :=
  set_currentStatus
    (set_sources
       (set_outputAudioContext
          (set_inputAudioContext
             (set_inputNode
                (set_stream
                   (set_outputVolumeInterval
                      (after_stopRecorder env (set_sessionPromise st None))
                      None)
                   None)
                false)
             None)
          None)
       [])
    idle.

(** The teardown that goes on after the call that closes the input
    context: its events, and the state it leaves. *)
Definition resumed_events (env : TeardownEnv) (st : LiveClient) : list Event :=
  (if input_close_rejects env then [Console (ErrorClosingContext InputContext)] else [])
  ++ closeContext_events OutputContext (output_close_rejects env) (outputAudioContext st)
  ++ map SourceStop (sources st)
  ++ (if onStatusChange st then [StatusChange idle] else []).

Definition after_resumed (st : LiveClient) : LiveClient :=
  set_currentStatus
    (set_sources
       (set_outputAudioContext
          (set_inputAudioContext (set_pendingTeardown st None) None)
          None)
       [])
    idle.

(** A client on which the application has registered its five callbacks,
    before any connection. *)
Definition observed_client : LiveClient :=
  mkLiveClient None None false false false [] 0%Q None None None idle 0 false
    None [] EmptyString EmptyString true true true true true 0%nat [] None.



(** A message whose payload is played by a client in state [st], and the
    duration of its chunk. *)
Definition plays (st : LiveClient) (p : LiveServerMessage * Q) : bool :=
  audio_present (fst p) st
  && match decoded_audio (fst p) with
     | inr _ => true
     | inl _ => false
     end.

Definition chunk_duration (m : LiveServerMessage) : Q :=
  match decoded_audio m with
  | inr audioBuffer => duration audioBuffer
  | inl _ => 0%Q
  end.

(** A suffix of the teardown: sorted by step, from step [k] on. *)
Definition from_step (k : nat) (l : list Event) : Prop :=
  StronglySorted le (map teardown_step l)
  /\ Forall (fun e => (k <= teardown_step e <= 8)%nat) l.

(** A failure that [connectWithRetry] retries. *)
Definition transient_failure (o : AttemptOutcome) : bool :=
  match o with
  | Failed message status => is_unavailable message status
  | Opened => false
  end.

Definition is_failure (o : AttemptOutcome) : bool :=
  match o with
  | Failed _ _ => true
  | Opened => false
  end.

(** The events of [k] retried attempts, from attempt [rank] on, with
    [retries] retries left at the first of them. *)
Definition retry_events (rank retries k : nat) : list Event :=
  flat_map
    (fun i => [ConnectAttempt (rank + i); Console (RetryingConnection (retries - i));
               Wait 1500])
    (seq 0 k).

(** The state in which [connect] asks for the microphone. *)
Definition connecting_state (env : ConnectEnv) (st : LiveClient) : LiveClient :=
  set_outputNodes
    (set_outputAudioContext
       (set_inputAudioContext
          (set_audioChunks
             (set_currentStatus (after_disconnect (teardown env) st) connecting) [])
          (Some ctx_running))
       (Some ctx_running))
    true.

Definition after_setupRecording (env : ConnectEnv) (st : LiveClient) : LiveClient :=
  set_mediaRecorder st
    (if recorder_constructor_throws env then mediaRecorder st
     else Some (mkRecorder
                  (if recorder_start_throws env then rec_inactive else rec_recording)
                  (chooseMimeType env))).

Definition setupRecording_events (env : ConnectEnv) : list Event :=
  if recorder_constructor_throws env || recorder_start_throws env
  then [Console RecorderFailedToStart]
  else [RecorderStart (chooseMimeType env)].

(** The state in which the first connection attempt is made. *)
Definition dialing_state (env : ConnectEnv) (st : LiveClient) (tracks : list nat)
  : LiveClient :=
  set_sessionPromise
    (after_setupRecording env (set_stream (connecting_state env st) (Some tracks)))
    (Some (Pending [])).

Definition connect_prefix (env : ConnectEnv) (st : LiveClient) : list Event :=
  teardown_events (teardown env) st
  ++ (if onStatusChange st then [StatusChange connecting] else [])
  ++ [GetUserMedia].

Definition failure_events (st : LiveClient) : list Event :=
  Console ConnectionFailedFully
  :: (if onStatusChange st then [StatusChange error] else []).

(** The state [onopen] leaves. *)
Definition after_onopen (env : ConnectEnv) (st : LiveClient) : LiveClient :=
  set_outputVolumeInterval
    (set_inputNode
       (set_currentStatus st (status_after listening st))
       (match inputAudioContext st, stream st, sessionPromise st with
        | Some _, Some _, Some _ => true
        | _, _, _ => inputNode st
        end))
    (Some (interval_handle env)).

Definition onopen_events (env : ConnectEnv) (st : LiveClient) : list Event :=
  status_events listening st
  ++ clearInterval_events st
  ++ [SetInterval (interval_handle env) 50].

(** The 16-bit value [createBlob] stores for a sample. *)
Definition pcm16 (x : number) : Z := ToInt16 (times_32768 x).

(* ================================================================== *)
(** ** Sample states and messages *)
(* ================================================================== *)

(** A client in the middle of a session: contexts running, microphone
    granted, recorder recording, session open, callbacks registered. *)
Definition connected_client : LiveClient :=
  mkLiveClient (Some ctx_running) (Some ctx_running) true true true [] 0%Q
    (Some [0%nat]) (Some Fulfilled) (Some 1%nat) listening 0 false
    (Some (mkRecorder rec_recording "audio/webm")) [] EmptyString EmptyString
    true true true true true 0%nat [] None.

(** A client whose session has failed. *)
Definition failed_client : LiveClient := set_currentStatus observed_client error.

Definition audio_message (b64 : string) : LiveServerMessage :=
  mkMessage None (Some (mkServerContent None None false (Some [mkPart (Some b64)]) false)).

Definition interruption_message : LiveServerMessage :=
  mkMessage None (Some (mkServerContent None None false None true)).

Definition input_fragment_message (text : string) : LiveServerMessage :=
  mkMessage None (Some (mkServerContent None (Some text) false None false)).

Definition output_fragment_message (text : string) : LiveServerMessage :=
  mkMessage None (Some (mkServerContent (Some text) None false None false)).

Definition turn_complete_message : LiveServerMessage :=
  mkMessage None (Some (mkServerContent None None true None false)).

Definition tool_call_message (calls : list FunctionCall) : LiveServerMessage :=
  mkMessage (Some calls) None.

(** A platform on which nothing fails during a teardown and the recorder
    delivers three octets on stopping. *)
Definition quiet_teardown : TeardownEnv :=
  mkTeardownEnv true false (mkBlob [x01; x02; x03] "audio/webm") false false.

(** A service that is unavailable for the first [n] attempts and then
    opens the session. *)
Definition unavailable_then_open (n : nat) : ConnectEnv :=
  mkConnectEnv quiet_teardown (Some [0%nat]) true (fun _ => true) false false 1%nat
    (fun k => if Nat.ltb k n then Failed (Some "service unavailable"%string) (Some 503)
              else Opened).

(** A service that is unavailable at every attempt. *)
Definition always_unavailable : ConnectEnv :=
  mkConnectEnv quiet_teardown (Some [0%nat]) true (fun _ => true) false false 1%nat
    (fun _ => Failed (Some "service unavailable"%string) (Some 503)).

(** A client that is playing two segments and has transcribed part of
    the answer of the model. *)
Definition speaking_client : LiveClient :=
  mkLiveClient (Some ctx_running) (Some ctx_running) true true true [0%nat; 1%nat]
    (5 # 1)%Q (Some [0%nat]) (Some Fulfilled) (Some 1%nat) speaking 1000 true
    (Some (mkRecorder rec_recording "audio/webm")) [] EmptyString "Hello"%string
    true true true true true 2%nat [] None.



Definition sample_fragments : list (LiveServerMessage * Q) :=
  [(input_fragment_message "Hel", 0%Q); (output_fragment_message "Hi ", 0%Q);
   (input_fragment_message "lo", 0%Q)].

Definition sample_tool_calls : LiveServerMessage :=
  tool_call_message
    [mkFunctionCall "call-1" "update_lead" [("phone", "0100000000")]%string;
     mkFunctionCall "call-2" "lookup" [];
     mkFunctionCall "call-3" "update_lead" [("name", "Nour")]%string].

(* ================================================================== *)
(** ** The capture pipeline and the volume meter *)
(* ================================================================== *)

(** The binary64 number that the literal [0.02] denotes; it is a little
    more than 1/50. *)
Definition speech_threshold : Q := binary64 (1 # 50).

(** The [onaudioprocess] listener installed by [startAudioInput].  [rms]
    is the binary64 number that [Math.sqrt(sum / inputData.length)]
    gives for the block, and [dateNow] the reading of [Date.now()].  The
    block is sent from a [then] on [sessionPromise]; the listener starts
    with no microtask queued, and the microtasks run when it returns. *)
Definition onaudioprocess (rms : Q) (dateNow : Z) (inputData : list number)
  : Run unit :=
  modify (fun st => set_microtasks st []) ;;
  st <- get ;;
  when (negb (status_eqb (currentStatus st) speaking) && onVolumeUpdate st)
    (emit (VolumeUpdate (binary64 (rms * 5)))) ;;
  (if negb (Qle_bool rms speech_threshold) then
     modify (fun st => set_voiceActivity st dateNow true) ;;
     when (negb (status_eqb (currentStatus st) listening)
           && negb (status_eqb (currentStatus st) speaking))
       (setStatus listening)
   else
     when (status_eqb (currentStatus st) listening && hasSpokenOnce st)
       (let timeSinceSpeech := dateNow - lastUserInteraction st in
        when ((800 <? timeSinceSpeech) && (timeSinceSpeech <? 3000))
          (setStatus processing))) ;;
  thenSession (RealtimeInput (createBlob inputData)) ;;
  runMicrotasks.

(** What a block does before it is sent: the call of the volume
    callback, the state after the voice-activity bookkeeping, and the
    status reports. *)
Definition volume_events (rms : Q) (st : LiveClient) : list Event :=
  if negb (status_eqb (currentStatus st) speaking) && onVolumeUpdate st
  then [VolumeUpdate (binary64 (rms * 5))]
  else [].

Definition after_voice (rms : Q) (dateNow : Z) (st : LiveClient) : LiveClient :=
  if negb (Qle_bool rms speech_threshold) then
    if negb (status_eqb (currentStatus st) listening)
       && negb (status_eqb (currentStatus st) speaking)
    then set_currentStatus (set_voiceActivity st dateNow true) (status_after listening st)
    else set_voiceActivity st dateNow true
  else
    if (status_eqb (currentStatus st) listening && hasSpokenOnce st)
       && ((800 <? dateNow - lastUserInteraction st)
           && (dateNow - lastUserInteraction st <? 3000))
    then set_currentStatus st (status_after processing st)
    else st.

Definition voice_events (rms : Q) (dateNow : Z) (st : LiveClient) : list Event :=
  if negb (Qle_bool rms speech_threshold) then
    if negb (status_eqb (currentStatus st) listening)
       && negb (status_eqb (currentStatus st) speaking)
    then status_events listening st
    else []
  else
    if (status_eqb (currentStatus st) listening && hasSpokenOnce st)
       && ((800 <? dateNow - lastUserInteraction st)
           && (dateNow - lastUserInteraction st <? 3000))
    then status_events processing st
    else [].

(** The blocks sent on the session. *)
Definition blocks_sent (tr : list Event) : list Blob16 :=
  flat_map (fun e => match e with SendRealtimeInput media => [media] | _ => [] end) tr.

(** The callback of the interval set by [startOutputVolumeMonitoring],
    on the content [dataArray] that [getByteFrequencyData] delivers: the
    value passed to [onVolumeUpdate], if any. *)
Definition volumeTick (dataArray : list Z) (st : LiveClient) : option Q :=
  if status_eqb (currentStatus st) speaking && outputAnalyser st && onVolumeUpdate st
  then Some (inject_Z (fold_left Z.add dataArray 0%Z)
             / inject_Z (Z.of_nat (List.length dataArray)) / 128)%Q
  else None.

(** What the controller reacts to during a session. *)
Inductive Stimulus : Type :=
| Inbound (message : LiveServerMessage) (currentTime : Q)
| Ended (source : nat)
| AudioBlock (rms : Q) (dateNow : Z) (inputData : list number).

Definition react (s : Stimulus) : Run unit :=
  match s with
  | Inbound message currentTime => handleMessage message currentTime
  | Ended source => sourceEnded source
  | AudioBlock rms dateNow inputData => onaudioprocess rms dateNow inputData
  end.

(** Stimuli are handled one after the other; a handler that throws does
    not stop the following ones. *)
Fixpoint reacts (stimuli : list Stimulus) (st : LiveClient) : LiveClient * list Event :=
  match stimuli with
  | [] => (st, [])
  | s :: rest =>
      let r := react s st in
      let (st', t) := reacts rest (final r) in
      (st', trace r ++ t)
  end.

(** The status the application displays: the argument of the last call
    of the status callback, [shown] when there was none. *)
Definition displayed_status (shown : AgentStatus) (tr : list Event) : AgentStatus :=
  fold_left (fun s e => match e with StatusChange s' => s' | _ => s end) tr shown.

(** [toggleLiveSession] of the application: with a displayed status
    other than [idle] and [error] the session is torn down, otherwise a
    connection is made. *)
Definition toggleLiveSession (agentStatus : AgentStatus) (env : ConnectEnv) : Run unit :=
  if negb (status_eqb agentStatus idle) && negb (status_eqb agentStatus error)
  then disconnect (teardown env)
  else connect env ;; ret tt.

(** The state of a client whose resources are all released. *)
Definition released (st : LiveClient) : Prop :=
  sessionPromise st = None
  /\ recorder_active st = false
  /\ outputVolumeInterval st = None
  /\ stream st = None
  /\ inputNode st = false
  /\ inputAudioContext st = None
  /\ outputAudioContext st = None
  /\ sources st = [].

(** The samples of all channels of a buffer, frame by frame. *)
Fixpoint interleave (chans : list (list number)) (frameCount : nat) (i : nat)
  : list number :=
  match frameCount with
  | O => []
  | S n => map (fun ch => nth i ch NaN) chans ++ interleave chans n (S i)
  end.

(** The arguments of the calls of the status callback. *)
Definition status_changes (tr : list Event) : list AgentStatus :=
  flat_map (fun e => match e with StatusChange s => [s] | _ => [] end) tr.

(** The [onerror] and [onclose] callbacks of the session, without their
    logging.  The teardown that [onerror] starts is not awaited; this is
    the run in which nothing comes in between. *)
Definition onerror (env : TeardownEnv) : Run unit :=
  setStatus error ;;
  disconnect env.

Definition onclose : Run unit := setStatus idle.

(** What a client remembers of a session besides its resources: the
    playback cursor, the voice activity and the transcripts not yet
    delivered. *)
Definition memory (st : LiveClient) : Q * Z * bool * string * string :=
  (nextStartTime st, lastUserInteraction st, hasSpokenOnce st,
   currentInputTranscription st, currentOutputTranscription st).

(* ================================================================== *)
(** ** More sample states, messages and platforms *)
(* ================================================================== *)

(** Two stereo frames and the buffer they decode to. *)
Definition stereo_pairs : list (byte * byte) :=
  [(x01, x00); (x02, x00); (x03, x00); (x04, x00)].

Definition stereo_buffer : AudioBuffer :=
  {| numberOfChannels := 2; frames := 2; sampleRate := 24000;
     channels := [[Finite (1 # 32768); Finite (3 # 32768)];
                  [Finite (2 # 32768); Finite (4 # 32768)]] |}.

(** A client whose session has failed while two segments were playing. *)
Definition failed_session : LiveClient := set_currentStatus speaking_client error.

(** A chunk, an interruption, the end of a segment and a loud block. *)
Definition sample_stimuli : list Stimulus :=
  [Inbound (audio_message "AAAAAAAA") 0%Q; Inbound interruption_message 0%Q;
   Ended 0%nat; AudioBlock (1 # 2)%Q 5000 [Finite (1 # 2)]].

(** A chunk of a single octet, in a message that also interrupts. *)
Definition odd_chunk_message : LiveServerMessage :=
  mkMessage None (Some (mkServerContent None None false (Some [mkPart (Some "AA=="%string)]) true)).

(** A platform on which the microphone is refused. *)
Definition refused_microphone : ConnectEnv :=
  mkConnectEnv quiet_teardown None true (fun _ => true) false false 1%nat
    (fun _ => Opened).

(* ================================================================== *)
(** ** Proofs: the wire codec *)
(* ================================================================== *)

Ltac euclid := zify; Z.to_euclidean_division_equations; lia.

Section Base64Facts.
Import Base64.
Local Open Scope N_scope.

Lemma list_ind3 (A : Type) (P : list A -> Prop) :
  P [] -> (forall a, P [a]) -> (forall a b, P [a; b]) ->
  (forall a b c r, P r -> P (a :: b :: c :: r)) ->
  forall l, P l.
Proof.
  intros H0 H1 H2 H3.
  fix IH 1.
  intros [|a [|b [|c r]]];
    [apply H0 | apply H1 | apply H2 | apply H3, IH].
Qed.

Lemma sextet_round_trip n : n < 64 -> char_sextet (sextet_char n) = Some n.
Proof.
  intros Hn.
  assert (Hall : forallb (fun k => match char_sextet (sextet_char k) with
                                   | Some k' => k' =? k
                                   | None => false
                                   end)
                         (map N.of_nat (seq 0 64)) = true) by (vm_compute; reflexivity).
  rewrite forallb_forall in Hall.
  specialize (Hall n).
  assert (Hin : In n (map N.of_nat (seq 0 64))).
  { apply in_map_iff. exists (N.to_nat n). split; [lia|].
    apply in_seq. lia. }
  apply Hall in Hin.
  destruct (char_sextet (sextet_char n)) as [k'|]; [|discriminate].
  apply N.eqb_eq in Hin. now subst.
Qed.

Lemma char_sextet_plain c n :
  char_sextet c = Some n ->
  is_ascii_whitespace c = false /\ Ascii.eqb c pad_char = false.
Proof.
  unfold char_sextet, is_ascii_whitespace.
  intros H. split.
  - destruct (N_of_ascii c =? 9) eqn:E1; [apply N.eqb_eq in E1; rewrite E1 in H; discriminate|].
    destruct (N_of_ascii c =? 10) eqn:E2; [apply N.eqb_eq in E2; rewrite E2 in H; discriminate|].
    destruct (N_of_ascii c =? 12) eqn:E3; [apply N.eqb_eq in E3; rewrite E3 in H; discriminate|].
    destruct (N_of_ascii c =? 13) eqn:E4; [apply N.eqb_eq in E4; rewrite E4 in H; discriminate|].
    destruct (N_of_ascii c =? 32) eqn:E5; [apply N.eqb_eq in E5; rewrite E5 in H; discriminate|].
    reflexivity.
  - apply Ascii.eqb_neq. intros ->. discriminate.
Qed.

Lemma group_bounds a b c :
  a < 256 -> b < 256 -> c < 256 ->
  a / 4 < 64 /\ (a mod 4) * 16 + b / 16 < 64 /\
  (b mod 16) * 4 + c / 64 < 64 /\ c mod 64 < 64 /\
  (a mod 4) * 16 < 64 /\ (b mod 16) * 4 < 64.
Proof. intros. repeat split; euclid. Qed.

Lemma group_round_trip a b c :
  a < 256 -> b < 256 -> c < 256 ->
  (a / 4) * 4 + ((a mod 4) * 16 + b / 16) / 16 = a /\
  (((a mod 4) * 16 + b / 16) mod 16) * 16 + ((b mod 16) * 4 + c / 64) / 4 = b /\
  (((b mod 16) * 4 + c / 64) mod 4) * 64 + c mod 64 = c.
Proof. intros. repeat split; euclid. Qed.

Lemma tail_round_trip a b :
  a < 256 -> b < 256 ->
  (a / 4) * 4 + ((a mod 4) * 16) / 16 = a /\
  (((a mod 4) * 16 + b / 16) mod 16) * 16 + ((b mod 16) * 4) / 4 = b.
Proof. intros. repeat split; euclid. Qed.

Lemma sextets_encode_groups bs :
  Forall (fun b => b < 256) bs ->
  exists ss, sextets (encode_groups bs) = Some ss /\ decode_groups ss = bs.
Proof.
  induction bs as [| a | a b | a b c r IH] using list_ind3; intros Hb.
  - exists []. split; reflexivity.
  - inversion Hb as [|? ? Ha _]; subst.
    destruct (group_bounds a 0 0 Ha) as (B1 & _ & _ & _ & B5 & _); try lia.
    destruct (tail_round_trip a 0 Ha) as (R1 & _); try lia.
    eexists. cbn [encode_groups sextets].
    rewrite !sextet_round_trip by assumption.
    split; [reflexivity|]. cbn [decode_groups]. now rewrite R1.
  - inversion Hb as [|? ? Ha Hb']; subst. inversion Hb' as [|? ? Hb2 _]; subst.
    destruct (group_bounds a b 0 Ha Hb2) as (B1 & B2 & _ & _ & _ & B6); try lia.
    destruct (tail_round_trip a b Ha Hb2) as (R1 & R2).
    destruct (group_round_trip a b 0 Ha Hb2) as (R1' & _); try lia.
    eexists. cbn [encode_groups sextets].
    rewrite !sextet_round_trip by assumption.
    split; [reflexivity|]. cbn [decode_groups]. now rewrite R1', R2.
  - inversion Hb as [|? ? Ha Hb']; subst. inversion Hb' as [|? ? Hb2 Hb'']; subst.
    inversion Hb'' as [|? ? Hc Hr]; subst.
    destruct (IH Hr) as (ss & Hss & Hdec).
    destruct (group_bounds a b c Ha Hb2 Hc) as (B1 & B2 & B3 & B4 & _).
    destruct (group_round_trip a b c Ha Hb2 Hc) as (R1 & R2 & R3).
    eexists. cbn [encode_groups sextets].
    rewrite !sextet_round_trip by assumption. rewrite Hss.
    split; [reflexivity|]. cbn [decode_groups]. now rewrite R1, R2, R3, Hdec.
Qed.

Lemma encode_groups_plain bs :
  Forall (fun b => b < 256) bs ->
  Forall (fun c => is_ascii_whitespace c = false /\ Ascii.eqb c pad_char = false)
         (encode_groups bs).
Proof.
  intros Hb. destruct (sextets_encode_groups bs Hb) as (ss & Hss & _).
  clear Hb. revert ss Hss.
  induction (encode_groups bs) as [|c r IH]; intros ss Hss; constructor.
  - cbn in Hss. destruct (char_sextet c) eqn:E; [|discriminate].
    eapply char_sextet_plain; eassumption.
  - cbn in Hss. destruct (char_sextet c); [|discriminate].
    destruct (sextets r) as [ns|]; [|discriminate]. eapply IH. reflexivity.
Qed.

(** Lengths: the residue of the number of octets modulo three fixes the
    residue of the number of groups modulo four. *)
Lemma encode_groups_length bs :
  match Nat.modulo (List.length bs) 3 with
  | 0%nat => Nat.modulo (List.length (encode_groups bs)) 4 = 0%nat
  | 1%nat => Nat.modulo (List.length (encode_groups bs)) 4 = 2%nat
  | _ => Nat.modulo (List.length (encode_groups bs)) 4 = 3%nat
  end.
Proof.
  induction bs as [| a | a b | a b c r IH] using list_ind3; try reflexivity.
  replace (List.length (a :: b :: c :: r)) with (List.length r + 1 * 3)%nat
    by (cbn [List.length]; lia).
  rewrite Nat.Div0.mod_add.
  cbn [encode_groups].
  replace (List.length (_ :: _ :: _ :: _ :: encode_groups r))
    with (List.length (encode_groups r) + 1 * 4)%nat
    by (cbn [List.length]; lia).
  rewrite Nat.Div0.mod_add. exact IH.
Qed.

Lemma strip_padding_btoa bs :
  Forall (fun b => b < 256) bs ->
  strip_padding (encode_groups bs ++ padding (List.length bs)) = encode_groups bs.
Proof.
  intros Hb.
  pose proof (encode_groups_plain bs Hb) as Hplain.
  pose proof (encode_groups_length bs) as Hlen.
  unfold strip_padding, padding.
  rewrite length_app, rev_app_distr.
  assert (Hlast : forall c r, rev (encode_groups bs) = c :: r ->
                              Ascii.eqb c pad_char = false).
  { intros c r Hr. rewrite Forall_forall in Hplain.
    apply (Hplain c). apply in_rev. rewrite Hr. now left. }
  pose proof (Nat.mod_upper_bound (List.length bs) 3 ltac:(lia)) as Hm.
  destruct (Nat.modulo (List.length bs) 3) as [|[|[|k]]]; [| | |lia].
  - cbn [List.length rev app]. rewrite Nat.add_0_r, Hlen, app_nil_r. cbn [Nat.eqb].
    destruct (rev (encode_groups bs)) as [|c1 [|c2 r]] eqn:Hr; try reflexivity;
      rewrite (Hlast _ _ eq_refl); reflexivity.
  - cbn [List.length rev app].
    rewrite <- Nat.Div0.add_mod_idemp_l, Hlen.
    change (Nat.eqb (Nat.modulo (2 + 2) 4) 0) with true. cbv iota.
    rewrite Ascii.eqb_refl. apply rev_involutive.
  - cbn [List.length rev app].
    rewrite <- Nat.Div0.add_mod_idemp_l, Hlen.
    change (Nat.eqb (Nat.modulo (3 + 1) 4) 0) with true. cbv iota.
    destruct (rev (encode_groups bs)) as [|c2 r] eqn:Hr.
    + apply (f_equal (@List.length _)) in Hr. rewrite length_rev in Hr.
      rewrite Hr in Hlen. discriminate.
    + rewrite Ascii.eqb_refl, (Hlast _ _ eq_refl).
      change (rev (c2 :: r) = encode_groups bs).
      rewrite <- Hr. apply rev_involutive.
Qed.

Lemma btoa_length_not_1 bs :
  Nat.eqb (Nat.modulo (List.length (encode_groups bs)) 4) 1 = false.
Proof.
  pose proof (encode_groups_length bs) as Hlen.
  destruct (Nat.modulo (List.length bs) 3) as [|[|k]]; now rewrite Hlen.
Qed.

Lemma filter_plain (l : list ascii) :
  Forall (fun c => is_ascii_whitespace c = false) l ->
  filter (fun c => negb (is_ascii_whitespace c)) l = l.
Proof.
  induction 1 as [|c r Hc _ IH]; [reflexivity|].
  cbn [filter]. now rewrite Hc, IH.
Qed.

Lemma atob_btoa s : atob (btoa s) = Some s.
Proof.
  unfold atob, btoa.
  set (bs := map N_of_ascii (list_ascii_of_string s)).
  assert (Hb : Forall (fun b => b < 256) bs).
  { apply Forall_forall. intros b Hin. apply in_map_iff in Hin.
    destruct Hin as (c & <- & _). apply N_ascii_bounded. }
  rewrite list_ascii_of_string_of_list_ascii.
  rewrite filter_plain.
  2:{ apply Forall_app. split.
      - eapply Forall_impl; [|apply (encode_groups_plain bs Hb)]. now intros c [H _].
      - unfold padding. destruct (Nat.modulo (List.length bs) 3) as [|[|[|k]]];
          repeat constructor. }
  rewrite (strip_padding_btoa bs Hb), btoa_length_not_1.
  destruct (sextets_encode_groups bs Hb) as (ss & -> & ->).
  unfold bs. rewrite map_map.
  rewrite (map_ext _ (fun c => c)) by apply ascii_N_embedding.
  rewrite map_id. now rewrite string_of_list_ascii_of_string.
Qed.
End Base64Facts.

Section CodecFacts.

Lemma append_empty_r (s : string) : (s ++ EmptyString)%string = s.
Proof. induction s as [|c s IH]; cbn; [reflexivity | now f_equal]. Qed.

Lemma append_associative (s t u : string) :
  ((s ++ t) ++ u)%string = (s ++ (t ++ u))%string.
Proof. induction s as [|c s IH]; cbn; [reflexivity | now f_equal]. Qed.

Lemma encode_binary bytes acc :
  fold_left (fun acc b => (acc ++ String (fromCharCode b) EmptyString)%string)
            bytes acc
  = (acc ++ string_of_list_ascii (map fromCharCode bytes))%string.
Proof.
  revert acc. induction bytes as [|b r IH]; intros acc;
    cbn [fold_left map string_of_list_ascii].
  - now rewrite append_empty_r.
  - rewrite IH, append_associative. reflexivity.
Qed.

Lemma decode_encode bytes : decode (encode bytes) = Some bytes.
Proof.
  unfold decode, encode. rewrite encode_binary. cbn [String.append].
  rewrite atob_btoa, list_ascii_of_string_of_list_ascii, map_map.
  unfold charCodeAt, fromCharCode.
  rewrite (map_ext _ (fun b => b)) by apply byte_of_ascii_of_byte.
  now rewrite map_id.
Qed.

Lemma int16_of_Z_range n : -32768 <= int16_of_Z n <= 32767.
Proof.
  unfold int16_of_Z. pose proof (Z.mod_pos_bound n 65536 ltac:(lia)).
  destruct (32768 <=? n mod 65536) eqn:E; lia.
Qed.

Lemma int16_of_Z_wrap n : int16_of_Z n = (n + 32768) mod 65536 - 32768.
Proof.
  unfold int16_of_Z.
  destruct (32768 <=? n mod 65536) eqn:E;
    Z.to_euclidean_division_equations; lia.
Qed.

Lemma int16_of_Z_id v : -32768 <= v <= 32767 -> int16_of_Z v = v.
Proof.
  intros Hv. rewrite int16_of_Z_wrap. Z.to_euclidean_division_equations; lia.
Qed.

Lemma Z_of_byte_of_Z n : Z_of_byte (byte_of_Z n) = n mod 256.
Proof.
  unfold Z_of_byte, byte_of_Z.
  pose proof (Z.mod_pos_bound n 256 ltac:(lia)) as Hn.
  pose proof (Byte.to_of_N_option_map (Z.to_N (n mod 256))) as H.
  destruct (Byte.of_N (Z.to_N (n mod 256))) as [b|] eqn:E; cbn [option_map] in H.
  - destruct (Z.to_N (n mod 256) <=? 255)%N; [|discriminate].
    injection H as ->. lia.
  - destruct (Z.to_N (n mod 256) <=? 255)%N eqn:E'; [discriminate|].
    apply N.leb_gt in E'. lia.
Qed.

Lemma int16_of_bytes_of_int16 v :
  -32768 <= v <= 32767 ->
  int16_of_bytes (byte_of_Z v) (byte_of_Z (v / 256)) = v.
Proof.
  intros Hv. unfold int16_of_bytes. rewrite !Z_of_byte_of_Z, int16_of_Z_wrap.
  Z.to_euclidean_division_equations; lia.
Qed.

Lemma Int16Array_of_Uint8Array_of_Int16Array vs :
  Forall (fun v => -32768 <= v <= 32767) vs ->
  Int16Array_of_Uint8Array (Uint8Array_of_Int16Array vs) = Some vs.
Proof.
  induction 1 as [|v r Hv _ IH]; [reflexivity|].
  cbn [Uint8Array_of_Int16Array flat_map bytes_of_int16 app Int16Array_of_Uint8Array].
  fold (Uint8Array_of_Int16Array r). now rewrite IH, int16_of_bytes_of_int16.
Qed.

Lemma Int16Array_of_pairs (pairs : list (byte * byte)) :
  Int16Array_of_Uint8Array (flat_map (fun p => [fst p; snd p]) pairs)
  = Some (map (fun p => int16_of_bytes (fst p) (snd p)) pairs).
Proof.
  induction pairs as [|[lo hi] r IH]; [reflexivity|].
  cbn [flat_map app Int16Array_of_Uint8Array map fst snd]. now rewrite IH.
Qed.

Lemma map_nth_seq {A B} (f : A -> B) (l : list A) (d : A) :
  map (fun i => f (nth i l d)) (seq 0 (List.length l)) = map f l.
Proof.
  induction l as [|a r IH]; [reflexivity|].
  cbn [List.length seq map nth]. f_equal.
  rewrite <- seq_shift, map_map. exact IH.
Qed.

Lemma channel_samples_mono dataInt16 :
  channel_samples dataInt16 1 (List.length dataInt16) 0 = map over_32768 dataInt16.
Proof.
  unfold channel_samples. rewrite <- (map_nth_seq over_32768 dataInt16 0).
  apply map_ext. intros i. now rewrite Nat.mul_1_r, Nat.add_0_r.
Qed.

Lemma decodeAudioData_mono_int16 bytes vs rate :
  Int16Array_of_Uint8Array bytes = Some vs ->
  decodeAudioData bytes rate 1
  = match vs with
    | [] => inl NotSupportedError
    | _ :: _ =>
        inr {| numberOfChannels := 1;
               frames := List.length vs;
               sampleRate := rate;
               channels := [map over_32768 vs] |}
    end.
Proof.
  intros H. unfold decodeAudioData. rewrite H, Nat.div_1_r.
  destruct vs as [|v r]; [reflexivity|].
  change (Nat.eqb 1 0 || Nat.eqb (List.length (v :: r)) 0) with false.
  cbv iota. cbn [seq map]. now rewrite channel_samples_mono.
Qed.

Lemma decodeAudioData_mono (pairs : list (byte * byte)) rate :
  decodeAudioData (flat_map (fun p => [fst p; snd p]) pairs) rate 1
  = match pairs with
    | [] => inl NotSupportedError
    | _ :: _ =>
        inr {| numberOfChannels := 1;
               frames := List.length pairs;
               sampleRate := rate;
               channels :=
                 [map (fun p => Finite (int16_of_bytes (fst p) (snd p) # 32768)) pairs] |}
    end.
Proof.
  rewrite (decodeAudioData_mono_int16 _ _ rate (Int16Array_of_pairs pairs)).
  destruct pairs as [|p r]; [reflexivity|].
  rewrite length_map, map_map. reflexivity.
Qed.

End CodecFacts.

Lemma ToInt16_range x : -32768 <= ToInt16 x <= 32767.
Proof. destruct x; cbn [ToInt16]; [apply int16_of_Z_range | lia | lia]. Qed.

Lemma createBlob_bytes samples :
  decode (data (createBlob samples))
  = Some (flat_map (fun x => [byte_of_Z (pcm16 x); byte_of_Z (pcm16 x / 256)]) samples).
Proof.
  unfold createBlob. cbn [data]. rewrite decode_encode. f_equal.
  unfold Uint8Array_of_Int16Array. rewrite flat_map_concat_map, map_map.
  now rewrite <- flat_map_concat_map.
Qed.

Lemma over_32768_quotient v : (v # 32768 == inject_Z v / 32768)%Q.
Proof. unfold Qeq, Qdiv, Qmult, Qinv, inject_Z. cbn. lia. Qed.

Lemma Qtruncate_nonneg q :
  (0 <= q)%Q -> (inject_Z (Qtruncate q) <= q)%Q /\ (q < inject_Z (Qtruncate q) + 1)%Q.
Proof.
  destruct q as [n d]. unfold Qle, Qlt, Qtruncate, inject_Z, Qplus. cbn.
  intros Hn. rewrite Z.quot_div_nonneg by lia.
  split; Z.to_euclidean_division_equations; nia.
Qed.

Lemma Qtruncate_nonpos q :
  (q <= 0)%Q -> (q <= inject_Z (Qtruncate q))%Q /\ (inject_Z (Qtruncate q) - 1 < q)%Q.
Proof.
  destruct q as [n d]. unfold Qle, Qlt, Qtruncate, inject_Z, Qminus, Qplus, Qopp. cbn.
  intros Hn. split; Z.to_euclidean_division_equations; nia.
Qed.

(** C9 (wire codec).  Decoding the base64 framing of any byte sequence
    gives the sequence back.  [createBlob] labels its block
    [audio/pcm;rate=16000] and frames, for every sample, the 16-bit
    conversion of the sample times 32768, low octet first: decoding the
    block and viewing it as 16-bit integers gives those integers back.
    [decodeAudioData] on one channel turns each pair of octets, read as a
    signed 16-bit integer in [-32768, 32767], into that integer divided
    by 32768, one frame per pair, and raises NotSupportedError on an
    empty payload. *)
Theorem wire_codec_round_trip :
  (forall bytes : list byte, decode (encode bytes) = Some bytes)
  /\ (forall samples : list number,
        mimeType (createBlob samples) = "audio/pcm;rate=16000"%string
        /\ decode (data (createBlob samples))
           = Some (flat_map (fun x => [byte_of_Z (ToInt16 (times_32768 x));
                                       byte_of_Z (ToInt16 (times_32768 x) / 256)])
                            samples)
        /\ (exists bytes,
              decode (data (createBlob samples)) = Some bytes
              /\ Int16Array_of_Uint8Array bytes
                 = Some (map (fun x => ToInt16 (times_32768 x)) samples)))
  /\ (forall v : Z,
        Z_of_byte (byte_of_Z v) = v mod 256
        /\ Z_of_byte (byte_of_Z (v / 256)) = (v / 256) mod 256)
  /\ (forall (pairs : list (byte * byte)) (rate : positive),
        decodeAudioData (flat_map (fun p => [fst p; snd p]) pairs) rate 1
        = match pairs with
          | [] => inl NotSupportedError
          | _ :: _ =>
              inr {| numberOfChannels := 1;
                     frames := List.length pairs;
                     sampleRate := rate;
                     channels :=
                       [map (fun p => Finite (int16_of_bytes (fst p) (snd p) # 32768))
                            pairs] |}
          end)
  /\ (forall lo hi : byte,
        -32768 <= int16_of_bytes lo hi <= 32767
        /\ (int16_of_bytes lo hi - (Z_of_byte lo + 256 * Z_of_byte hi)) mod 65536 = 0
        /\ (int16_of_bytes lo hi # 32768 == inject_Z (int16_of_bytes lo hi) / 32768)%Q).
Proof.
  split; [exact decode_encode|].
  split.
  { intros samples. split; [reflexivity|]. split; [apply createBlob_bytes|].
    eexists. split; [apply createBlob_bytes|].
    change (flat_map _ samples)
      with (flat_map (fun x => bytes_of_int16 (pcm16 x)) samples).
    rewrite flat_map_concat_map, <- (map_map pcm16 bytes_of_int16), <- flat_map_concat_map.
    apply Int16Array_of_Uint8Array_of_Int16Array.
    apply Forall_forall. intros v Hin. apply in_map_iff in Hin.
    destruct Hin as (x & <- & _). apply ToInt16_range. }
  split; [intros v; split; apply Z_of_byte_of_Z|].
  split; [exact decodeAudioData_mono|].
  intros lo hi. split; [apply int16_of_Z_range|]. split.
  - unfold int16_of_bytes. rewrite int16_of_Z_wrap.
    Z.to_euclidean_division_equations; lia.
  - apply over_32768_quotient.
Qed.

(** C10 (the capture conversion wraps).  For every finite sample [q] the
    16-bit value stored by [createBlob] is the truncation of [q * 32768]
    reduced modulo 2^16 into the signed range: it differs from the
    truncation by a multiple of 65536 and is not clamped.  A sample of
    exactly 1 is stored as -32768 (octets 00 80), 3/2 as -16384, -3/2 as
    16384 and 2 as 0; NaN and the infinities are stored as 0. *)
Theorem capture_conversion_wraps :
  (forall q : Q,
     let n := Qtruncate (q * 32768) in
     let v := ToInt16 (times_32768 (Finite q)) in
     v = (n + 32768) mod 65536 - 32768
     /\ -32768 <= v <= 32767
     /\ v = n - 65536 * ((n + 32768) / 65536)
     /\ decode (data (createBlob [Finite q])) = Some [byte_of_Z v; byte_of_Z (v / 256)])
  /\ ToInt16 (times_32768 (Finite 1)) = -32768
  /\ data (createBlob [Finite 1]) = "AIA="%string
  /\ ToInt16 (times_32768 (Finite (32767 # 32768))) = 32767
  /\ ToInt16 (times_32768 (Finite (3 # 2))) = -16384
  /\ ToInt16 (times_32768 (Finite (- (3 # 2)))) = 16384
  /\ ToInt16 (times_32768 (Finite 2)) = 0
  /\ ToInt16 (times_32768 NaN) = 0
  /\ (forall s, ToInt16 (times_32768 (Infinity s)) = 0).
Proof.
  split.
  { intros q n v. subst n v. cbn [times_32768 ToInt16].
    split; [apply int16_of_Z_wrap|]. split; [apply int16_of_Z_range|].
    split.
    - rewrite int16_of_Z_wrap. Z.to_euclidean_division_equations; lia.
    - rewrite createBlob_bytes. cbn [flat_map app]. reflexivity. }
  repeat split; reflexivity.
Qed.

(* ================================================================== *)
(** ** Proofs: binary64 rounding *)
(* ================================================================== *)

(** The decimal 0.1, and the sum of 0.1 and 0.2: 0.30000000000000004. *)
Example binary64_tenth :
  binary64 (1 # 10) = (3602879701896397 # 36028797018963968)%Q.
Proof. vm_compute. reflexivity. Qed.

Example binary64_sum :
  binary64 (binary64 (1 # 10) + binary64 (2 # 10))
  = (1351079888211149 # 4503599627370496)%Q.
Proof. vm_compute. reflexivity. Qed.

(** A binary64 number is its own rounding. *)
Example binary64_fixed :
  binary64 (binary64 (1 # 50)) = binary64 (1 # 50).
Proof. vm_compute. reflexivity. Qed.

Lemma round_half_even_near (x : Q) :
  (inject_Z (round_half_even x) - (1 # 2) <= x
   /\ x <= inject_Z (round_half_even x) + (1 # 2))%Q.
Proof.
  unfold round_half_even.
  pose proof (Qfloor_le x) as Hlo. pose proof (Qlt_floor x) as Hhi.
  rewrite inject_Z_plus in Hhi. change (inject_Z 1) with 1%Q in Hhi.
  destruct (x - inject_Z (Qfloor x) ?= 1 # 2)%Q eqn:E.
  - apply Qeq_alt in E.
    destruct (Z.even (Qfloor x)); rewrite ?inject_Z_plus;
      change (inject_Z 1) with 1%Q; split; lra.
  - apply Qlt_alt in E. split; lra.
  - apply Qgt_alt in E. rewrite inject_Z_plus. change (inject_Z 1) with 1%Q.
    split; lra.
Qed.

Lemma ulp64_pos (x : Q) : (0 < ulp64 x)%Q.
Proof. unfold ulp64. apply Qpower_0_lt. reflexivity. Qed.

(** The rounding error is at most half a unit in the last place. *)
Lemma binary64_error (x : Q) :
  (x - (1 # 2) * ulp64 x <= binary64 x /\ binary64 x <= x + (1 # 2) * ulp64 x)%Q.
Proof.
  pose proof (ulp64_pos x) as Hu. unfold binary64.
  destruct (x ?= 0)%Q eqn:E.
  - apply Qeq_alt in E. split; lra.
  - apply Qlt_alt in E. rewrite Qred_correct.
    destruct (round_half_even_near (- x / ulp64 x)) as [H1 H2].
    set (m := inject_Z (round_half_even (- x / ulp64 x))) in *.
    assert (Hx : (- x == (- x / ulp64 x) * ulp64 x)%Q) by (field; lra).
    split.
    + assert ((m - (1 # 2)) * ulp64 x <= (- x / ulp64 x) * ulp64 x)%Q
        by (apply Qmult_le_compat_r; lra).
      lra.
    + assert ((- x / ulp64 x) * ulp64 x <= (m + (1 # 2)) * ulp64 x)%Q
        by (apply Qmult_le_compat_r; lra).
      lra.
  - apply Qgt_alt in E. rewrite Qred_correct.
    destruct (round_half_even_near (x / ulp64 x)) as [H1 H2].
    set (m := inject_Z (round_half_even (x / ulp64 x))) in *.
    assert (Hx : (x == (x / ulp64 x) * ulp64 x)%Q) by (field; lra).
    split.
    + assert ((x / ulp64 x) * ulp64 x <= (m + (1 # 2)) * ulp64 x)%Q
        by (apply Qmult_le_compat_r; lra).
      lra.
    + assert ((m - (1 # 2)) * ulp64 x <= (x / ulp64 x) * ulp64 x)%Q
        by (apply Qmult_le_compat_r; lra).
      lra.
Qed.

Lemma Qlog2_spec (x : Q) : (0 < x)%Q -> (2 ^ Qlog2 x <= x)%Q.
Proof.
  intros Hx. unfold Qlog2.
  destruct (Qle_bool (2 ^ (Z.log2 (Qnum x) - Z.log2 (Z.pos (Qden x)))) x) eqn:E;
    [now apply Qle_bool_iff in E|]. clear E.
  destruct x as [n d]. cbn [Qnum Qden].
  assert (Hn : 0 < n) by (unfold Qlt in Hx; cbn in Hx; lia).
  destruct (Z.log2_spec n Hn) as [Hn1 _].
  destruct (Z.log2_spec (Z.pos d) (Pos2Z.is_pos d)) as [_ Hd2].
  pose proof (Z.log2_nonneg n) as Ha. pose proof (Z.log2_nonneg (Z.pos d)) as Hb.
  set (a := Z.log2 n) in *. set (b := Z.log2 (Z.pos d)) in *.
  replace (a - b - 1) with (a - (b + 1)) by lia.
  rewrite Qpower_minus by discriminate.
  change 2%Q with (inject_Z 2). rewrite <- !Zpower_Qpower by lia.
  rewrite (Qmake_Qdiv n d).
  assert (H1 : (inject_Z (2 ^ a) <= inject_Z n)%Q) by (rewrite <- Zle_Qle; lia).
  assert (H2 : (inject_Z (Z.pos d) <= inject_Z (2 ^ (b + 1)))%Q)
    by (rewrite <- Zle_Qle; lia).
  assert (H3 : (0 < inject_Z (Z.pos d))%Q) by reflexivity.
  assert (H4 : (0 < inject_Z (2 ^ a))%Q)
    by (change 0%Q with (inject_Z 0); rewrite <- Zlt_Qlt; apply Z.pow_pos_nonneg; lia).
  apply Qle_shift_div_l; [lra|].
  apply Qle_trans with (inject_Z (2 ^ a) / inject_Z (2 ^ (b + 1)) * inject_Z (2 ^ (b + 1)))%Q.
  - apply Qmult_le_l.
    + apply Qlt_shift_div_l; [lra|]. lra.
    + exact H2.
  - setoid_replace (inject_Z (2 ^ a) / inject_Z (2 ^ (b + 1)) * inject_Z (2 ^ (b + 1)))%Q
      with (inject_Z (2 ^ a)) by (field; lra).
    exact H1.
Qed.

Lemma Qabs_positive (x : Q) : (0 < x)%Q -> Qabs x = x.
Proof.
  destruct x as [n d]. unfold Qlt. cbn. intros H.
  rewrite Z.abs_eq by lia. reflexivity.
Qed.

(** In the normal range the unit in the last place is at most
    [2 ^ -52] times the value; below it is [2 ^ -1074]. *)
Lemma ulp64_bound (x : Q) :
  (0 < x)%Q ->
  (ulp64 x <= x * 2 ^ (-52))%Q \/ ulp64 x = (2 ^ (-1074))%Q.
Proof.
  intros Hx. unfold ulp64. rewrite (Qabs_positive x Hx).
  destruct (Z.max_spec (Qlog2 x) (-1022)) as [[_ ->]|[_ ->]]; [right; reflexivity|].
  left. replace (Qlog2 x - 52) with (Qlog2 x + -52) by lia.
  rewrite Qpower_plus by discriminate.
  apply Qmult_le_compat_r; [now apply Qlog2_spec | discriminate].
Qed.

Lemma binary64_pos (x : Q) : (1 # 96000 <= x)%Q -> (0 < binary64 x)%Q.
Proof.
  intros Hx. destruct (binary64_error x) as [H _].
  assert (H0 : (0 < x)%Q) by lra.
  destruct (ulp64_bound x H0) as [Hb|Hb].
  - assert (Hc : (x * 2 ^ (-52) <= x * (1 # 2))%Q)
      by (apply Qmult_le_l; [exact H0 | discriminate]).
    lra.
  - rewrite Hb in H.
    assert (Hc : (2 ^ (-1074) <= 1 # 96000)%Q) by (vm_compute; discriminate).
    lra.
Qed.

(* ================================================================== *)
(** ** Proofs: the controller *)
(* ================================================================== *)

Lemma bind_normal {A B} (m : Run A) (f : A -> Run B) st a st1 t1 :
  m st = (inr a, st1, t1) ->
  bind m f st = (outcome (f a st1), final (f a st1), t1 ++ trace (f a st1)).
Proof.
  intros H. unfold bind, outcome, final, trace. rewrite H.
  destruct (f a st1) as [[r st2] t2]. reflexivity.
Qed.

Lemma bind_throw {A B} (m : Run A) (f : A -> Run B) st e st1 t1 :
  m st = (inl e, st1, t1) -> bind m f st = (inl e, st1, t1).
Proof. intros H. unfold bind. now rewrite H. Qed.

Lemma run_eta {A} (r : (Exn + A) * LiveClient * list Event) :
  r = (outcome r, final r, trace r).
Proof. now destruct r as [[? ?] ?]. Qed.

Lemma final_mk {A} (o : Exn + A) st t : final (o, st, t) = st.
Proof. reflexivity. Qed.

Lemma trace_mk {A} (o : Exn + A) st t : trace (o, st, t) = t.
Proof. reflexivity. Qed.

Lemma outcome_mk {A} (o : Exn + A) st t : outcome (o, st, t) = o.
Proof. reflexivity. Qed.

Lemma bind_ret {A B} (a : A) (k : A -> Run B) st : bind (ret a) k st = k a st.
Proof. unfold bind, ret. now destruct (k a st) as [[? ?] ?]. Qed.

Lemma bind_get {B} (k : LiveClient -> Run B) st : bind get k st = k st st.
Proof. unfold bind, get. now destruct (k st st) as [[? ?] ?]. Qed.

Lemma bind_modify {B} f (k : unit -> Run B) st : bind (modify f) k st = k tt (f st).
Proof. unfold bind, modify. now destruct (k tt (f st)) as [[? ?] ?]. Qed.

Lemma bind_emit {B} e (k : unit -> Run B) st :
  bind (emit e) k st = (outcome (k tt st), final (k tt st), e :: trace (k tt st)).
Proof. unfold bind, emit. now destruct (k tt st) as [[? ?] ?]. Qed.

Lemma bind_throw_now {A B} e (k : A -> Run B) st : bind (throw e) k st = (inl e, st, []).
Proof. reflexivity. Qed.

Lemma bind_assoc {A B C} (m : Run A) (f : A -> Run B) (g : B -> Run C) st :
  bind (bind m f) g st = bind m (fun a => bind (f a) g) st.
Proof.
  unfold bind. destruct (m st) as [[[e|a] s1] t1]; [reflexivity|].
  destruct (f a s1) as [[[e|b] s2] t2]; [reflexivity|].
  destruct (g b s2) as [[r s3] t3]. now rewrite app_assoc.
Qed.

Lemma setStatus_eq status st :
  setStatus status st =
  if status_eqb (currentStatus st) error
     && negb (status_eqb status idle) && negb (status_eqb status connecting)
  then (inr tt, st, [])
  else (inr tt, set_currentStatus st status,
        if onStatusChange st then [StatusChange status] else []).
Proof.
  unfold setStatus, bind, get, modify, when, emit, ret.
  destruct (status_eqb (currentStatus st) error
            && negb (status_eqb status idle) && negb (status_eqb status connecting));
    [reflexivity|].
  destruct (onStatusChange st); reflexivity.
Qed.

Lemma setStatuses_latched requests st :
  currentStatus st = error ->
  (forall s, In s requests -> s <> idle /\ s <> connecting) ->
  setStatuses requests st = (inr tt, st, []).
Proof.
  intros Herr. induction requests as [|s r IH]; intros Hreq; [reflexivity|].
  unfold setStatuses in *. cbn [for_each].
  assert (Hs : setStatus s st = (inr tt, st, [])).
  { rewrite setStatus_eq, Herr. destruct (Hreq s (or_introl eq_refl)) as [H1 H2].
    destruct s; try reflexivity; congruence. }
  rewrite (bind_normal _ _ _ _ _ _ Hs), IH by (intros; apply Hreq; now right).
  reflexivity.
Qed.

Lemma setStatuses_leaves_error requests st :
  currentStatus st = error ->
  currentStatus (final (setStatuses requests st)) <> error ->
  exists s, In s requests /\ (s = idle \/ s = connecting).
Proof.
  intros Herr Hleft.
  destruct (existsb (fun s => status_eqb s idle || status_eqb s connecting) requests) eqn:E.
  - apply existsb_exists in E. destruct E as (s & Hin & Hs).
    exists s. split; [exact Hin|]. destruct s; try discriminate; auto.
  - exfalso. apply Hleft. rewrite setStatuses_latched; [exact Herr|exact Herr|].
    intros s Hin. 
    assert (Hs : status_eqb s idle || status_eqb s connecting = false).
    { destruct (status_eqb s idle || status_eqb s connecting) eqn:E'; [|reflexivity].
      rewrite <- E. symmetry. apply existsb_exists. now exists s. }
    destruct s; try discriminate; split; congruence.
Qed.

(** C3 (error latch).  Once the status is [error]: a request for
    [listening], [speaking] or [processing] changes nothing and fires no
    callback; a request for [idle] or [connecting] sets the status and
    fires the status callback if one is registered; a request changes
    the status only if it is for [idle] or [connecting]; and through any
    sequence of requests the state is unchanged as long as none of them
    is for [idle] or [connecting]. *)
Theorem error_latch :
  forall st : LiveClient,
    currentStatus st = error ->
    (forall s, In s [listening; speaking; processing] ->
       setStatus s st = (inr tt, st, []))
    /\ (forall s, In s [idle; connecting] ->
          outcome (setStatus s st) = inr tt
          /\ currentStatus (final (setStatus s st)) = s
          /\ trace (setStatus s st)
             = if onStatusChange st then [StatusChange s] else [])
    /\ (forall s, currentStatus (final (setStatus s st)) <> error ->
          s = idle \/ s = connecting)
    /\ (forall requests,
          (forall s, In s requests -> In s [listening; speaking; processing]) ->
          setStatuses requests st = (inr tt, st, []))
    /\ (forall requests,
          currentStatus (final (setStatuses requests st)) <> error ->
          exists s, In s requests /\ (s = idle \/ s = connecting)).
Proof.
  intros st Herr. split; [|split; [|split; [|split]]].
  - intros s Hs. rewrite setStatus_eq, Herr.
    cbn in Hs. destruct Hs as [<-|[<-|[<-|[]]]]; reflexivity.
  - intros s Hs. rewrite setStatus_eq, Herr.
    cbn in Hs. destruct Hs as [<-|[<-|[]]]; repeat split; reflexivity.
  - intros s Hs. rewrite setStatus_eq, Herr in Hs.
    destruct s; cbn in Hs; auto; congruence.
  - intros requests Hreq. apply setStatuses_latched; [exact Herr|].
    intros s Hin. specialize (Hreq s Hin). cbn in Hreq.
    destruct Hreq as [<-|[<-|[<-|[]]]]; split; discriminate.
  - intros requests. now apply setStatuses_leaves_error.
Qed.


Lemma eta_client st :
  mkLiveClient (inputAudioContext st) (outputAudioContext st) (inputNode st)
    (outputNode st) (outputAnalyser st) (sources st) (nextStartTime st) (stream st)
    (sessionPromise st) (outputVolumeInterval st) (currentStatus st)
    (lastUserInteraction st) (hasSpokenOnce st) (mediaRecorder st)
    (audioChunks st) (currentInputTranscription st)
    (currentOutputTranscription st) (onVolumeUpdate st) (onStatusChange st)
    (onTranscript st) (onLeadUpdate st) (onAudioRecord st) (freshSource st)
    (microtasks st) (pendingTeardown st) = st.
Proof. now destruct st. Qed.

Lemma truthy_false s : truthy s = false -> s = EmptyString.
Proof. now destruct s. Qed.

Lemma for_each_emit {A} (l : list A) (f : A -> Event) st :
  for_each l (fun x => emit (f x)) st = (inr tt, st, map f l).
Proof.
  induction l as [|x r IH]; [reflexivity|].
  cbn [for_each map]. unfold bind at 1. unfold emit at 1. now rewrite IH.
Qed.

Lemma setStatus_closed request st :
  setStatus request st
  = (inr tt, set_currentStatus st (status_after request st), status_events request st).
Proof.
  rewrite setStatus_eq. unfold status_after, status_events.
  destruct (status_eqb (currentStatus st) error
            && negb (status_eqb request idle) && negb (status_eqb request connecting));
    [|reflexivity].
  now destruct st.
Qed.

(** Callbacks registered with [then]. *)
Lemma thenSession_eq c st : thenSession c st = (inr tt, after_then [c] st, []).
Proof. reflexivity. Qed.

Lemma after_then_nil st : after_then [] st = st.
Proof.
  unfold after_then. destruct st as [? ? ? ? ? ? ? ? [[rs| |]|] ? ? ? ? ? ? ? ? ? ? ? ? ? ? ? ?];
    cbn; rewrite ?app_nil_r; reflexivity.
Qed.

Lemma after_then_app a b st : after_then b (after_then a st) = after_then (a ++ b) st.
Proof.
  unfold after_then. destruct st as [? ? ? ? ? ? ? ? [[rs| |]|] ? ? ? ? ? ? ? ? ? ? ? ? ? ? ? ?];
    cbn; rewrite <- ?app_assoc; reflexivity.
Qed.

(** Registering callbacks touches the session promise and the microtask
    queue only. *)
Lemma after_then_frame calls st :
  let st' := after_then calls st in
  inputAudioContext st' = inputAudioContext st
  /\ outputAudioContext st' = outputAudioContext st
  /\ outputNode st' = outputNode st
  /\ sources st' = sources st
  /\ nextStartTime st' = nextStartTime st
  /\ currentStatus st' = currentStatus st
  /\ lastUserInteraction st' = lastUserInteraction st
  /\ hasSpokenOnce st' = hasSpokenOnce st
  /\ currentInputTranscription st' = currentInputTranscription st
  /\ currentOutputTranscription st' = currentOutputTranscription st
  /\ onStatusChange st' = onStatusChange st
  /\ onTranscript st' = onTranscript st
  /\ onLeadUpdate st' = onLeadUpdate st
  /\ freshSource st' = freshSource st.
Proof.
  unfold after_then. destruct (sessionPromise st) as [[rs| |]|];
    repeat split; reflexivity.
Qed.

Lemma after_then_promise calls st :
  sessionPromise (after_then calls st)
  = match sessionPromise st with
    | Some (Pending reactions) => Some (Pending (reactions ++ calls))
    | p => p
    end
  /\ microtasks (after_then calls st)
     = match sessionPromise st with
       | Some Fulfilled => microtasks st ++ calls
       | _ => microtasks st
       end.
Proof.
  unfold after_then. destruct (sessionPromise st) as [[rs| |]|] eqn:E;
    cbn; rewrite ?E; split; reflexivity.
Qed.

Lemma runMicrotasks_eq st :
  runMicrotasks st = (inr tt, after_microtasks st, microtask_events st).
Proof.
  unfold runMicrotasks. rewrite bind_get.
  rewrite (bind_normal _ _ _ _ _ _ (for_each_emit (microtasks st) call_event st)).
  unfold modify. rewrite outcome_mk, final_mk, trace_mk, app_nil_r. reflexivity.
Qed.

Lemma finally_eq {A} (m : Run A) (after : Run unit) st st' t :
  (forall s, after s = (inr tt, st' s, t s)) ->
  finally m after st
  = (outcome (m st), st' (final (m st)), trace (m st) ++ t (final (m st))).
Proof.
  intros H. unfold finally. destruct (m st) as [[o s1] t1].
  rewrite H. reflexivity.
Qed.

Lemma handleToolCall_eq fc st :
  handleToolCall fc st
  = (inr tt, after_then (tool_call_reactions st fc) st, tool_call_events st fc).
Proof.
  unfold handleToolCall, tool_call_events, tool_call_reactions.
  rewrite bind_get.
  destruct (String.eqb (fc_name fc) "update_lead" && onLeadUpdate st); cbn [when].
  - rewrite bind_emit, thenSession_eq. reflexivity.
  - now rewrite after_then_nil.
Qed.

Lemma tool_call_then calls st fc :
  tool_call_events (after_then calls st) fc = tool_call_events st fc
  /\ tool_call_reactions (after_then calls st) fc = tool_call_reactions st fc.
Proof.
  unfold tool_call_events, tool_call_reactions.
  destruct (after_then_frame calls st) as (_ & _ & _ & _ & _ & _ & _ & _ & _ & _ & _ & _ & H & _).
  rewrite H. split; reflexivity.
Qed.

Lemma handleToolCalls_eq m st :
  handleToolCalls m st
  = (inr tt, after_then (flat_map (tool_call_reactions st) (functionCalls m)) st,
     flat_map (tool_call_events st) (functionCalls m)).
Proof.
  unfold handleToolCalls, functionCalls.
  destruct (toolCall m) as [l|]; [|now rewrite after_then_nil].
  assert (G : forall calls,
             for_each l handleToolCall (after_then calls st)
             = (inr tt, after_then (calls ++ flat_map (tool_call_reactions st) l) st,
                flat_map (tool_call_events st) l)).
  { induction l as [|fc r IH]; intros calls.
    - cbn. now rewrite app_nil_r.
    - cbn [for_each flat_map].
      rewrite (bind_normal _ _ _ _ _ _ (handleToolCall_eq fc (after_then calls st))).
      destruct (tool_call_then calls st fc) as [-> ->].
      rewrite after_then_app, IH, outcome_mk, final_mk, trace_mk.
      now rewrite <- app_assoc. }
  specialize (G []). rewrite after_then_nil in G. exact G.
Qed.

Lemma handleTranscription_eq m st :
  handleTranscription m st = (inr tt, after_transcription m st, []).
Proof.
  unfold handleTranscription, after_transcription, bind, when, modify, ret.
  destruct (truthy (outputFragment m)) eqn:Eo; destruct (truthy (inputFragment m)) eqn:Ei;
    try apply truthy_false in Eo; try apply truthy_false in Ei;
    try rewrite Eo; try rewrite Ei; rewrite ?append_empty_r;
    destruct st; reflexivity.
Qed.

Lemma handleTurnComplete_eq m st :
  handleTurnComplete m st
  = (inr tt, after_turnComplete m st, turnComplete_events m st).
Proof.
  unfold handleTurnComplete, after_turnComplete, turnComplete_events,
    flushes_input, flushes_output.
  destruct (isTurnComplete m); cbn [andb when].
  2:{ destruct st; reflexivity. }
  unfold bind, get, when, emit, modify, ret.
  destruct (truthy (trim (currentInputTranscription st)) && onTranscript st) eqn:E1;
    cbn [set_currentInputTranscription currentOutputTranscription onTranscript];
    destruct (truthy (trim (currentOutputTranscription st)) && onTranscript st) eqn:E2;
    destruct st; reflexivity.
Qed.

Lemma handleAudio_eq m now st :
  handleAudio m now st
  = if audio_present m st then
      let start := Math_max (nextStartTime st) now in
      let st1 :=
        set_nextStartTime
          (set_currentStatus st
             (if status_eqb (currentStatus st) speaking then speaking
              else status_after speaking st))
          start in
      match decoded_audio m with
      | inl e =>
          (inl e,
           (if audio_awaited m then after_microtasks st1 else st1),
           speaking_events st
           ++ (if audio_awaited m then microtask_events st else []))
      | inr audioBuffer =>
          (inr tt,
           set_sources
             (set_nextStartTime
                (set_freshSource (after_microtasks st1) (S (freshSource st)))
                (binary64 (start + duration audioBuffer)))
             (sources st ++ [freshSource st]),
           speaking_events st ++ microtask_events st
           ++ [SourceStart (freshSource st) start (duration audioBuffer)])
      end
    else (inr tt, st, []).
Proof.
  unfold handleAudio, audio_present, decoded_audio, audio_awaited, speaking_events.
  unfold bind at 1. unfold get at 1.
  destruct (base64Audio m) as [b64|]; [|reflexivity].
  destruct (outputAudioContext st) as [c|] eqn:Ec; [|reflexivity].
  destruct (truthy b64 && outputNode st); [|reflexivity].
  cbn [when].
  assert (Hs : when (negb (status_eqb (currentStatus st) speaking)) (setStatus speaking) st
               = (inr tt,
                  set_currentStatus st
                    (if status_eqb (currentStatus st) speaking then speaking
                     else status_after speaking st),
                  if status_eqb (currentStatus st) speaking then []
                  else status_events speaking st)).
  { destruct (status_eqb (currentStatus st) speaking) eqn:E; cbn [negb when].
    - unfold ret. f_equal. f_equal.
      assert (Hsp : currentStatus st = speaking)
        by (destruct (currentStatus st); try discriminate; reflexivity).
      destruct st; cbn in *. now subst.
    - apply setStatus_closed. }
  rewrite (bind_normal _ _ _ _ _ _ Hs). rewrite bind_modify.
  set (st1 := set_nextStartTime _ _).
  set (ev := if status_eqb (currentStatus st) speaking then [] else _).
  destruct (decode b64) as [bytes|]; cbn [lift_option].
  - rewrite bind_ret, (bind_normal _ _ _ _ _ _ (runMicrotasks_eq st1)).
    assert (Hm : microtask_events st1 = microtask_events st) by reflexivity.
    rewrite Hm.
    destruct (decodeAudioData bytes 24000 1) as [e|buf]; cbn [lift_sum].
    + rewrite bind_throw_now, outcome_mk, final_mk, trace_mk, app_nil_r. reflexivity.
    + rewrite bind_ret, bind_get, bind_modify, bind_emit, !bind_modify.
      unfold modify. rewrite !outcome_mk, !final_mk, !trace_mk.
      reflexivity.
  - rewrite bind_throw_now, outcome_mk, final_mk, trace_mk, app_nil_r. reflexivity.
Qed.

Lemma handleInterrupted_eq m st :
  handleInterrupted m st
  = if isInterrupted m then
      (inr tt, after_interrupted st,
       map SourceStop (sources st) ++ status_events listening st)
    else (inr tt, st, []).
Proof.
  unfold handleInterrupted. destruct (isInterrupted m); [|reflexivity].
  cbn [when]. rewrite bind_get.
  rewrite (bind_normal _ _ _ _ _ _ (for_each_emit (sources st) SourceStop st)).
  rewrite !bind_modify.
  rewrite (bind_normal _ _ _ _ _ _ (setStatus_closed listening _)).
  rewrite bind_modify. unfold modify, outcome, final, trace. cbn [fst snd].
  unfold after_interrupted, status_after, status_events.
  cbn [currentStatus onStatusChange set_nextStartTime set_sources].
  now rewrite app_nil_r.
Qed.

(** The state in which the audio branch of [handleMessage] runs differs
    from the state before the message by the callbacks registered, the
    fragments appended and the transcripts flushed. *)
Lemma before_audio_frame m st :
  let st2 := before_audio m st in
  outputAudioContext st2 = outputAudioContext st
  /\ outputNode st2 = outputNode st
  /\ sources st2 = sources st
  /\ nextStartTime st2 = nextStartTime st
  /\ currentStatus st2 = currentStatus st
  /\ lastUserInteraction st2 = lastUserInteraction st
  /\ hasSpokenOnce st2 = hasSpokenOnce st
  /\ onStatusChange st2 = onStatusChange st
  /\ onTranscript st2 = onTranscript st
  /\ onLeadUpdate st2 = onLeadUpdate st
  /\ freshSource st2 = freshSource st
  /\ sessionPromise st2
     = match sessionPromise st with
       | Some (Pending reactions) =>
           Some (Pending (reactions
                          ++ flat_map (tool_call_reactions st) (functionCalls m)))
       | p => p
       end
  /\ microtasks st2
     = match sessionPromise st with
       | Some Fulfilled => flat_map (tool_call_reactions st) (functionCalls m)
       | _ => []
       end.
Proof.
  unfold before_audio.
  destruct (after_then_frame (flat_map (tool_call_reactions st) (functionCalls m))
              (after_microtasks st))
    as (_ & F2 & F3 & F4 & F5 & F6 & F7 & F8 & _ & _ & F11 & F12 & F13 & F14).
  destruct (after_then_promise (flat_map (tool_call_reactions st) (functionCalls m))
              (after_microtasks st)) as [P1 P2].
  change (sessionPromise (after_microtasks st)) with (sessionPromise st) in P1, P2.
  change (microtasks (after_microtasks st)) with (@nil SessionCall) in P2.
  cbn [app] in P2.
  change (outputAudioContext (after_microtasks st)) with (outputAudioContext st) in F2.
  change (outputNode (after_microtasks st)) with (outputNode st) in F3.
  change (sources (after_microtasks st)) with (sources st) in F4.
  change (nextStartTime (after_microtasks st)) with (nextStartTime st) in F5.
  change (currentStatus (after_microtasks st)) with (currentStatus st) in F6.
  change (lastUserInteraction (after_microtasks st)) with (lastUserInteraction st) in F7.
  change (hasSpokenOnce (after_microtasks st)) with (hasSpokenOnce st) in F8.
  change (onStatusChange (after_microtasks st)) with (onStatusChange st) in F11.
  change (onTranscript (after_microtasks st)) with (onTranscript st) in F12.
  change (onLeadUpdate (after_microtasks st)) with (onLeadUpdate st) in F13.
  change (freshSource (after_microtasks st)) with (freshSource st) in F14.
  remember (after_then (flat_map (tool_call_reactions st) (functionCalls m))
              (after_microtasks st)) as s0 eqn:E. clear E.
  cbv zeta. rewrite <- F2, <- F3, <- F4, <- F5, <- F6, <- F7, <- F8, <- F11, <- F12,
    <- F13, <- F14, <- P1, <- P2.
  destruct s0; cbn; repeat split; reflexivity.
Qed.

Lemma handleMessage_eq m now st :
  handleMessage m now st
  = let pre := flat_map (tool_call_events st) (functionCalls m)
               ++ turnComplete_events m (after_transcription m st) in
    let ra := handleAudio m now (before_audio m st) in
    match outcome ra with
    | inl e =>
        (inl e, after_microtasks (final ra),
         pre ++ trace ra ++ microtask_events (final ra))
    | inr _ =>
        let ri := handleInterrupted m (final ra) in
        (outcome ri, after_microtasks (final ri),
         pre ++ trace ra ++ trace ri ++ microtask_events (final ri))
    end.
Proof.
  unfold handleMessage. rewrite bind_modify. fold (after_microtasks st).
  rewrite (finally_eq _ _ _ _ _ runMicrotasks_eq).
  rewrite (bind_normal _ _ _ _ _ _ (handleToolCalls_eq m (after_microtasks st))).
  rewrite (bind_normal _ _ _ _ _ _ (handleTranscription_eq m _)).
  rewrite (bind_normal _ _ _ _ _ _ (handleTurnComplete_eq m _)).
  change (tool_call_events (after_microtasks st)) with (tool_call_events st).
  change (tool_call_reactions (after_microtasks st)) with (tool_call_reactions st).
  fold (before_audio m st).
  assert (Ht : turnComplete_events m
                 (after_transcription m
                    (after_then (flat_map (tool_call_reactions st) (functionCalls m))
                       (after_microtasks st)))
               = turnComplete_events m (after_transcription m st)).
  { destruct (after_then_frame (flat_map (tool_call_reactions st) (functionCalls m))
                (after_microtasks st))
      as (_ & _ & _ & _ & _ & _ & _ & _ & F9 & F10 & _ & F12 & _).
    change (currentInputTranscription (after_microtasks st))
      with (currentInputTranscription st) in F9.
    change (currentOutputTranscription (after_microtasks st))
      with (currentOutputTranscription st) in F10.
    change (onTranscript (after_microtasks st)) with (onTranscript st) in F12.
    remember (after_then (flat_map (tool_call_reactions st) (functionCalls m))
                (after_microtasks st))
      as s0 eqn:E. clear E.
    unfold turnComplete_events, flushes_input, flushes_output, after_transcription.
    cbn [currentInputTranscription currentOutputTranscription onTranscript
         set_currentInputTranscription set_currentOutputTranscription].
    now rewrite F9, F10, F12. }
  rewrite Ht. cbv zeta.
  destruct (handleAudio m now (before_audio m st)) as [[[e|[]] sa] ta] eqn:Ea.
  - rewrite (bind_throw _ _ _ _ _ _ Ea).
    rewrite !outcome_mk, !final_mk, !trace_mk, <- !app_assoc. reflexivity.
  - rewrite (bind_normal _ _ _ _ _ _ Ea).
    rewrite !outcome_mk, !final_mk, !trace_mk, <- !app_assoc. reflexivity.
Qed.

Lemma handleMessage_final m now st :
  final (handleMessage m now st)
  = after_microtasks
      (let ra := handleAudio m now (before_audio m st) in
       match outcome ra with
       | inl _ => final ra
       | inr _ => final (handleInterrupted m (final ra))
       end).
Proof.
  rewrite handleMessage_eq. cbv zeta.
  destruct (outcome (handleAudio m now _)); reflexivity.
Qed.

Lemma handleMessage_trace m now st :
  trace (handleMessage m now st)
  = let ra := handleAudio m now (before_audio m st) in
    flat_map (tool_call_events st) (functionCalls m)
    ++ turnComplete_events m (after_transcription m st)
    ++ trace ra
    ++ match outcome ra with
       | inl _ => microtask_events (final ra)
       | inr _ =>
           trace (handleInterrupted m (final ra))
           ++ microtask_events (final (handleInterrupted m (final ra)))
       end.
Proof.
  rewrite handleMessage_eq. cbv zeta.
  destruct (outcome (handleAudio m now _)); rewrite trace_mk, <- ?app_assoc; reflexivity.
Qed.

Lemma handleMessage_outcome m now st :
  outcome (handleMessage m now st)
  = outcome (handleAudio m now (before_audio m st)).
Proof.
  rewrite handleMessage_eq. cbv zeta.
  destruct (outcome (handleAudio m now _)) as [e|[]] eqn:E; [reflexivity|].
  rewrite handleInterrupted_eq. destruct (isInterrupted m); reflexivity.
Qed.

(** The microtasks are calls on the session: they are neither
    transcripts, nor starts or stops of playback, nor status reports. *)
Lemma microtask_events_calls st e :
  In e (microtask_events st) -> is_session_call e = true.
Proof.
  unfold microtask_events. intros H. apply in_map_iff in H.
  destruct H as (c & <- & _). destruct c; reflexivity.
Qed.

Lemma session_calls_unobserved {A} (f : Event -> list A) (l : list Event) :
  (forall e, is_session_call e = true -> f e = []) ->
  (forall e, In e l -> is_session_call e = true) ->
  flat_map f l = [].
Proof.
  intros Hf. induction l as [|e l IH]; intros Hl; [reflexivity|].
  cbn [flat_map]. rewrite (Hf e (Hl e (or_introl eq_refl))).
  apply IH. intros e' He'. apply Hl. now right.
Qed.

Lemma microtask_events_plain st :
  transcripts (microtask_events st) = []
  /\ scheduled (microtask_events st) = []
  /\ (forall s, ~ In (SourceStop s) (microtask_events st))
  /\ (forall s, ~ In (StatusChange s) (microtask_events st)).
Proof.
  split; [|split; [|split]].
  - apply session_calls_unobserved; [|apply microtask_events_calls].
    intros [] H; try discriminate H; reflexivity.
  - apply session_calls_unobserved; [|apply microtask_events_calls].
    intros [] H; try discriminate H; reflexivity.
  - intros s H. apply microtask_events_calls in H. discriminate H.
  - intros s H. apply microtask_events_calls in H. discriminate H.
Qed.

(** Frame properties of the audio branch. *)
Lemma handleAudio_frame m now st :
  let r := handleAudio m now st in
  currentInputTranscription (final r) = currentInputTranscription st
  /\ currentOutputTranscription (final r) = currentOutputTranscription st
  /\ onTranscript (final r) = onTranscript st
  /\ transcripts (trace r) = []
  /\ sessionPromise (final r) = sessionPromise st.
Proof.
  cbv zeta. rewrite handleAudio_eq.
  destruct (audio_present m st); [|repeat split].
  cbv zeta.
  assert (Hsp : transcripts (speaking_events st) = []).
  { unfold speaking_events, status_events.
    destruct (status_eqb (currentStatus st) speaking); [reflexivity|].
    destruct (_ && _ && _); [reflexivity|]. destruct (onStatusChange st); reflexivity. }
  destruct (microtask_events_plain st) as (Hm & _).
  destruct (decoded_audio m) as [e|buf]; rewrite ?final_mk, ?trace_mk;
    unfold transcripts in *; rewrite ?flat_map_app, ?Hsp, ?Hm;
    destruct (audio_awaited m); rewrite ?Hm; repeat split; reflexivity.
Qed.

(** The microtasks queued before the audio branch run in it when the
    handler reaches its [await], and stay queued otherwise. *)
Lemma handleAudio_microtasks m now st :
  let r := handleAudio m now st in
  (microtasks (final r) = []
   /\ tool_events (trace r) = tool_events (microtask_events st))
  \/ (microtasks (final r) = microtasks st /\ tool_events (trace r) = []).
Proof.
  cbv zeta. rewrite handleAudio_eq.
  destruct (audio_present m st); [|right; split; reflexivity].
  cbv zeta.
  assert (Hsp : tool_events (speaking_events st) = []).
  { unfold speaking_events, status_events.
    destruct (status_eqb (currentStatus st) speaking); [reflexivity|].
    destruct (_ && _ && _); [reflexivity|]. destruct (onStatusChange st); reflexivity. }
  destruct (decoded_audio m) as [e|buf]; rewrite ?final_mk, ?trace_mk;
    unfold tool_events in *; rewrite ?filter_app, ?Hsp.
  - destruct (audio_awaited m); [left|right]; rewrite ?app_nil_r; split; reflexivity.
  - left. cbn [filter is_tool_event app]. rewrite app_nil_r. split; reflexivity.
Qed.

Lemma handleInterrupted_events m st :
  transcripts (trace (handleInterrupted m st)) = []
  /\ tool_events (trace (handleInterrupted m st)) = []
  /\ scheduled (trace (handleInterrupted m st)) = []
  /\ microtasks (final (handleInterrupted m st)) = microtasks st.
Proof.
  rewrite handleInterrupted_eq. destruct (isInterrupted m); [|repeat split].
  unfold trace, transcripts, tool_events, scheduled, status_events. cbn [snd].
  rewrite !flat_map_app, filter_app.
  assert (H1 : forall l, flat_map (fun e => match e with Transcript t r => [(t, r)] | _ => [] end)
                           (map SourceStop l) = []) by (induction l; auto).
  assert (H2 : forall l, filter is_tool_event (map SourceStop l) = []) by (induction l; auto).
  assert (H3 : forall l, flat_map (fun e => match e with SourceStart _ t d => [(t, d)] | _ => [] end)
                           (map SourceStop l) = []) by (induction l; auto).
  rewrite H1, H2, H3.
  destruct (status_eqb (currentStatus st) error && negb (status_eqb listening idle)
            && negb (status_eqb listening connecting));
    [|destruct (onStatusChange st)]; repeat split.
Qed.

Lemma turnComplete_events_plain m st :
  tool_events (turnComplete_events m st) = []
  /\ scheduled (turnComplete_events m st) = [].
Proof.
  unfold turnComplete_events.
  destruct (flushes_input m st); destruct (flushes_output m st); split; reflexivity.
Qed.

Lemma tool_call_events_plain st l :
  transcripts (flat_map (tool_call_events st) l) = []
  /\ scheduled (flat_map (tool_call_events st) l) = [].
Proof.
  induction l as [|fc r [IH1 IH2]]; [split; reflexivity|].
  cbn [flat_map]. unfold transcripts, scheduled in *. rewrite !flat_map_app, IH1, IH2.
  unfold tool_call_events.
  destruct (String.eqb (fc_name fc) "update_lead" && onLeadUpdate st); split; reflexivity.
Qed.

(** The lead updates and the tool responses of a message: the calls of
    the callback, then the microtasks queued when the audio branch
    starts. *)
Lemma handleMessage_tool_events m now st :
  tool_events (trace (handleMessage m now st))
  = tool_events (flat_map (tool_call_events st) (functionCalls m))
    ++ tool_events (microtask_events (before_audio m st)).
Proof.
  rewrite handleMessage_trace. cbv zeta.
  destruct (turnComplete_events_plain m (after_transcription m st)) as [Ht _].
  unfold tool_events in *. rewrite !filter_app, Ht. cbn [app]. f_equal.
  pose proof (handleAudio_microtasks m now (before_audio m st)) as Hm. cbv zeta in Hm.
  unfold tool_events in Hm.
  destruct (outcome (handleAudio m now (before_audio m st))) as [e|[]].
  - change (microtask_events (final (handleAudio m now (before_audio m st))))
      with (map call_event (microtasks (final (handleAudio m now (before_audio m st))))).
    destruct Hm as [[H1 H2]|[H1 H2]]; rewrite H2, H1; [now rewrite app_nil_r | reflexivity].
  - destruct (handleInterrupted_events m (final (handleAudio m now (before_audio m st))))
      as (_ & Hi & _ & Hk).
    unfold tool_events in Hi. rewrite filter_app, Hi. cbn [app].
    change (microtask_events
              (final (handleInterrupted m (final (handleAudio m now (before_audio m st))))))
      with (map call_event
              (microtasks
                 (final (handleInterrupted m
                           (final (handleAudio m now (before_audio m st))))))).
    rewrite Hk.
    destruct Hm as [[H1 H2]|[H1 H2]]; rewrite H2, H1; [now rewrite app_nil_r | reflexivity].
Qed.

Lemma tool_call_events_forwarded st l :
  onLeadUpdate st = true ->
  flat_map (tool_call_events st) l
  = map (fun fc => LeadUpdate (fc_args fc))
      (filter (fun fc => String.eqb (fc_name fc) "update_lead") l)
  /\ flat_map (tool_call_reactions st) l
     = map (fun fc => ToolResponse (fc_id fc) "update_lead" "Lead updated successfully.")
         (filter (fun fc => String.eqb (fc_name fc) "update_lead") l).
Proof.
  intros Hcb. induction l as [|fc r [IH1 IH2]]; [split; reflexivity|].
  cbn [flat_map filter]. rewrite IH1, IH2.
  unfold tool_call_events, tool_call_reactions. rewrite Hcb, andb_true_r.
  destruct (String.eqb (fc_name fc) "update_lead") eqn:E; [|split; reflexivity].
  apply String.eqb_eq in E. rewrite E. split; reflexivity.
Qed.

Lemma tool_events_updates {A} (f : A -> Args) (l : list A) :
  tool_events (map (fun x => LeadUpdate (f x)) l) = map (fun x => LeadUpdate (f x)) l.
Proof. induction l as [|x l IH]; [reflexivity|]. cbn. unfold tool_events in IH. now rewrite IH. Qed.

Lemma tool_events_responses (l : list SessionCall) :
  (forall c, In c l -> exists id name result, c = ToolResponse id name result) ->
  tool_events (map call_event l) = map call_event l.
Proof.
  induction l as [|c l IH]; intros H; [reflexivity|].
  destruct (H c (or_introl eq_refl)) as (id & name & result & ->).
  cbn. unfold tool_events in IH. rewrite IH; [reflexivity|].
  intros c' Hc'. apply H. now right.
Qed.

Lemma sessionFulfilled_eq reactions st :
  sessionPromise st = Some (Pending reactions) ->
  sessionFulfilled st
  = (inr tt, set_sessionPromise st (Some Fulfilled), map call_event reactions).
Proof.
  intros H. unfold sessionFulfilled. rewrite bind_get, H, bind_modify.
  apply for_each_emit.
Qed.

(** C8 (tool calls).  With a lead-update callback registered and no
    microtask left over, the handling of a message calls the callback
    once for each function call named [update_lead], in the order of the
    message and with the arguments of the call, and registers for each
    of them a response tagged with the id and the name of the call;
    function calls with another name produce neither.  On a fulfilled
    session promise the responses are sent, in that order, after the
    calls of the callback; on a pending one they wait in the promise,
    behind the callbacks it already holds, and are sent when it is
    fulfilled; without a session, or on a rejected promise, none is
    sent. *)
Theorem tool_call_forwarding :
  forall (m : LiveServerMessage) (now : Q) (st : LiveClient),
    onLeadUpdate st = true ->
    let calls := filter (fun fc => String.eqb (fc_name fc) "update_lead")
                        (functionCalls m) in
    let updates := map (fun fc => LeadUpdate (fc_args fc)) calls in
    let responses :=
      map (fun fc => ToolResponse (fc_id fc) "update_lead" "Lead updated successfully.")
          calls in
    let r := handleMessage m now st in
    (sessionPromise st = Some Fulfilled ->
     tool_events (trace r) = updates ++ map call_event responses)
    /\ (forall reactions,
          sessionPromise st = Some (Pending reactions) ->
          tool_events (trace r) = updates
          /\ sessionPromise (final r) = Some (Pending (reactions ++ responses))
          /\ trace (sessionFulfilled (final r))
             = map call_event reactions ++ map call_event responses)
    /\ (sessionPromise st = None \/ sessionPromise st = Some Rejected ->
        tool_events (trace r) = updates).
Proof.
  intros m now st Hcb calls updates responses r. subst r.
  destruct (tool_call_events_forwarded st (functionCalls m) Hcb) as [Hu Hr].
  fold calls in Hu, Hr. fold updates in Hu. fold responses in Hr.
  destruct (before_audio_frame m st) as (_ & _ & _ & _ & _ & _ & _ & _ & _ & _ & _ & Fp & Fm).
  rewrite Hr in Fp, Fm.
  assert (Htool : tool_events (trace (handleMessage m now st))
                  = updates ++ tool_events (map call_event (microtasks (before_audio m st)))).
  { rewrite handleMessage_tool_events, Hu. unfold updates. now rewrite tool_events_updates. }
  assert (Hresp : tool_events (map call_event responses) = map call_event responses).
  { apply tool_events_responses. intros c Hc. unfold responses in Hc.
    apply in_map_iff in Hc. destruct Hc as (fc & <- & _). eauto. }
  split; [|split].
  - intros Hs. rewrite Hs in Fm.
    now rewrite Htool, Fm, Hresp.
  - intros reactions Hs. rewrite Hs in Fp, Fm.
    assert (Hfinal : sessionPromise (final (handleMessage m now st))
                     = Some (Pending (reactions ++ responses))).
    { rewrite handleMessage_final. cbv zeta.
      destruct (handleAudio_frame m now (before_audio m st)) as (_ & _ & _ & _ & Ha).
      change (sessionPromise (after_microtasks ?x)) with (sessionPromise x).
      destruct (outcome (handleAudio m now (before_audio m st))) as [e|[]].
      - now rewrite Ha.
      - rewrite handleInterrupted_eq.
        destruct (isInterrupted m); rewrite final_mk; [|now rewrite Ha].
        change (sessionPromise (after_interrupted ?x)) with (sessionPromise x).
        now rewrite Ha. }
    split; [now rewrite Htool, Fm, app_nil_r|]. split; [exact Hfinal|].
    rewrite (sessionFulfilled_eq _ _ Hfinal), trace_mk. apply map_app.
  - intros Hs. rewrite Htool, Fm.
    destruct Hs as [Hs|Hs]; rewrite Hs; now rewrite app_nil_r.
Qed.

Lemma Math_max_bounds a b : (a <= Math_max a b)%Q /\ (b <= Math_max a b)%Q.
Proof.
  unfold Math_max. destruct (Qle_bool a b) eqn:E.
  - apply Qle_bool_iff in E. split; [exact E | apply Qle_refl].
  - split; [apply Qle_refl|].
    destruct (Qlt_le_dec a b) as [Hlt|Hle]; [|exact Hle].
    apply Qlt_le_weak in Hlt. apply Qle_bool_iff in Hlt. congruence.
Qed.

Lemma decoded_audio_duration m buf : decoded_audio m = inr buf -> (0 < duration buf)%Q.
Proof.
  unfold decoded_audio. destruct (base64Audio m) as [b64|]; [|discriminate].
  destruct (decode b64) as [bytes|]; [|discriminate].
  unfold decodeAudioData.
  destruct (Int16Array_of_Uint8Array bytes) as [vs|]; [|discriminate].
  destruct (Nat.eqb 1 0 || Nat.eqb (Nat.div (List.length vs) 1) 0) eqn:E; [discriminate|].
  intros H. injection H as <-. unfold duration. cbn [frames sampleRate].
  apply binary64_pos.
  apply orb_false_iff in E. destruct E as [_ E]. apply Nat.eqb_neq in E.
  change (fst (Nat.divmod (List.length vs) 0 0 0)) with (Nat.div (List.length vs) 1).
  rewrite Nat.div_1_r in *.
  unfold Qle. cbn [Qnum Qden]. lia.
Qed.

Lemma speaking_events_scheduled st : scheduled (speaking_events st) = [].
Proof.
  unfold speaking_events, status_events.
  destruct (status_eqb (currentStatus st) speaking); [reflexivity|].
  destruct (status_eqb (currentStatus st) error && negb (status_eqb speaking idle)
            && negb (status_eqb speaking connecting)); [reflexivity|].
  destruct (onStatusChange st); reflexivity.
Qed.

Lemma scheduled_app a b : scheduled (a ++ b) = scheduled a ++ scheduled b.
Proof. unfold scheduled. apply flat_map_app. Qed.

(** What one handler schedules, and where it leaves [nextStartTime]: a
    payload that is played gives one chunk, which starts at the later of
    the cursor and of the clock, and moves the cursor to the binary64
    sum of that start and of the duration; anything else gives no chunk
    and does not move the cursor back. *)
Lemma handleAudio_schedule m now st :
  let r := handleAudio m now st in
  if plays st (m, now) then
    scheduled (trace r) = [(Math_max (nextStartTime st) now, chunk_duration m)]
    /\ (0 < chunk_duration m)%Q
    /\ nextStartTime (final r)
       = binary64 (Math_max (nextStartTime st) now + chunk_duration m)
  else
    scheduled (trace r) = []
    /\ (nextStartTime st <= nextStartTime (final r))%Q.
Proof.
  cbv zeta. rewrite handleAudio_eq. unfold plays, chunk_duration. cbn [fst].
  destruct (audio_present m st); cbn [andb];
    [|split; [reflexivity | apply Qle_refl]].
  cbv zeta.
  destruct (Math_max_bounds (nextStartTime st) now) as [Hb1 Hb2].
  destruct (microtask_events_plain st) as (_ & Hm & _).
  destruct (decoded_audio m) as [e|buf] eqn:Ed; rewrite final_mk, trace_mk.
  - rewrite scheduled_app, speaking_events_scheduled.
    split.
    + destruct (audio_awaited m); [exact Hm | reflexivity].
    + destruct (audio_awaited m); exact Hb1.
  - pose proof (decoded_audio_duration m buf Ed) as Hd.
    rewrite !scheduled_app, speaking_events_scheduled, Hm.
    repeat split; auto.
Qed.


Lemma handleMessage_scheduled m now st :
  scheduled (trace (handleMessage m now st))
  = scheduled (trace (handleAudio m now (before_audio m st))).
Proof.
  rewrite handleMessage_trace. cbv zeta.
  destruct (tool_call_events_plain st (functionCalls m)) as [_ Hp1].
  destruct (turnComplete_events_plain m (after_transcription m st)) as [_ Hp2].
  rewrite !scheduled_app, Hp1, Hp2. cbn [app].
  destruct (outcome (handleAudio m now (before_audio m st))) as [e|[]].
  - destruct (microtask_events_plain (final (handleAudio m now (before_audio m st))))
      as (_ & Hm & _).
    now rewrite Hm, app_nil_r.
  - destruct (handleInterrupted_events m (final (handleAudio m now (before_audio m st))))
      as (_ & _ & Hi & _).
    destruct (microtask_events_plain
                (final (handleInterrupted m
                          (final (handleAudio m now (before_audio m st))))))
      as (_ & Hm & _).
    now rewrite scheduled_app, Hi, Hm, app_nil_r.
Qed.

Lemma after_microtasks_frame st :
  nextStartTime (after_microtasks st) = nextStartTime st
  /\ outputAudioContext (after_microtasks st) = outputAudioContext st
  /\ outputNode (after_microtasks st) = outputNode st
  /\ sources (after_microtasks st) = sources st
  /\ currentStatus (after_microtasks st) = currentStatus st
  /\ sessionPromise (after_microtasks st) = sessionPromise st
  /\ onStatusChange (after_microtasks st) = onStatusChange st.
Proof. repeat split; reflexivity. Qed.












Lemma handleAudio_status m now st :
  status_eqb (currentStatus (final (handleAudio m now st))) error
  = status_eqb (currentStatus st) error.
Proof.
  rewrite handleAudio_eq. destruct (audio_present m st); [|reflexivity].
  cbv zeta. unfold status_after.
  destruct (decoded_audio m); destruct (audio_awaited m); rewrite final_mk;
    cbn [currentStatus after_microtasks set_microtasks set_nextStartTime set_currentStatus
         set_sources set_freshSource];
    destruct (currentStatus st); reflexivity.
Qed.

Lemma handleAudio_sources m now st s :
  In s (sources st) -> In s (sources (final (handleAudio m now st))).
Proof.
  rewrite handleAudio_eq. destruct (audio_present m st); [|auto].
  cbv zeta. destruct (decoded_audio m); destruct (audio_awaited m); rewrite final_mk;
    cbn [sources after_microtasks set_microtasks set_nextStartTime set_currentStatus
         set_sources set_freshSource]; auto;
    intros H; apply in_or_app; now left.
Qed.

Lemma speaking_events_status st e :
  In e (speaking_events st) -> e = StatusChange speaking.
Proof.
  unfold speaking_events, status_events.
  destruct (status_eqb (currentStatus st) speaking); [contradiction|].
  destruct (status_eqb (currentStatus st) error && negb (status_eqb speaking idle)
            && negb (status_eqb speaking connecting)); [contradiction|].
  destruct (onStatusChange st); [|contradiction].
  intros [H|[]]. now subst.
Qed.

Lemma handleAudio_started m now st s t d :
  In (SourceStart s t d) (trace (handleAudio m now st)) ->
  In s (sources (final (handleAudio m now st))).
Proof.
  rewrite handleAudio_eq. destruct (audio_present m st); [|contradiction].
  cbv zeta.
  destruct (decoded_audio m); rewrite final_mk, trace_mk; intros H.
  - apply in_app_or in H. destruct H as [H|H].
    + apply speaking_events_status in H. discriminate.
    + destruct (audio_awaited m); [|contradiction].
      apply microtask_events_calls in H. discriminate.
  - apply in_app_or in H. destruct H as [H|H].
    { apply speaking_events_status in H. discriminate. }
    apply in_app_or in H. destruct H as [H|[H|[]]].
    { apply microtask_events_calls in H. discriminate. }
    injection H as <- _ _.
    cbn [sources set_sources]. apply in_or_app; right; now left.
Qed.

Lemma handleAudio_output_independent m now st acc :
  outcome (handleAudio m now (set_currentOutputTranscription st acc))
  = outcome (handleAudio m now st)
  /\ after_interrupted (final (handleAudio m now (set_currentOutputTranscription st acc)))
     = after_interrupted (final (handleAudio m now st)).
Proof.
  rewrite !handleAudio_eq.
  change (audio_present m (set_currentOutputTranscription st acc))
    with (audio_present m st).
  destruct (audio_present m st); [|split; reflexivity].
  cbv zeta. destruct (decoded_audio m); destruct (audio_awaited m); split; reflexivity.
Qed.

Lemma tool_call_events_in st l e :
  In e (flat_map (tool_call_events st) l) -> is_tool_event e = true.
Proof.
  induction l as [|fc l IH]; [contradiction|]. cbn [flat_map]. intros H.
  apply in_app_or in H. destruct H as [H|H]; [|auto].
  unfold tool_call_events in H.
  destruct (String.eqb (fc_name fc) "update_lead" && onLeadUpdate st); [|contradiction].
  destruct H as [<-|[]]. reflexivity.
Qed.

Lemma turnComplete_events_in m st e :
  In e (turnComplete_events m st) -> exists t r, e = Transcript t r.
Proof.
  unfold turnComplete_events. intros H. apply in_app_or in H.
  destruct H as [H|H];
    [destruct (flushes_input m st)|destruct (flushes_output m st)];
    try contradiction; destruct H as [<-|[]]; eauto.
Qed.

Lemma after_interrupted_status st :
  currentStatus (after_interrupted st)
  = if status_eqb (currentStatus st) error then error else listening.
Proof.
  unfold after_interrupted, status_after. cbn [currentStatus set_currentOutputTranscription
    set_voiceActivity set_currentStatus].
  destruct (currentStatus st); reflexivity.
Qed.

Lemma after_then_output calls st acc :
  after_then calls (set_currentOutputTranscription st acc)
  = set_currentOutputTranscription (after_then calls st) acc.
Proof.
  unfold after_then.
  change (sessionPromise (set_currentOutputTranscription st acc))
    with (sessionPromise st).
  destruct (sessionPromise st) as [[rs| |]|]; reflexivity.
Qed.

Lemma after_transcription_output m st acc :
  after_transcription m (set_currentOutputTranscription st acc)
  = set_currentOutputTranscription (after_transcription m st)
      (acc ++ outputFragment m)%string.
Proof. destruct st; reflexivity. Qed.

Lemma after_turnComplete_output m st acc :
  after_turnComplete m (set_currentOutputTranscription st acc)
  = set_currentOutputTranscription (after_turnComplete m st)
      (if flushes_output m (set_currentOutputTranscription st acc)
       then EmptyString else acc).
Proof. destruct st; reflexivity. Qed.

Lemma before_audio_output_independent m st acc :
  before_audio m (set_currentOutputTranscription st acc)
  = set_currentOutputTranscription (before_audio m st)
      (currentOutputTranscription
         (before_audio m (set_currentOutputTranscription st acc))).
Proof.
  assert (E : exists x,
             before_audio m (set_currentOutputTranscription st acc)
             = set_currentOutputTranscription (before_audio m st) x).
  { unfold before_audio.
    change (tool_call_reactions (set_currentOutputTranscription st acc))
      with (tool_call_reactions st).
    change (after_microtasks (set_currentOutputTranscription st acc))
      with (set_currentOutputTranscription (after_microtasks st) acc).
    rewrite after_then_output, after_transcription_output, after_turnComplete_output.
    eexists. reflexivity. }
  destruct E as [x E]. rewrite E.
  remember (before_audio m st) as B eqn:EB. clear. destruct B; reflexivity.
Qed.

(** C4, as amended (interruption).  After a message carrying the
    interruption signal has been handled to completion, from any state:
    no playback segment is active, the next start offset is zero, the
    voice-activity bookkeeping is reset, the output accumulator is empty,
    every segment that was active or was started by this message has
    been stopped, and the state left does not depend on what the output
    accumulator held before.  The status is [listening], except that a
    status [error] is kept. *)
Theorem interruption_clears_playback :
  forall (m : LiveServerMessage) (now : Q) (st : LiveClient),
    isInterrupted m = true ->
    outcome (handleMessage m now st) = inr tt ->
    let r := handleMessage m now st in
    sources (final r) = []
    /\ nextStartTime (final r) = 0%Q
    /\ currentStatus (final r)
       = (if status_eqb (currentStatus st) error then error else listening)
    /\ lastUserInteraction (final r) = 0
    /\ hasSpokenOnce (final r) = false
    /\ currentOutputTranscription (final r) = EmptyString
    /\ (forall s, In s (sources st) -> In (SourceStop s) (trace r))
    /\ (forall s t d, In (SourceStart s t d) (trace r) -> In (SourceStop s) (trace r))
    /\ (forall acc,
          final (handleMessage m now (set_currentOutputTranscription st acc)) = final r).
Proof.
  intros m now st Hint Hok r. subst r.
  rewrite handleMessage_outcome in Hok.
  rewrite handleMessage_final, handleMessage_trace. cbv zeta.
  destruct (before_audio_frame m st) as (_ & _ & Fs & _ & Fc & _).
  set (st2 := before_audio m st) in *.
  rewrite Hok, handleInterrupted_eq, Hint, !final_mk, !trace_mk.
  repeat split.
  - destruct (after_microtasks_frame
                (after_interrupted (final (handleAudio m now st2))))
      as (_ & _ & _ & _ & -> & _).
    rewrite after_interrupted_status, handleAudio_status, Fc. reflexivity.
  - intros s Hs. apply in_or_app; right. apply in_or_app; right.
    apply in_or_app; right. apply in_or_app; left. apply in_or_app; left.
    apply in_map. apply handleAudio_sources. rewrite Fs. exact Hs.
  - intros s t d Hs.
    apply in_or_app; right. apply in_or_app; right.
    apply in_or_app; right. apply in_or_app; left. apply in_or_app; left.
    apply in_map.
    apply in_app_or in Hs. destruct Hs as [Hs|Hs].
    { apply tool_call_events_in in Hs. discriminate. }
    apply in_app_or in Hs. destruct Hs as [Hs|Hs].
    { apply turnComplete_events_in in Hs. destruct Hs as (x & y & Hs). discriminate. }
    apply in_app_or in Hs. destruct Hs as [Hs|Hs].
    { eapply handleAudio_started; exact Hs. }
    apply in_app_or in Hs. destruct Hs as [Hs|Hs].
    2:{ apply microtask_events_calls in Hs. discriminate. }
    apply in_app_or in Hs. destruct Hs as [Hs|Hs].
    { apply in_map_iff in Hs. destruct Hs as (x & Hx & _). discriminate. }
    unfold status_events in Hs.
    destruct (status_eqb _ error && _ && _); [contradiction|].
    destruct (onStatusChange _); [|contradiction].
    destruct Hs as [Hs|[]]. discriminate.
  - intros acc. rewrite handleMessage_final. cbv zeta.
    rewrite before_audio_output_independent. fold st2.
    destruct (handleAudio_output_independent m now st2
                (currentOutputTranscription
                   (before_audio m (set_currentOutputTranscription st acc))))
      as [Ho Hf].
    rewrite Ho, Hok, handleInterrupted_eq, Hint, !final_mk.
    f_equal. exact Hf.
Qed.

Lemma turnComplete_events_transcripts m st :
  transcripts (turnComplete_events m st)
  = (if flushes_input m st then [(currentInputTranscription st, user)] else [])
    ++ (if flushes_output m st then [(currentOutputTranscription st, model)] else []).
Proof.
  unfold turnComplete_events, transcripts. rewrite flat_map_app.
  destruct (flushes_input m st); destruct (flushes_output m st); reflexivity.
Qed.

(** The transcript side of one handler. *)
Lemma before_audio_transcripts m st :
  let st1 := after_transcription m st in
  currentInputTranscription (before_audio m st)
  = (if flushes_input m st1 then EmptyString else currentInputTranscription st1)
  /\ currentOutputTranscription (before_audio m st)
     = (if flushes_output m st1 then EmptyString else currentOutputTranscription st1).
Proof.
  unfold before_audio, after_then.
  change (sessionPromise (after_microtasks st)) with (sessionPromise st).
  destruct (sessionPromise st) as [[rs| |]|]; split; reflexivity.
Qed.

Lemma transcripts_app a b : transcripts (a ++ b) = transcripts a ++ transcripts b.
Proof. unfold transcripts. apply flat_map_app. Qed.

Lemma handleMessage_transcripts m now st :
  let st1 := after_transcription m st in
  let r := handleMessage m now st in
  transcripts (trace r)
  = (if flushes_input m st1 then [(currentInputTranscription st1, user)] else [])
    ++ (if flushes_output m st1 then [(currentOutputTranscription st1, model)] else [])
  /\ currentInputTranscription (final r)
     = (if flushes_input m st1 then EmptyString else currentInputTranscription st1)
  /\ (currentOutputTranscription (final r) = EmptyString
      \/ currentOutputTranscription (final r)
         = (if flushes_output m st1 then EmptyString else currentOutputTranscription st1))
  /\ (isInterrupted m = false ->
      currentOutputTranscription (final r)
      = (if flushes_output m st1 then EmptyString else currentOutputTranscription st1))
  /\ onTranscript (final r) = onTranscript st.
Proof.
  cbv zeta. rewrite handleMessage_final, handleMessage_trace. cbv zeta.
  destruct (before_audio_transcripts m st) as (Bi & Bo). cbv zeta in Bi, Bo.
  destruct (before_audio_frame m st) as (_ & _ & _ & _ & _ & _ & _ & _ & Bt & _).
  set (st1 := after_transcription m st) in *.
  set (st2 := before_audio m st) in *.
  destruct (handleAudio_frame m now st2) as (Fi & Fo & Ft & Ftr & _).
  destruct (tool_call_events_plain st (functionCalls m)) as [Hp _].
  destruct (handleInterrupted_events m (final (handleAudio m now st2))) as (Hi & _ & _).
  assert (Htrace : transcripts
                     (flat_map (tool_call_events st) (functionCalls m)
                      ++ turnComplete_events m st1
                      ++ trace (handleAudio m now st2)
                      ++ match outcome (handleAudio m now st2) with
                         | inl _ => microtask_events (final (handleAudio m now st2))
                         | inr _ =>
                             trace (handleInterrupted m (final (handleAudio m now st2)))
                             ++ microtask_events
                                  (final (handleInterrupted m
                                            (final (handleAudio m now st2))))
                         end)
                   = transcripts (turnComplete_events m st1)).
  { rewrite !transcripts_app, Hp, Ftr. cbn [app].
    destruct (outcome (handleAudio m now st2)).
    - destruct (microtask_events_plain (final (handleAudio m now st2))) as [Hm _].
      now rewrite Hm, app_nil_r.
    - destruct (microtask_events_plain
                  (final (handleInterrupted m (final (handleAudio m now st2)))))
        as [Hm _].
      now rewrite transcripts_app, Hi, Hm, app_nil_r. }
  rewrite Htrace, turnComplete_events_transcripts.
  split; [reflexivity|].
  change (currentInputTranscription (after_microtasks ?x))
    with (currentInputTranscription x).
  change (currentOutputTranscription (after_microtasks ?x))
    with (currentOutputTranscription x).
  change (onTranscript (after_microtasks ?x)) with (onTranscript x).
  destruct (outcome (handleAudio m now st2)) as [e|[]].
  - rewrite Fi, Fo, Ft, Bi, Bo, Bt. repeat split; auto.
  - rewrite handleInterrupted_eq.
    destruct (isInterrupted m); rewrite final_mk.
    + unfold after_interrupted.
      cbn [currentInputTranscription currentOutputTranscription onTranscript
           set_currentOutputTranscription set_voiceActivity set_currentStatus
           set_nextStartTime set_sources].
      rewrite Fi, Ft, Bi, Bt. repeat split; auto. discriminate.
    + rewrite Fi, Fo, Ft, Bi, Bo, Bt. repeat split; auto.
Qed.

Lemma handleMessages_accumulate fragments :
  forall st,
    Forall (fun p => isTurnComplete (fst p) = false /\ isInterrupted (fst p) = false)
           fragments ->
    let st' := fst (handleMessages fragments st) in
    currentInputTranscription st'
    = (currentInputTranscription st
       ++ join (map (fun p => inputFragment (fst p)) fragments))%string
    /\ currentOutputTranscription st'
       = (currentOutputTranscription st
          ++ join (map (fun p => outputFragment (fst p)) fragments))%string
    /\ onTranscript st' = onTranscript st
    /\ transcripts (snd (handleMessages fragments st)) = [].
Proof.
  induction fragments as [|[m now] rest IH]; intros st Hf.
  - cbn. rewrite !append_empty_r. repeat split.
  - inversion Hf as [|? ? [Htc Hni] Hrest]; subst. cbn [fst] in Htc, Hni.
    cbn [handleMessages].
    destruct (handleMessage_transcripts m now st) as (Ht & Hin & _ & Hout & Hcb).
    specialize (Hout Hni).
    unfold flushes_input, flushes_output in Ht, Hin, Hout. rewrite Htc in Ht, Hin, Hout.
    cbn [andb app] in Ht, Hin, Hout.
    specialize (IH (final (handleMessage m now st)) Hrest). cbv zeta in IH.
    destruct (handleMessages rest (final (handleMessage m now st))) as [st' t].
    cbn [fst snd] in *. destruct IH as (I1 & I2 & I3 & I4).
    rewrite I1, I2, I3, Hin, Hout, Hcb.
    unfold transcripts in *. rewrite flat_map_app, Ht, I4.
    cbn [map join fold_right fst]. fold (join (map (fun p => inputFragment (fst p)) rest)).
    fold (join (map (fun p => outputFragment (fst p)) rest)).
    unfold after_transcription.
    cbn [currentInputTranscription currentOutputTranscription
         set_currentInputTranscription set_currentOutputTranscription].
    rewrite !append_associative. repeat split.
Qed.

(** C5, as amended (turn flush).  With a transcript callback
    registered, after any sequence of messages carrying fragments (no
    turn-complete and no interruption signal) followed by a turn-complete
    message: nothing was flushed before the turn-complete message; that
    message flushes each accumulator whose text is not empty once
    trimmed, once, input as [user] then output as [model], and resets it;
    an accumulator holding only white space is neither flushed nor reset;
    a second turn-complete message without fragments flushes nothing. *)
Theorem turn_flush_once :
  forall (fragments : list (LiveServerMessage * Q))
         (turn second : LiveServerMessage) (now now2 : Q) (st : LiveClient),
    onTranscript st = true ->
    Forall (fun p => isTurnComplete (fst p) = false /\ isInterrupted (fst p) = false)
           fragments ->
    isTurnComplete turn = true ->
    isTurnComplete second = true ->
    inputFragment second = EmptyString ->
    outputFragment second = EmptyString ->
    let acc_in :=
      (currentInputTranscription st
       ++ join (map (fun p => inputFragment (fst p)) fragments)
       ++ inputFragment turn)%string in
    let acc_out :=
      (currentOutputTranscription st
       ++ join (map (fun p => outputFragment (fst p)) fragments)
       ++ outputFragment turn)%string in
    let r := handleMessage turn now (fst (handleMessages fragments st)) in
    transcripts (snd (handleMessages fragments st)) = []
    /\ transcripts (trace r)
       = (if truthy (trim acc_in) then [(acc_in, user)] else [])
         ++ (if truthy (trim acc_out) then [(acc_out, model)] else [])
    /\ currentInputTranscription (final r)
       = (if truthy (trim acc_in) then EmptyString else acc_in)
    /\ (truthy (trim acc_out) = true -> currentOutputTranscription (final r) = EmptyString)
    /\ (isInterrupted turn = false ->
        currentOutputTranscription (final r)
        = (if truthy (trim acc_out) then EmptyString else acc_out))
    /\ transcripts (trace (handleMessage second now2 (final r))) = [].
Proof.
  intros fragments turn second now now2 st Hcb Hf Htc Htc2 Hi2 Ho2 acc_in acc_out r.
  destruct (handleMessages_accumulate fragments st Hf) as (A1 & A2 & A3 & A4).
  set (st0 := fst (handleMessages fragments st)) in *.
  destruct (handleMessage_transcripts turn now st0) as (Ht & Hin & Hout & Hout' & Hcb').
  fold r in Ht, Hin, Hout, Hout', Hcb'.
  unfold flushes_input, flushes_output, after_transcription in Ht, Hin, Hout, Hout'.
  cbn [currentInputTranscription currentOutputTranscription onTranscript
       set_currentInputTranscription set_currentOutputTranscription]
    in Ht, Hin, Hout, Hout'.
  rewrite ?Htc, ?A1, ?A2, ?A3, ?Hcb, ?append_associative, ?andb_true_r in Ht.
  rewrite ?Htc, ?A1, ?A2, ?A3, ?Hcb, ?append_associative, ?andb_true_r in Hin.
  rewrite ?Htc, ?A1, ?A2, ?A3, ?Hcb, ?append_associative, ?andb_true_r in Hout.
  rewrite ?Htc, ?A1, ?A2, ?A3, ?Hcb, ?append_associative, ?andb_true_r in Hout'.
  cbn [andb] in Ht, Hin, Hout, Hout'.
  fold acc_in in Ht, Hin. fold acc_out in Ht, Hout, Hout'.
  split; [exact A4|]. split; [exact Ht|]. split; [exact Hin|].
  split.
  { intros Hne. rewrite Hne in Hout. now destruct Hout. }
  split; [exact Hout'|].
  destruct (handleMessage_transcripts second now2 (final r)) as (Ht2 & _).
  rewrite Ht2. unfold flushes_input, flushes_output, after_transcription.
  cbn [currentInputTranscription currentOutputTranscription onTranscript
       set_currentInputTranscription set_currentOutputTranscription].
  rewrite Hi2, Ho2, !append_empty_r, Hin.
  assert (E1 : truthy (trim (if truthy (trim acc_in) then EmptyString else acc_in)) = false).
  { destruct (truthy (trim acc_in)) eqn:E; [reflexivity | exact E]. }
  assert (E2 : truthy (trim (currentOutputTranscription (final r))) = false).
  { destruct Hout as [-> | ->]; [reflexivity|].
    destruct (truthy (trim acc_out)) eqn:E; [reflexivity | exact E]. }
  rewrite E1, E2. cbn [andb]. rewrite !andb_false_r. reflexivity.
Qed.

(* ---------------- disconnect ---------------- *)

Lemma closeSession_eq env st :
  closeSession env st
  = (inr tt, set_sessionPromise st None, closeSession_events env st).
Proof.
  unfold closeSession, closeSession_events. rewrite bind_get.
  destruct (sessionPromise st) as [p|] eqn:E.
  2:{ unfold ret. f_equal. f_equal. destruct st; cbn in *. now subst. }
  destruct p as [reactions| |].
  - destruct (pending_fulfils env); [|reflexivity].
    cbn [when]. unfold bind at 1. unfold try_catch. unfold bind at 1.
    rewrite (for_each_emit reactions call_event st).
    unfold bind, when, emit, modify, throw, ret.
    destruct (session_close_throws env); cbn [fst snd app];
      rewrite ?app_nil_r; try reflexivity.
    now rewrite <- app_assoc.
  - unfold bind, try_catch, when, emit, modify, throw, ret.
    destruct (session_close_throws env); reflexivity.
  - reflexivity.
Qed.

Lemma stopRecorder_eq env st :
  stopRecorder env st
  = (inr tt, after_stopRecorder env st, stopRecorder_events env st).
Proof.
  unfold stopRecorder, after_stopRecorder, stopRecorder_events, recorder_active,
    assembled_recording.
  rewrite bind_get.
  destruct (mediaRecorder st) as [r|] eqn:E.
  2:{ unfold ret. cbn [andb]. f_equal. f_equal. destruct st; cbn in *. now subst. }
  destruct (is_inactive (rec_state r)) eqn:Ei; cbn [negb when andb].
  { unfold ret. f_equal. f_equal. destruct st; cbn in *. subst.
    destruct r as [[| |] mime]; try discriminate. reflexivity. }
  rewrite bind_emit, bind_modify.
  unfold ondataavailable, onstop.
  destruct (Nat.ltb 0 (blob_size (final_data env))) eqn:Ed; cbn [when].
  - rewrite bind_modify, bind_get.
    cbn [mediaRecorder audioChunks onAudioRecord set_audioChunks set_mediaRecorder
         rec_mimeType].
    destruct (onAudioRecord st && Nat.ltb 0 (blob_size _)); reflexivity.
  - rewrite bind_ret, bind_get.
    cbn [mediaRecorder audioChunks onAudioRecord set_audioChunks set_mediaRecorder
         rec_mimeType].
    rewrite app_nil_r.
    destruct (onAudioRecord st && Nat.ltb 0 (blob_size _)); cbn [when];
      unfold emit, ret, outcome, final, trace; cbn [fst snd];
      f_equal; f_equal; destruct st; cbn in *; reflexivity.
Qed.

Lemma clearVolumeInterval_eq st :
  clearVolumeInterval st
  = (inr tt, set_outputVolumeInterval st None, clearInterval_events st).
Proof.
  unfold clearVolumeInterval, clearInterval_events. rewrite bind_get.
  destruct (outputVolumeInterval st) eqn:E.
  - reflexivity.
  - unfold ret. f_equal. f_equal. destruct st; cbn in *. now subst.
Qed.

Lemma stopTracks_eq st :
  stopTracks st = (inr tt, set_stream st None, stopTracks_events st).
Proof.
  unfold stopTracks, stopTracks_events. rewrite bind_get.
  destruct (stream st) as [tracks|] eqn:E.
  - rewrite (bind_normal _ _ _ _ _ _ (for_each_emit tracks TrackStop st)).
    unfold modify, outcome, final, trace. cbn. now rewrite app_nil_r.
  - unfold ret. f_equal. f_equal. destruct st; cbn in *. now subst.
Qed.

Lemma disconnectInputNode_eq st :
  disconnectInputNode st = (inr tt, set_inputNode st false, inputNode_events st).
Proof.
  unfold disconnectInputNode, inputNode_events. rewrite bind_get.
  destruct (inputNode st) eqn:E; cbn [when].
  - reflexivity.
  - unfold ret. f_equal. f_equal. destruct st; cbn in *. now subst.
Qed.

Lemma closeInputContext_eq rejects st :
  closeContext InputContext rejects st
  = (inr tt, set_inputAudioContext st None,
     closeContext_events InputContext rejects (inputAudioContext st)).
Proof.
  unfold closeContext, closeContext_events. rewrite bind_get.
  destruct (inputAudioContext st) as [c|] eqn:E.
  - unfold bind, try_catch, when, emit, modify, throw, ret.
    destruct (is_closed c); cbn [negb]; [reflexivity|].
    destruct rejects; reflexivity.
  - unfold ret. f_equal. f_equal. destruct st; cbn in *. now subst.
Qed.

Lemma closeOutputContext_eq rejects st :
  closeContext OutputContext rejects st
  = (inr tt, set_outputAudioContext st None,
     closeContext_events OutputContext rejects (outputAudioContext st)).
Proof.
  unfold closeContext, closeContext_events. rewrite bind_get.
  destruct (outputAudioContext st) as [c|] eqn:E.
  - unfold bind, try_catch, when, emit, modify, throw, ret.
    destruct (is_closed c); cbn [negb]; [reflexivity|].
    destruct rejects; reflexivity.
  - unfold ret. f_equal. f_equal. destruct st; cbn in *. now subst.
Qed.

Lemma stopSources_eq st :
  stopSources st = (inr tt, set_sources st [], map SourceStop (sources st)).
Proof.
  unfold stopSources. rewrite bind_get.
  rewrite (bind_normal _ _ _ _ _ _ (for_each_emit (sources st) SourceStop st)).
  unfold modify, outcome, final, trace. cbn. now rewrite app_nil_r.
Qed.

Lemma disconnect_eq env st :
  disconnect env st = (inr tt, after_disconnect env st, teardown_events env st).
Proof.
  unfold disconnect.
  rewrite (bind_normal _ _ _ _ _ _ (closeSession_eq env st)).
  rewrite (bind_normal _ _ _ _ _ _ (stopRecorder_eq env _)).
  rewrite (bind_normal _ _ _ _ _ _ (clearVolumeInterval_eq _)).
  rewrite (bind_normal _ _ _ _ _ _ (stopTracks_eq _)).
  rewrite (bind_normal _ _ _ _ _ _ (disconnectInputNode_eq _)).
  rewrite (bind_normal _ _ _ _ _ _ (closeInputContext_eq _ _)).
  rewrite (bind_normal _ _ _ _ _ _ (closeOutputContext_eq _ _)).
  rewrite (bind_normal _ _ _ _ _ _ (stopSources_eq _)).
  rewrite setStatus_closed, !outcome_mk, !final_mk, !trace_mk.
  unfold after_disconnect, teardown_events, status_after, status_events.
  change (negb (status_eqb idle idle)) with false.
  rewrite !andb_false_r. cbn [andb].
  reflexivity.
Qed.

Lemma from_step_segment k k' seg rest :
  (1 <= k <= k')%nat -> (k <= 8)%nat ->
  Forall (fun e => teardown_step e = k) seg ->
  from_step k' rest ->
  from_step k (seg ++ rest).
Proof.
  intros Hk Hk8 Hseg [Hsorted Hbound].
  induction Hseg as [|e seg He _ IH]; cbn [app map].
  - split; [exact Hsorted|]. eapply Forall_impl; [|exact Hbound].
    cbn. intros. lia.
  - destruct IH as [IH1 IH2]. split.
    + constructor; [exact IH1|].
      apply Forall_map. eapply Forall_impl; [|exact IH2]. cbn. intros. lia.
    + constructor; [lia | exact IH2].
Qed.

Lemma closeSession_events_step env st :
  Forall (fun e => teardown_step e = 1%nat) (closeSession_events env st).
Proof.
  unfold closeSession_events. destruct (sessionPromise st) as [p|]; [|constructor].
  destruct (match p with
            | Fulfilled => true
            | Rejected => false
            | Pending _ => pending_fulfils env
            end); [|constructor].
  apply Forall_app. split.
  - destruct p as [reactions| |]; [|constructor|constructor].
    apply Forall_map. apply Forall_forall. intros [id name result|media] _; reflexivity.
  - destruct (session_close_throws env); repeat constructor.
Qed.

Lemma stopRecorder_events_step env st :
  Forall (fun e => teardown_step e = 2%nat) (stopRecorder_events env st).
Proof.
  unfold stopRecorder_events. destruct (recorder_active st); [|constructor].
  destruct (onAudioRecord st && Nat.ltb 0 (blob_size (assembled_recording env st)));
    repeat constructor.
Qed.

Lemma closeContext_events_step which rejects c :
  Forall (fun e => teardown_step e = 6%nat) (closeContext_events which rejects c).
Proof.
  unfold closeContext_events. destruct c as [s|]; [|constructor].
  destruct (is_closed s); [constructor|].
  destruct rejects; repeat constructor.
Qed.

Lemma teardown_events_sorted env st : from_step 1 (teardown_events env st).
Proof.
  unfold teardown_events.
  apply (from_step_segment 1 2); [lia | lia | apply closeSession_events_step|].
  apply (from_step_segment 2 3); [lia | lia | apply stopRecorder_events_step|].
  apply (from_step_segment 3 4); [lia | lia | |].
  { unfold clearInterval_events. destruct (outputVolumeInterval st); repeat constructor. }
  apply (from_step_segment 4 5); [lia | lia | |].
  { unfold stopTracks_events. destruct (stream st) as [l|]; [|constructor].
    apply Forall_map. apply Forall_forall. reflexivity. }
  apply (from_step_segment 5 6); [lia | lia | |].
  { unfold inputNode_events. destruct (inputNode st); repeat constructor. }
  apply (from_step_segment 6 6); [lia | lia | apply closeContext_events_step|].
  apply (from_step_segment 6 7); [lia | lia | apply closeContext_events_step|].
  apply (from_step_segment 7 8); [lia | lia | |].
  { apply Forall_map. apply Forall_forall. reflexivity. }
  destruct (onStatusChange st); split; cbn; repeat constructor.
Qed.

(** C6 (teardown order).  From every state and whatever the platform
    answers, [disconnect] ends normally and its trace is the events of
    its eight steps in order: session close, recorder stop and the
    hand-over of the assembled recording, interval cancellation, track
    stops, capture node disconnection, the closing of the two contexts
    (a failure to close is logged and tolerated), the stopping of the
    playback segments, and the status callback for [idle].  Each step is
    performed when it applies, and the resources are null afterwards. *)
Theorem teardown_order :
  forall (env : TeardownEnv) (st : LiveClient),
    let r := disconnect env st in
    outcome r = inr tt
    /\ trace r
       = closeSession_events env st
         ++ stopRecorder_events env st
         ++ clearInterval_events st
         ++ stopTracks_events st
         ++ inputNode_events st
         ++ closeContext_events InputContext (input_close_rejects env)
              (inputAudioContext st)
         ++ closeContext_events OutputContext (output_close_rejects env)
              (outputAudioContext st)
         ++ map SourceStop (sources st)
         ++ (if onStatusChange st then [StatusChange idle] else [])
    /\ StronglySorted le (map teardown_step (trace r))
    /\ Forall (fun e => (1 <= teardown_step e <= 8)%nat) (trace r)
    /\ (sessionPromise st = Some Fulfilled -> In SessionClose (trace r))
    /\ (recorder_active st = true ->
        In RecorderStop (trace r)
        /\ (onAudioRecord st = true ->
            (0 < blob_size (assembled_recording env st))%nat ->
            In (AudioRecord (assembled_recording env st)) (trace r)))
    /\ (forall timer, outputVolumeInterval st = Some timer ->
          In (ClearInterval timer) (trace r))
    /\ (forall tracks track, stream st = Some tracks -> In track tracks ->
          In (TrackStop track) (trace r))
    /\ (inputNode st = true -> In InputNodeDisconnect (trace r))
    /\ (forall c, inputAudioContext st = Some c -> is_closed c = false ->
          In (ContextClose InputContext) (trace r))
    /\ (forall c, outputAudioContext st = Some c -> is_closed c = false ->
          In (ContextClose OutputContext) (trace r))
    /\ (forall s, In s (sources st) -> In (SourceStop s) (trace r))
    /\ (onStatusChange st = true -> In (StatusChange idle) (trace r))
    /\ sessionPromise (final r) = None
    /\ recorder_active (final r) = false
    /\ outputVolumeInterval (final r) = None
    /\ stream (final r) = None
    /\ inputNode (final r) = false
    /\ inputAudioContext (final r) = None
    /\ outputAudioContext (final r) = None
    /\ sources (final r) = []
    /\ currentStatus (final r) = idle.
Proof.
  intros env st r. subst r. rewrite disconnect_eq, outcome_mk, trace_mk, final_mk.
  destruct (teardown_events_sorted env st) as [Hsorted Hbound].
  split; [reflexivity|]. split; [reflexivity|].
  split; [exact Hsorted|]. split; [exact Hbound|].
  unfold teardown_events.
  split.
  { intros H. apply in_or_app; left. unfold closeSession_events. rewrite H. now left. }
  split.
  { intros H. split.
    - apply in_or_app; right. apply in_or_app; left.
      unfold stopRecorder_events. rewrite H. now left.
    - intros Hcb Hsize. apply in_or_app; right. apply in_or_app; left.
      unfold stopRecorder_events. rewrite H, Hcb.
      apply Nat.ltb_lt in Hsize. rewrite Hsize. right; now left. }
  split.
  { intros timer H. do 2 (apply in_or_app; right). apply in_or_app; left.
    unfold clearInterval_events. rewrite H. now left. }
  split.
  { intros tracks track H Hin. do 3 (apply in_or_app; right). apply in_or_app; left.
    unfold stopTracks_events. rewrite H. now apply in_map. }
  split.
  { intros H. do 4 (apply in_or_app; right). apply in_or_app; left.
    unfold inputNode_events. rewrite H. now left. }
  split.
  { intros c H Hc. do 5 (apply in_or_app; right). apply in_or_app; left.
    unfold closeContext_events. rewrite H, Hc. now left. }
  split.
  { intros c H Hc. do 6 (apply in_or_app; right). apply in_or_app; left.
    unfold closeContext_events. rewrite H, Hc. now left. }
  split.
  { intros s H. do 7 (apply in_or_app; right). apply in_or_app; left.
    now apply in_map. }
  split.
  { intros H. do 8 (apply in_or_app; right). rewrite H. now left. }
  unfold after_disconnect, after_stopRecorder, recorder_active. cbn.
  repeat split. destruct (mediaRecorder st); reflexivity.
Qed.

Lemma after_disconnect_idempotent env1 env2 st :
  after_disconnect env2 (after_disconnect env1 st) = after_disconnect env1 st.
Proof.
  destruct st as [? ? ? ? ? ? ? ? ? ? ? ? ? [[rs mime]|] ? ? ? ? ? ? ? ? ? ? ?];
    vm_compute; reflexivity.
Qed.

Lemma teardown_events_again env1 env2 st :
  teardown_events env2 (after_disconnect env1 st)
  = if onStatusChange st then [StatusChange idle] else [].
Proof.
  destruct st as [? ? ? ? ? ? ? ? ? ? ? ? ? [[rs mime]|] ? ? ? ? ? ? ? ? ? ? ?];
    vm_compute; reflexivity.
Qed.

(** C7 (idempotent teardown).  From every state [disconnect] ends
    normally in status [idle]; a second call right after it ends
    normally too, leaves the same state and does nothing but report
    [idle] again; on a client that never connected it does nothing more
    than report [idle]. *)
Theorem teardown_idempotent :
  forall (env1 env2 : TeardownEnv) (st : LiveClient),
    let r1 := disconnect env1 st in
    let r2 := disconnect env2 (final r1) in
    outcome r1 = inr tt
    /\ currentStatus (final r1) = idle
    /\ outcome r2 = inr tt
    /\ currentStatus (final r2) = idle
    /\ final r2 = final r1
    /\ trace r2 = (if onStatusChange st then [StatusChange idle] else [])
    /\ disconnect env1 new_LiveClient = (inr tt, new_LiveClient, [])
    /\ disconnect env1 observed_client = (inr tt, observed_client, [StatusChange idle]).
Proof.
  intros env1 env2 st r1 r2. subst r1 r2.
  rewrite !disconnect_eq, !outcome_mk, !final_mk, !trace_mk.
  rewrite after_disconnect_idempotent, teardown_events_again.
  repeat split.
Qed.

(* ---------------- connect ---------------- *)

Lemma onopen_eq env st :
  onopen env st = (inr tt, after_onopen env st, onopen_events env st).
Proof.
  unfold onopen, after_onopen, onopen_events.
  rewrite (bind_normal _ _ _ _ _ _ (setStatus_closed listening st)).
  assert (Ha : startAudioInput (set_currentStatus st (status_after listening st))
               = (inr tt,
                  set_inputNode (set_currentStatus st (status_after listening st))
                    (match inputAudioContext st, stream st, sessionPromise st with
                     | Some _, Some _, Some _ => true
                     | _, _, _ => inputNode st
                     end), [])).
  { unfold startAudioInput. rewrite bind_get.
    cbn [inputAudioContext stream sessionPromise set_currentStatus].
    destruct (inputAudioContext st) eqn:E1; destruct (stream st) eqn:E2;
      destruct (sessionPromise st) eqn:E3; try reflexivity;
      unfold ret; f_equal; f_equal; destruct st; cbn in *; subst; reflexivity. }
  rewrite (bind_normal _ _ _ _ _ _ Ha).
  unfold startOutputVolumeMonitoring, clearInterval_events.
  rewrite bind_get. cbn [outputVolumeInterval set_inputNode set_currentStatus].
  destruct (outputVolumeInterval st);
    unfold bind, emit, modify, ret, outcome, final, trace; cbn;
    rewrite ?app_nil_r; reflexivity.
Qed.

Lemma connectWithRetry_open env retries rank st :
  attempt env rank = Opened ->
  connectWithRetry env retries rank st
  = (inr tt, after_onopen env st, ConnectAttempt rank :: onopen_events env st).
Proof.
  intros H. destruct retries; cbn [connectWithRetry];
    rewrite bind_emit, H, onopen_eq; reflexivity.
Qed.

Lemma connectWithRetry_propagates env retries rank st message status :
  attempt env rank = Failed message status ->
  retries = 0%nat \/ is_unavailable message status = false ->
  connectWithRetry env retries rank st
  = (inl (ConnectError message status), st, [ConnectAttempt rank]).
Proof.
  intros H Hd. destruct retries; cbn [connectWithRetry]; rewrite bind_emit, H.
  - reflexivity.
  - destruct Hd as [Hd|Hd]; [discriminate|]. rewrite Hd. reflexivity.
Qed.

Lemma connectWithRetry_retries env retries rank st :
  transient_failure (attempt env rank) = true ->
  connectWithRetry env (S retries) rank st
  = (outcome (connectWithRetry env retries (S rank) st),
     final (connectWithRetry env retries (S rank) st),
     ConnectAttempt rank :: Console (RetryingConnection (S retries)) :: Wait 1500
     :: trace (connectWithRetry env retries (S rank) st)).
Proof.
  intros H. cbn [connectWithRetry]. rewrite bind_emit.
  destruct (attempt env rank) as [|message status]; [discriminate|].
  cbn [transient_failure] in H. rewrite H, !bind_emit, !outcome_mk, !final_mk, !trace_mk.
  reflexivity.
Qed.

Lemma flat_map_seq_shift {A} (f : nat -> list A) a k :
  flat_map f (seq (S a) k) = flat_map (fun i => f (S i)) (seq a k).
Proof.
  rewrite <- seq_shift, !flat_map_concat_map, map_map. reflexivity.
Qed.

Lemma connectWithRetry_prefix env k :
  forall retries rank st,
    (forall i, (i < k)%nat -> transient_failure (attempt env (rank + i)) = true) ->
    (k <= retries)%nat ->
    connectWithRetry env retries rank st
    = (outcome (connectWithRetry env (retries - k) (rank + k) st),
       final (connectWithRetry env (retries - k) (rank + k) st),
       retry_events rank retries k
       ++ trace (connectWithRetry env (retries - k) (rank + k) st)).
Proof.
  induction k as [|k IH]; intros retries rank st Ht Hk.
  - rewrite Nat.sub_0_r, Nat.add_0_r. apply run_eta.
  - destruct retries as [|retries]; [lia|].
    rewrite connectWithRetry_retries
      by (specialize (Ht 0%nat ltac:(lia)); now rewrite Nat.add_0_r in Ht).
    rewrite (IH retries (S rank) st), !outcome_mk, !final_mk, !trace_mk.
    2:{ intros i Hi. specialize (Ht (S i) ltac:(lia)).
        now replace (S rank + i)%nat with (rank + S i)%nat by lia. }
    2:{ lia. }
    replace (S rank + k)%nat with (rank + S k)%nat by lia.
    cbn [Nat.sub]. f_equal.
    unfold retry_events. cbn [seq flat_map]. rewrite Nat.add_0_r, Nat.sub_0_r.
    cbn [app]. do 3 f_equal. f_equal.
    rewrite flat_map_seq_shift.
    apply flat_map_ext. intros i.
    replace (S rank + i)%nat with (rank + S i)%nat by lia. reflexivity.
Qed.

Lemma retry_events_S rank retries k :
  retry_events rank retries (S k)
  = ConnectAttempt rank :: Console (RetryingConnection retries) :: Wait 1500
    :: retry_events (S rank) (retries - 1) k.
Proof.
  unfold retry_events. cbn [seq flat_map app].
  rewrite Nat.add_0_r, Nat.sub_0_r. do 3 f_equal.
  rewrite flat_map_seq_shift. apply flat_map_ext. intros i.
  replace (rank + S i)%nat with (S rank + i)%nat by lia.
  replace (retries - S i)%nat with (retries - 1 - i)%nat by lia. reflexivity.
Qed.

Lemma retry_events_observed k :
  forall rank retries,
    attempts (retry_events rank retries k) = seq rank k
    /\ waits (retry_events rank retries k) = repeat 1500 k.
Proof.
  induction k as [|k IH]; intros rank retries; [split; reflexivity|].
  rewrite retry_events_S. destruct (IH (S rank) (retries - 1)%nat) as [IH1 IH2].
  unfold attempts, waits in *. cbn [flat_map app seq repeat].
  rewrite IH1, IH2. split; reflexivity.
Qed.

Lemma setupRecording_eq env st :
  setupRecording env st
  = (inr tt, after_setupRecording env st, setupRecording_events env).
Proof.
  unfold setupRecording, after_setupRecording, setupRecording_events, try_catch.
  destruct (recorder_constructor_throws env); cbn [when orb].
  - rewrite bind_throw_now. unfold emit. cbn. f_equal. f_equal. now destruct st.
  - rewrite bind_ret, bind_modify.
    destruct (recorder_start_throws env); cbn [when].
    + rewrite bind_throw_now. unfold emit. cbn. reflexivity.
    + rewrite bind_ret, bind_emit. unfold modify, outcome, final, trace. cbn. reflexivity.
Qed.

Lemma status_after_error st : status_after error st = error.
Proof. unfold status_after. destruct (currentStatus st); reflexivity. Qed.

Lemma try_catch_caught {A} (m : Run A) h st e st1 t1 :
  m st = (inl e, st1, t1) ->
  try_catch m h st = (outcome (h e st1), final (h e st1), t1 ++ trace (h e st1)).
Proof.
  intros H. unfold try_catch. rewrite H. now destruct (h e st1) as [[? ?] ?].
Qed.

Lemma try_catch_normal {A} (m : Run A) h st a st1 t1 :
  m st = (inr a, st1, t1) -> try_catch m h st = (inr a, st1, t1).
Proof. intros H. unfold try_catch. now rewrite H. Qed.

(** The teardown that the [catch] block of [connect] starts: with a
    session promise it is suspended on it at once. *)
Lemma disconnect_start_session st p :
  sessionPromise st = Some p ->
  disconnect_start st = (inr (Some AtSession), st, []).
Proof. intros H. unfold disconnect_start. rewrite bind_get, H. reflexivity. Qed.

(** Without a session, without a recorder that records, and with an
    input context that is open, it runs up to the call that closes the
    input context. *)
Lemma disconnect_start_input st c :
  sessionPromise st = None ->
  recorder_active st = false ->
  outputVolumeInterval st = None ->
  stream st = None ->
  inputNode st = false ->
  inputAudioContext st = Some c ->
  is_closed c = false ->
  disconnect_start st = (inr (Some AtInputClose), st, [ContextClose InputContext]).
Proof.
  unfold recorder_active.
  destruct st as [f1 f2 f3 f4 f5 f6 f7 f8 f9 f10 f11 f12 f13 f14
                  f15 f16 f17 f18 f19 f20 f21 f22 f23 f24 f25].
  cbn [sessionPromise mediaRecorder outputVolumeInterval stream inputNode inputAudioContext].
  intros -> Hr -> -> -> -> Hc.
  unfold disconnect_start. rewrite bind_get. cbn [sessionPromise mediaRecorder].
  assert (Hs : start_at_interval
                 (mkLiveClient (Some c) f2 false f4 f5 f6 f7 None None None f11 f12 f13 f14
                    f15 f16 f17 f18 f19 f20 f21 f22 f23 f24 f25)
               = (inr (Some AtInputClose),
                  mkLiveClient (Some c) f2 false f4 f5 f6 f7 None None None f11 f12 f13 f14
                    f15 f16 f17 f18 f19 f20 f21 f22 f23 f24 f25,
                  [ContextClose InputContext])).
  { unfold start_at_interval, start_at_input, closeContext_call, clearVolumeInterval,
      stopTracks, disconnectInputNode, bind, get, when, emit, modify, ret.
    cbn [outputVolumeInterval stream inputNode inputAudioContext fst snd
         set_outputVolumeInterval set_stream set_inputNode].
    rewrite Hc. reflexivity. }
  destruct f14 as [[rs mime]|]; [|exact Hs].
  cbn [rec_state] in Hr |- *. rewrite Hr. exact Hs.
Qed.

Lemma connecting_state_fields env st :
  let s := set_currentStatus (connecting_state env st) error in
  sessionPromise s = None
  /\ recorder_active s = false
  /\ outputVolumeInterval s = None
  /\ stream s = None
  /\ inputNode s = false
  /\ inputAudioContext s = Some ctx_running
  /\ status_events error (connecting_state env st)
     = (if onStatusChange st then [StatusChange error] else []).
Proof.
  destruct st as [? ? ? ? ? ? ? ? ? ? ? ? ? [[rs mime]|] ? ? ? ? ? ? ? ? ? ? ?];
    vm_compute; repeat split; reflexivity.
Qed.

Lemma connect_failed st point s t :
  disconnect_start (set_currentStatus st error) = (inr point, s, t) ->
  (emit (Console ConnectionFailedFully);; setStatus error;;
   point <- disconnect_start;;
   modify (fun st0 => set_pendingTeardown st0 point);; ret true) st
  = (inr true, set_pendingTeardown s point,
     Console ConnectionFailedFully :: status_events error st ++ t).
Proof.
  intros Hn.
  rewrite bind_emit, (bind_normal _ _ _ _ _ _ (setStatus_closed error st)).
  rewrite status_after_error.
  rewrite (bind_normal _ _ _ _ _ _ Hn), bind_modify. unfold ret.
  rewrite ?outcome_mk, ?final_mk, ?trace_mk, app_nil_r. reflexivity.
Qed.

Lemma dial_throws env st e sr tr :
  connectWithRetry env 3 0 st = (inl e, sr, tr) ->
  try_catch
    (connectWithRetry env 3 0;;
     modify (fun st0 => set_sessionPromise st0 (Some Fulfilled)))
    (fun e0 => modify (fun st0 => set_sessionPromise st0 (Some Rejected));; throw e0)
    st
  = (inl e, set_sessionPromise sr (Some Rejected), tr).
Proof.
  intros Er. unfold try_catch. rewrite (bind_throw _ _ _ _ _ _ Er), bind_modify.
  unfold throw. now rewrite app_nil_r.
Qed.

Lemma dial_opens env st sr tr :
  connectWithRetry env 3 0 st = (inr tt, sr, tr) ->
  try_catch
    (connectWithRetry env 3 0;;
     modify (fun st0 => set_sessionPromise st0 (Some Fulfilled)))
    (fun e0 => modify (fun st0 => set_sessionPromise st0 (Some Rejected));; throw e0)
    st
  = (inr tt, set_sessionPromise sr (Some Fulfilled), tr).
Proof.
  intros Er. unfold try_catch. rewrite (bind_normal _ _ _ _ _ _ Er).
  unfold modify. rewrite ?outcome_mk, ?final_mk, ?trace_mk. now rewrite app_nil_r.
Qed.

Lemma connect_eq env st :
  connect env st
  = match getUserMedia env with
    | None =>
        (inr true,
         set_pendingTeardown (set_currentStatus (connecting_state env st) error)
           (Some AtInputClose),
         connect_prefix env st ++ failure_events st ++ [ContextClose InputContext])
    | Some tracks =>
        let rr := connectWithRetry env 3 0 (dialing_state env st tracks) in
        match outcome rr with
        | inr _ =>
            (inr false, set_sessionPromise (final rr) (Some Fulfilled),
             connect_prefix env st ++ setupRecording_events env ++ trace rr)
        | inl _ =>
            (inr true,
             set_pendingTeardown
               (set_currentStatus (set_sessionPromise (final rr) (Some Rejected)) error)
               (Some AtSession),
             connect_prefix env st ++ setupRecording_events env ++ trace rr
             ++ Console ConnectionFailedFully :: status_events error (final rr))
        end
    end.
Proof.
  unfold connect.
  rewrite (bind_normal _ _ _ _ _ _ (disconnect_eq (teardown env) st)).
  rewrite (bind_normal _ _ _ _ _ _ (setStatus_closed connecting _)).
  rewrite bind_modify.
  match goal with
  | |- context [try_catch ?b ?h ?s] => set (body := b); set (handler := h); set (s0 := s)
  end.
  assert (Hbody :
    body s0
    = match getUserMedia env with
      | None => (inl MediaError, connecting_state env st, [GetUserMedia])
      | Some tracks =>
          let rr := connectWithRetry env 3 0 (dialing_state env st tracks) in
          match outcome rr with
          | inr _ =>
              (inr false, set_sessionPromise (final rr) (Some Fulfilled),
               GetUserMedia :: setupRecording_events env ++ trace rr)
          | inl e =>
              (inl e, set_sessionPromise (final rr) (Some Rejected),
               GetUserMedia :: setupRecording_events env ++ trace rr)
          end
      end).
  { subst body s0. rewrite !bind_modify, bind_emit.
    change (set_outputNodes _ true) with (connecting_state env st).
    destruct (getUserMedia env) as [tracks|]; cbn [lift_option].
    - rewrite bind_ret, bind_modify.
      rewrite (bind_normal _ _ _ _ _ _ (setupRecording_eq env _)).
      rewrite bind_modify. fold (dialing_state env st tracks). cbv zeta.
      destruct (connectWithRetry env 3 0 (dialing_state env st tracks))
        as [[[e|[]] sr] tr] eqn:Er.
      + rewrite (bind_throw _ _ _ _ _ _ (dial_throws _ _ _ _ _ Er)). reflexivity.
      + rewrite (bind_normal _ _ _ _ _ _ (dial_opens _ _ _ _ Er)).
        unfold ret. rewrite ?outcome_mk, ?final_mk, ?trace_mk, app_nil_r. reflexivity.
    - rewrite bind_throw_now, ?outcome_mk, ?final_mk, ?trace_mk. reflexivity. }
  assert (Hpre : forall t,
             teardown_events (teardown env) st
             ++ status_events connecting (after_disconnect (teardown env) st)
             ++ GetUserMedia :: t
             = connect_prefix env st ++ t).
  { intros t. unfold connect_prefix. rewrite <- !app_assoc. reflexivity. }
  destruct (getUserMedia env) as [tracks|].
  - cbv zeta in Hbody. cbv zeta.
    destruct (outcome (connectWithRetry env 3 0 (dialing_state env st tracks))) as [e|[]].
    + rewrite (try_catch_caught _ _ _ _ _ _ Hbody). subst handler. cbv beta.
      rewrite (connect_failed _ _ _ _
                 (disconnect_start_session
                    (set_currentStatus
                       (set_sessionPromise
                          (final (connectWithRetry env 3 0 (dialing_state env st tracks)))
                          (Some Rejected))
                       error)
                    Rejected eq_refl)).
      rewrite ?outcome_mk, ?final_mk, ?trace_mk.
      f_equal. cbn [app]. rewrite Hpre, <- !app_assoc, app_nil_r. reflexivity.
    + rewrite (try_catch_normal _ _ _ _ _ _ Hbody), ?outcome_mk, ?final_mk, ?trace_mk.
      f_equal. apply Hpre.
  - rewrite (try_catch_caught _ _ _ _ _ _ Hbody). subst handler. cbv beta.
    destruct (connecting_state_fields env st) as (C1 & C2 & C3 & C4 & C5 & C6 & C7).
    clear Hbody. remember (connecting_state env st) as D eqn:ED. clear ED.
    rewrite (connect_failed _ _ _ _
               (disconnect_start_input (set_currentStatus D error)
                  ctx_running C1 C2 C3 C4 C5 C6 eq_refl)).
    rewrite ?outcome_mk, ?final_mk, ?trace_mk, C7.
    f_equal. cbn [app]. rewrite Hpre. reflexivity.
Qed.

Lemma observed_app l1 l2 :
  attempts (l1 ++ l2) = attempts l1 ++ attempts l2
  /\ waits (l1 ++ l2) = waits l1 ++ waits l2.
Proof. unfold attempts, waits. now rewrite !flat_map_app. Qed.

Lemma teardown_events_quiet env st :
  attempts (teardown_events env st) = [] /\ waits (teardown_events env st) = [].
Proof.
  destruct (teardown_events_sorted env st) as [_ Hb].
  induction Hb as [|e l He _ [IH1 IH2]]; [split; reflexivity|].
  unfold attempts, waits in *. cbn [flat_map]. rewrite IH1, IH2.
  destruct e; cbn in He; try lia; split; reflexivity.
Qed.

Lemma status_events_quiet s st :
  attempts (status_events s st) = [] /\ waits (status_events s st) = [].
Proof.
  unfold status_events.
  destruct (status_eqb (currentStatus st) error && negb (status_eqb s idle)
            && negb (status_eqb s connecting)); [split; reflexivity|].
  destruct (onStatusChange st); split; reflexivity.
Qed.

Lemma connect_prefix_quiet env st :
  attempts (connect_prefix env st) = [] /\ waits (connect_prefix env st) = [].
Proof.
  unfold connect_prefix. destruct (teardown_events_quiet (teardown env) st) as [H1 H2].
  destruct (observed_app (teardown_events (teardown env) st)
              ((if onStatusChange st then [StatusChange connecting] else [])
               ++ [GetUserMedia])) as [-> ->].
  rewrite H1, H2. destruct (onStatusChange st); split; reflexivity.
Qed.

Lemma setupRecording_events_quiet env :
  attempts (setupRecording_events env) = [] /\ waits (setupRecording_events env) = [].
Proof.
  unfold setupRecording_events.
  destruct (recorder_constructor_throws env || recorder_start_throws env);
    split; reflexivity.
Qed.

Lemma onopen_events_quiet env st :
  attempts (onopen_events env st) = [] /\ waits (onopen_events env st) = [].
Proof.
  unfold onopen_events, clearInterval_events.
  destruct (status_events_quiet listening st) as [H1 H2].
  destruct (observed_app (status_events listening st)
              (match outputVolumeInterval st with
               | Some timer => [ClearInterval timer]
               | None => []
               end ++ [SetInterval (interval_handle env) 50])) as [-> ->].
  rewrite H1, H2. destruct (outputVolumeInterval st); split; reflexivity.
Qed.

(** The attempts of [connectWithRetry] once [k] transient failures are
    followed by an opening. *)
Lemma connectWithRetry_opens env k st :
  (k <= 3)%nat ->
  (forall i, (i < k)%nat -> transient_failure (attempt env i) = true) ->
  attempt env k = Opened ->
  connectWithRetry env 3 0 st
  = (inr tt, after_onopen env st,
     retry_events 0 3 k ++ ConnectAttempt k :: onopen_events env st).
Proof.
  intros Hk Ht Ho.
  rewrite (connectWithRetry_prefix env k 3 0 st Ht Hk).
  cbn [Nat.add]. rewrite (connectWithRetry_open env _ k st Ho).
  reflexivity.
Qed.

Lemma connectWithRetry_fails env k st message status :
  (k <= 3)%nat ->
  (forall i, (i < k)%nat -> transient_failure (attempt env i) = true) ->
  attempt env k = Failed message status ->
  k = 3%nat \/ is_unavailable message status = false ->
  connectWithRetry env 3 0 st
  = (inl (ConnectError message status), st, retry_events 0 3 k ++ [ConnectAttempt k]).
Proof.
  intros Hk Ht Hf Hd.
  rewrite (connectWithRetry_prefix env k 3 0 st Ht Hk).
  cbn [Nat.add].
  rewrite (connectWithRetry_propagates env _ k st message status Hf).
  - reflexivity.
  - destruct Hd as [->|Hd]; [now left | now right].
Qed.

Lemma decisive_attempt env :
  exists k, (k <= 3)%nat
    /\ (forall i, (i < k)%nat -> transient_failure (attempt env i) = true)
    /\ (k = 3%nat \/ transient_failure (attempt env k) = false).
Proof.
  destruct (transient_failure (attempt env 0)) eqn:E0.
  2:{ exists 0%nat. repeat split; [lia | intros; lia | now right]. }
  destruct (transient_failure (attempt env 1)) eqn:E1.
  2:{ exists 1%nat. repeat split; [lia | | now right].
      intros i Hi. now replace i with 0%nat by lia. }
  destruct (transient_failure (attempt env 2)) eqn:E2.
  2:{ exists 2%nat. repeat split; [lia | | now right].
      intros i Hi. destruct i as [|[|i]]; [assumption | assumption | lia]. }
  exists 3%nat. repeat split; [lia | | now left].
  intros i Hi. destruct i as [|[|[|i]]]; [assumption | assumption | assumption | lia].
Qed.

Lemma dialing_state_status env st tracks :
  currentStatus (dialing_state env st tracks) = connecting.
Proof.
  destruct st as [? ? ? ? ? ? ? ? ? ? ? ? ? [[rs mime]|] ? ? ? ? ? ? ? ? ? ? ?];
    vm_compute; reflexivity.
Qed.

Lemma connect_after_opening env st tracks k :
  getUserMedia env = Some tracks ->
  (k <= 3)%nat ->
  (forall i, (i < k)%nat -> transient_failure (attempt env i) = true) ->
  attempt env k = Opened ->
  let r := connect env st in
  outcome r = inr false
  /\ currentStatus (final r) = listening
  /\ sessionPromise (final r) = Some Fulfilled
  /\ attempts (trace r) = seq 0 (S k)
  /\ waits (trace r) = repeat 1500 k.
Proof.
  intros Hg Hk Ht Ho. cbv zeta. rewrite connect_eq, Hg. cbv zeta.
  rewrite (connectWithRetry_opens env k _ Hk Ht Ho), ?outcome_mk, ?final_mk, ?trace_mk.
  destruct (connect_prefix_quiet env st) as [P1 P2].
  destruct (setupRecording_events_quiet env) as [S1 S2].
  destruct (retry_events_observed k 0 3) as [R1 R2].
  destruct (onopen_events_quiet env (dialing_state env st tracks)) as [O1 O2].
  pose proof (dialing_state_status env st tracks) as HD.
  remember (dialing_state env st tracks) as D eqn:ED. clear ED.
  split; [reflexivity|].
  split.
  { unfold after_onopen, status_after.
    cbn [currentStatus set_sessionPromise set_outputVolumeInterval set_inputNode
         set_currentStatus].
    rewrite HD. reflexivity. }
  split; [reflexivity|].
  repeat match goal with
         | |- context [attempts (?a ++ ?b)] =>
             rewrite (proj1 (observed_app a b))
         | |- context [waits (?a ++ ?b)] =>
             rewrite (proj2 (observed_app a b))
         end.
  rewrite P1, P2, S1, S2, R1, R2. cbn [app].
  change (ConnectAttempt k :: onopen_events env D)
    with ([ConnectAttempt k] ++ onopen_events env D).
  rewrite (proj1 (observed_app _ _)), (proj2 (observed_app _ _)), O1, O2.
  cbn [attempts waits flat_map app]. rewrite !app_nil_r.
  split; [|reflexivity].
  rewrite seq_S. reflexivity.
Qed.

Lemma connect_after_failure env st tracks k message status :
  getUserMedia env = Some tracks ->
  (k <= 3)%nat ->
  (forall i, (i < k)%nat -> transient_failure (attempt env i) = true) ->
  attempt env k = Failed message status ->
  k = 3%nat \/ is_unavailable message status = false ->
  let r := connect env st in
  outcome r = inr true
  /\ currentStatus (final r) = error
  /\ sessionPromise (final r) = Some Rejected
  /\ attempts (trace r) = seq 0 (S k)
  /\ waits (trace r) = repeat 1500 k.
Proof.
  intros Hg Hk Ht Hf Hd. cbv zeta. rewrite connect_eq, Hg. cbv zeta.
  rewrite (connectWithRetry_fails env k _ message status Hk Ht Hf Hd),
    ?outcome_mk, ?final_mk, ?trace_mk.
  destruct (connect_prefix_quiet env st) as [P1 P2].
  destruct (setupRecording_events_quiet env) as [S1 S2].
  destruct (retry_events_observed k 0 3) as [R1 R2].
  destruct (status_events_quiet error (dialing_state env st tracks)) as [E1 E2].
  remember (dialing_state env st tracks) as D eqn:ED. clear ED.
  split; [reflexivity|]. split; [reflexivity|]. split; [reflexivity|].
  change (Console ConnectionFailedFully :: status_events error D)
    with ([Console ConnectionFailedFully] ++ status_events error D).
  repeat match goal with
         | |- context [attempts (?a ++ ?b)] =>
             rewrite (proj1 (observed_app a b))
         | |- context [waits (?a ++ ?b)] =>
             rewrite (proj2 (observed_app a b))
         end.
  rewrite P1, P2, S1, S2, R1, R2, E1, E2.
  cbn [attempts waits flat_map app]. rewrite !app_nil_r.
  split; [|reflexivity].
  rewrite seq_S. reflexivity.
Qed.

(** C2 (retry bound).  Once the microphone is granted, [connect] makes
    at most four connection attempts, numbered from 0, and waits 1500 ms
    before each attempt but the first.  If the first [k] attempts
    (k <= 3) fail as unavailable and attempt [k] opens the session,
    [connect] succeeds in status [listening] after [k] waits of 1500 ms;
    if attempt [k] fails and either it is the fourth or its failure is
    not of the unavailable kind, [connect] ends in status [error] after
    [k] waits, without a further attempt. *)
Theorem connect_retry_bound :
  forall (env : ConnectEnv) (st : LiveClient) (tracks : list nat),
    getUserMedia env = Some tracks ->
    let r := connect env st in
    (exists k, (k <= 3)%nat
       /\ attempts (trace r) = seq 0 (S k)
       /\ waits (trace r) = repeat 1500 k)
    /\ (forall k,
          (k <= 3)%nat ->
          (forall i, (i < k)%nat -> transient_failure (attempt env i) = true) ->
          attempt env k = Opened ->
          outcome r = inr false
          /\ currentStatus (final r) = listening
          /\ sessionPromise (final r) = Some Fulfilled
          /\ attempts (trace r) = seq 0 (S k)
          /\ waits (trace r) = repeat 1500 k)
    /\ (forall k message status,
          (k <= 3)%nat ->
          (forall i, (i < k)%nat -> transient_failure (attempt env i) = true) ->
          attempt env k = Failed message status ->
          k = 3%nat \/ is_unavailable message status = false ->
          outcome r = inr true
          /\ currentStatus (final r) = error
          /\ sessionPromise (final r) = Some Rejected
          /\ attempts (trace r) = seq 0 (S k)
          /\ waits (trace r) = repeat 1500 k).
Proof.
  intros env st tracks Hg r. subst r. split; [|split].
  - destruct (decisive_attempt env) as (k & Hk & Ht & Hd).
    exists k. split; [exact Hk|].
    destruct (attempt env k) as [|message status] eqn:Ea.
    + destruct (connect_after_opening env st tracks k Hg Hk Ht Ea) as (_ & _ & _ & H1 & H2).
      now split.
    + destruct (connect_after_failure env st tracks k message status Hg Hk Ht Ea)
        as (_ & _ & _ & H1 & H2); [|now split].
      destruct Hd as [Hd|Hd]; [now left | right; exact Hd].
  - intros k Hk Ht Ho. now apply (connect_after_opening env st tracks k).
  - intros k message status Hk Ht Hf Hd.
    now apply (connect_after_failure env st tracks k message status).
Qed.

Lemma bind_ext {A B} (m : Run A) (f g : A -> Run B) st :
  (forall a s, f a s = g a s) -> bind m f st = bind m g st.
Proof.
  intros H. unfold bind. destruct (m st) as [[[e|a] s1] t1]; [reflexivity|].
  now rewrite H.
Qed.

Lemma bind_ret_r (m : Run unit) st : bind m (fun _ : unit => ret tt) st = m st.
Proof.
  unfold bind, ret. destruct (m st) as [[[e|[]] s1] t1]; [reflexivity|].
  now rewrite app_nil_r.
Qed.

Lemma bind_ext_l {A B} (m m' : Run A) (f : A -> Run B) st :
  (forall s, m s = m' s) -> bind m f st = bind m' f st.
Proof. intros H. unfold bind. now rewrite H. Qed.

(** Closing a context is the call of [close], and, when there is one,
    what follows once its promise has settled. *)
Lemma closeContext_split which rejects st :
  closeContext which rejects st
  = (awaited <- closeContext_call which ;;
     if awaited : bool then closeContext_settled which rejects else ret tt) st.
Proof.
  unfold closeContext, closeContext_call, closeContext_settled.
  rewrite bind_assoc, !bind_get.
  destruct (match which with
            | InputContext => inputAudioContext st
            | OutputContext => outputAudioContext st
            end) as [c|]; [|reflexivity].
  destruct (is_closed c); cbn [negb when].
  - rewrite bind_assoc, bind_ret, !bind_modify, bind_ret. reflexivity.
  - rewrite bind_assoc, bind_emit, bind_ret.
    unfold try_catch, bind, emit, when, throw, modify, ret, outcome, final, trace.
    destruct rejects; reflexivity.
Qed.

(** An un-awaited teardown that is then resumed does what [disconnect]
    does: same events in the same order, same state. *)
Lemma disconnect_resumed env st :
  (point <- disconnect_start ;;
   match point with
   | Some p => disconnect_from env p
   | None => ret tt
   end) st
  = disconnect env st.
Proof.
  set (resume := fun point : option TeardownPoint =>
                   match point with
                   | Some p => disconnect_from env p
                   | None => ret tt
                   end).
  set (tail := (stopSources ;; setStatus idle) : Run unit).
  assert (Hout : forall s,
             bind start_at_output resume s
             = (closeContext OutputContext (output_close_rejects env) ;; tail) s).
  { intros s. unfold start_at_output. rewrite bind_assoc.
    rewrite (bind_ext_l _ _ _ _
               (closeContext_split OutputContext (output_close_rejects env))).
    rewrite bind_assoc. apply bind_ext. intros [] s'.
    - rewrite bind_ret. reflexivity.
    - rewrite bind_ret. subst tail. rewrite bind_assoc.
      apply bind_ext. intros [] s2. rewrite bind_assoc.
      transitivity (bind (setStatus idle) (fun _ : unit => ret tt) s2);
        [|apply bind_ret_r].
      apply bind_ext. intros [] s3. now rewrite bind_ret. }
  assert (Hin : forall s,
             bind start_at_input resume s
             = (closeContext InputContext (input_close_rejects env) ;;
                closeContext OutputContext (output_close_rejects env) ;; tail) s).
  { intros s. unfold start_at_input. rewrite bind_assoc.
    rewrite (bind_ext_l _ _ _ _
               (closeContext_split InputContext (input_close_rejects env))).
    rewrite bind_assoc. apply bind_ext. intros [] s'.
    - rewrite bind_ret. reflexivity.
    - rewrite bind_ret. apply Hout. }
  assert (Hint : forall s,
             bind start_at_interval resume s
             = (clearVolumeInterval ;; stopTracks ;; disconnectInputNode ;;
                closeContext InputContext (input_close_rejects env) ;;
                closeContext OutputContext (output_close_rejects env) ;; tail) s).
  { intros s. unfold start_at_interval. rewrite !bind_assoc.
    apply bind_ext. intros [] s1. rewrite bind_assoc.
    apply bind_ext. intros [] s2. rewrite bind_assoc.
    apply bind_ext. intros [] s3. apply Hin. }
  unfold disconnect_start, disconnect. rewrite bind_assoc, bind_get.
  destruct (sessionPromise st) as [p|] eqn:Ep.
  - rewrite bind_ret. reflexivity.
  - assert (Hc : closeSession env st = (inr tt, st, [])).
    { unfold closeSession. rewrite bind_get, Ep. reflexivity. }
    rewrite (bind_normal _ _ _ _ _ _ Hc). cbn [app]. rewrite <- run_eta.
    unfold stopRecorder. rewrite (bind_assoc get), bind_get.
    destruct (mediaRecorder st) as [r|].
    + destruct (negb (is_inactive (rec_state r))); cbn [when].
      * rewrite !bind_assoc.
        apply bind_ext. intros [] s1. rewrite !bind_assoc.
        apply bind_ext. intros [] s2. rewrite bind_ret.
        subst resume. cbn [disconnect_from]. rewrite !bind_assoc. reflexivity.
      * rewrite bind_ret. apply Hint.
    + rewrite bind_ret. apply Hint.
Qed.

(** The teardown that was suspended on the session promise goes on as a
    whole [disconnect]. *)
Lemma resume_at_session env st :
  pendingTeardown st = Some AtSession ->
  resumeTeardown env st
  = (inr tt, after_disconnect env (set_pendingTeardown st None), teardown_events env st).
Proof.
  intros H. unfold resumeTeardown. rewrite bind_get, H, bind_modify.
  cbn [disconnect_from]. rewrite disconnect_eq. reflexivity.
Qed.

(** The teardown that was suspended on the closing of the input context
    goes on with the output context. *)
Lemma resume_at_input env st :
  pendingTeardown st = Some AtInputClose ->
  resumeTeardown env st = (inr tt, after_resumed st, resumed_events env st).
Proof.
  intros H. unfold resumeTeardown. rewrite bind_get, H, bind_modify.
  cbn [disconnect_from]. unfold closeContext_settled.
  assert (Hw : when (input_close_rejects env)
                 (emit (Console (ErrorClosingContext InputContext)))
                 (set_pendingTeardown st None)
               = (inr tt, set_pendingTeardown st None,
                  if input_close_rejects env
                  then [Console (ErrorClosingContext InputContext)] else []))
    by (destruct (input_close_rejects env); reflexivity).
  rewrite bind_assoc.
  rewrite (bind_normal _ _ _ _ _ _ Hw), bind_modify.
  rewrite (bind_normal _ _ _ _ _ _ (closeOutputContext_eq _ _)).
  rewrite (bind_normal _ _ _ _ _ _ (stopSources_eq _)).
  rewrite setStatus_closed, !outcome_mk, !final_mk, !trace_mk.
  unfold after_resumed, resumed_events, status_after, status_events.
  change (negb (status_eqb idle idle)) with false.
  rewrite !andb_false_r. cbn [andb].
  reflexivity.
Qed.

(* ================================================================== *)
(** ** Instances *)
(* ================================================================== *)



(** Three refusals and an opening; four refusals. *)
Lemma connect_retry_bound_witness :
  getUserMedia (unavailable_then_open 3) = Some [0%nat]
  /\ (outcome (connect (unavailable_then_open 3) observed_client) = inr false
      /\ currentStatus (final (connect (unavailable_then_open 3) observed_client))
         = listening
      /\ sessionPromise (final (connect (unavailable_then_open 3) observed_client))
         = Some Fulfilled
      /\ attempts (trace (connect (unavailable_then_open 3) observed_client))
         = [0; 1; 2; 3]%nat
      /\ waits (trace (connect (unavailable_then_open 3) observed_client))
         = [1500; 1500; 1500])
  /\ (outcome (connect always_unavailable observed_client) = inr true
      /\ currentStatus (final (connect always_unavailable observed_client)) = error
      /\ sessionPromise (final (connect always_unavailable observed_client))
         = Some Rejected
      /\ attempts (trace (connect always_unavailable observed_client))
         = [0; 1; 2; 3]%nat
      /\ waits (trace (connect always_unavailable observed_client))
         = [1500; 1500; 1500]).
Proof.
  split; [reflexivity|]. split.
  - apply (proj1 (proj2 (connect_retry_bound (unavailable_then_open 3) observed_client
                           [0%nat] eq_refl)) 3%nat).
    + apply le_n.
    + intros i Hi. destruct i as [|[|[|i]]]; try reflexivity.
      exfalso. apply (Nat.lt_irrefl 3).
      apply Nat.le_lt_trans with (S (S (S i))); [|exact Hi].
      do 3 apply le_n_S. apply Nat.le_0_l.
    + reflexivity.
  - apply (proj2 (proj2 (connect_retry_bound always_unavailable observed_client
                           [0%nat] eq_refl)) 3%nat
             (Some "service unavailable"%string) (Some 503)).
    + apply le_n.
    + intros i Hi. reflexivity.
    + reflexivity.
    + left. reflexivity.
Defined.

(** A failed client ignores [listening] and accepts [idle]. *)
Lemma error_latch_witness :
  currentStatus failed_client = error
  /\ setStatus listening failed_client = (inr tt, failed_client, [])
  /\ currentStatus (final (setStatus idle failed_client)) = idle.
Proof.
  split; [reflexivity|].
  split.
  - apply (proj1 (error_latch failed_client eq_refl)). left. reflexivity.
  - apply (proj1 (proj2 (error_latch failed_client eq_refl)) idle). left. reflexivity.
Defined.

(** An interruption while two segments are playing. *)
Lemma interruption_clears_playback_witness :
  isInterrupted interruption_message = true
  /\ outcome (handleMessage interruption_message 0 speaking_client) = inr tt
  /\ sources (final (handleMessage interruption_message 0 speaking_client)) = []
  /\ nextStartTime (final (handleMessage interruption_message 0 speaking_client)) = 0%Q.
Proof.
  split; [reflexivity|]. split; [reflexivity|].
  split.
  - exact (proj1 (interruption_clears_playback interruption_message 0 speaking_client
                    eq_refl eq_refl)).
  - exact (proj1 (proj2 (interruption_clears_playback interruption_message 0
                           speaking_client eq_refl eq_refl))).
Defined.

(** C4, the claim as stated fails: an interruption handled by a client in
    status [error] leaves the status [error], not [listening]. *)
Lemma interruption_keeps_error :
  isInterrupted interruption_message = true
  /\ outcome (handleMessage interruption_message 0 failed_client) = inr tt
  /\ currentStatus (final (handleMessage interruption_message 0 failed_client)) = error
  /\ currentStatus (final (handleMessage interruption_message 0 failed_client))
     <> listening.
Proof.
  split; [reflexivity|]. split; [reflexivity|].
  split; [vm_compute; reflexivity|].
  vm_compute. discriminate.
Qed.

(** Fragments ["Hel"], ["Hi "], ["lo"], then a turn-complete signal. *)
Lemma turn_flush_once_witness :
  onTranscript observed_client = true
  /\ Forall (fun p => isTurnComplete (fst p) = false /\ isInterrupted (fst p) = false)
            sample_fragments
  /\ isTurnComplete turn_complete_message = true
  /\ transcripts
       (trace (handleMessage turn_complete_message 0
                 (fst (handleMessages sample_fragments observed_client))))
     = [("Hello"%string, user); ("Hi "%string, model)].
Proof.
  assert (H : Forall (fun p => isTurnComplete (fst p) = false
                               /\ isInterrupted (fst p) = false) sample_fragments)
    by (repeat constructor).
  split; [reflexivity|]. split; [exact H|]. split; [reflexivity|].
  exact (proj1 (proj2 (turn_flush_once sample_fragments turn_complete_message
                         turn_complete_message 0 0 observed_client
                         eq_refl H eq_refl eq_refl eq_refl eq_refl))).
Defined.

(** C5, the claim as stated fails: an accumulator holding a single space
    is not empty, yet a turn-complete signal neither flushes it nor
    resets it. *)
Lemma whitespace_turn_not_flushed :
  onTranscript observed_client = true
  /\ currentInputTranscription
       (fst (handleMessages [(input_fragment_message " ", 0%Q)] observed_client))
     = " "%string
  /\ transcripts
       (trace (handleMessage turn_complete_message 0
                 (fst (handleMessages [(input_fragment_message " ", 0%Q)]
                         observed_client))))
     = []
  /\ currentInputTranscription
       (final (handleMessage turn_complete_message 0
                 (fst (handleMessages [(input_fragment_message " ", 0%Q)]
                         observed_client))))
     = " "%string.
Proof. repeat split; vm_compute; reflexivity. Qed.

(** The calls named [update_lead] are forwarded, then acknowledged; the
    other one is not. *)
Lemma tool_call_forwarding_witness :
  onLeadUpdate connected_client = true
  /\ sessionPromise connected_client = Some Fulfilled
  /\ tool_events (trace (handleMessage sample_tool_calls 0 connected_client))
     = [LeadUpdate [("phone", "0100000000")]%string;
        LeadUpdate [("name", "Nour")]%string;
        SendToolResponse "call-1" "update_lead" "Lead updated successfully.";
        SendToolResponse "call-3" "update_lead" "Lead updated successfully."].
Proof.
  split; [reflexivity|]. split; [reflexivity|].
  exact (proj1 (tool_call_forwarding sample_tool_calls 0 connected_client eq_refl)
           eq_refl).
Defined.

(* ================================================================== *)
(** ** Further properties: the audio helpers *)
(* ================================================================== *)

Lemma string_of_list_ascii_length (l : list ascii) :
  String.length (string_of_list_ascii l) = List.length l.
Proof. induction l as [|c l IH]; cbn; [reflexivity | now rewrite IH]. Qed.

Lemma btoa_groups_length (bs : list N) :
  List.length (Base64.encode_groups bs ++ Base64.padding (List.length bs))
  = (4 * ((List.length bs + 2) / 3))%nat.
Proof.
  induction bs as [| a | a b | a b c r IH] using list_ind3; try reflexivity.
  cbn [Base64.encode_groups List.length app].
  replace (Base64.padding (S (S (S (List.length r)))))
    with (Base64.padding (List.length r)).
  2:{ unfold Base64.padding.
      replace (S (S (S (List.length r)))) with (List.length r + 1 * 3)%nat by lia.
      now rewrite Nat.Div0.mod_add. }
  rewrite IH.
  replace (S (S (S (List.length r))) + 2)%nat with (List.length r + 2 + 1 * 3)%nat by lia.
  rewrite Nat.div_add by lia. lia.
Qed.

Lemma btoa_alphabet (bs : list N) :
  Forall (fun b => (b < 256)%N) bs ->
  Forall (fun c => Base64.char_sextet c <> None \/ c = Base64.pad_char)
         (Base64.encode_groups bs ++ Base64.padding (List.length bs)).
Proof.
  intros Hb. apply Forall_app. split.
  - destruct (sextets_encode_groups bs Hb) as (ss & Hss & _).
    clear Hb. revert ss Hss.
    induction (Base64.encode_groups bs) as [|c r IH]; intros ss Hss; constructor.
    + cbn in Hss. destruct (Base64.char_sextet c); [left; discriminate | discriminate].
    + cbn in Hss. destruct (Base64.char_sextet c); [|discriminate].
      destruct (Base64.sextets r) as [ns|]; [|discriminate]. eapply IH. reflexivity.
  - unfold Base64.padding.
    destruct (Nat.modulo (List.length bs) 3) as [|[|[|k]]]; repeat constructor; now right.
Qed.

(** X1.  The base64 framing of [n] octets has [4 * ceil (n / 3)] characters,
    each one of the 64 of the alphabet or the padding sign. *)
Theorem encode_shape :
  forall bytes : list byte,
    String.length (encode bytes) = (4 * ((List.length bytes + 2) / 3))%nat
    /\ Forall (fun c => Base64.char_sextet c <> None \/ c = "="%char)
              (list_ascii_of_string (encode bytes)).
Proof.
  intros bytes. unfold encode. rewrite encode_binary. cbn [String.append].
  unfold Base64.btoa. rewrite list_ascii_of_string_of_list_ascii.
  set (bs := map N_of_ascii (map fromCharCode bytes)).
  assert (Hlen : List.length bs = List.length bytes)
    by (unfold bs; now rewrite !length_map).
  split.
  - rewrite string_of_list_ascii_length, btoa_groups_length, Hlen. reflexivity.
  - rewrite list_ascii_of_string_of_list_ascii.
    apply btoa_alphabet. apply Forall_forall. intros b Hin.
    unfold bs in Hin. apply in_map_iff in Hin. destruct Hin as (c & <- & _).
    apply N_ascii_bounded.
Qed.

Lemma list_ind2_bytes (A : Type) (P : list A -> Prop) :
  P [] -> (forall a, P [a]) -> (forall a b r, P r -> P (a :: b :: r)) ->
  forall l, P l.
Proof.
  intros H0 H1 H2. fix IH 1.
  intros [|a [|b r]]; [apply H0 | apply H1 | apply H2, IH].
Qed.

Lemma Int16Array_view (bytes : list byte) :
  match Int16Array_of_Uint8Array bytes with
  | Some vs =>
      Nat.even (List.length bytes) = true
      /\ List.length vs = Nat.div (List.length bytes) 2
      /\ Forall (fun v => -32768 <= v <= 32767) vs
  | None => Nat.odd (List.length bytes) = true
  end.
Proof.
  induction bytes as [| a | a b r IH] using list_ind2_bytes.
  - repeat split. constructor.
  - reflexivity.
  - cbn [Int16Array_of_Uint8Array].
    destruct (Int16Array_of_Uint8Array r) as [vs|].
    + destruct IH as (He & Hl & Hr).
      split; [exact He|]. split.
      * cbn [List.length]. rewrite Hl.
        replace (S (S (List.length r))) with (List.length r + 1 * 2)%nat by lia.
        rewrite Nat.div_add by lia. lia.
      * constructor; [apply int16_of_Z_range | exact Hr].
    + exact IH.
Qed.

(** X2.  With at most 32 channels and a rate between 8000 and 96000 Hz,
    which every platform supports, [decodeAudioData] fails with
    RangeError exactly on an odd number of octets, with NotSupportedError
    exactly when there is no channel or not one whole frame, and
    otherwise gives a buffer of [samples / channels] frames for each
    channel, whose duration is the binary64 quotient of the number of
    frames by the rate. *)
Theorem decodeAudioData_cases :
  forall (bytes : list byte) (rate : positive) (numChannels : nat),
    (numChannels <= 32)%nat ->
    8000 <= Z.pos rate <= 96000 ->
    match decodeAudioData bytes rate numChannels with
    | inl RangeError => Nat.odd (List.length bytes) = true
    | inl NotSupportedError =>
        Nat.even (List.length bytes) = true
        /\ (numChannels = 0%nat
            \/ (Nat.div (List.length bytes) 2 < numChannels)%nat)
    | inl _ => False
    | inr buf =>
        Nat.even (List.length bytes) = true
        /\ (1 <= numChannels <= Nat.div (List.length bytes) 2)%nat
        /\ numberOfChannels buf = numChannels
        /\ frames buf = Nat.div (Nat.div (List.length bytes) 2) numChannels
        /\ (1 <= frames buf)%nat
        /\ List.length (channels buf) = numChannels
        /\ Forall (fun ch => List.length ch = frames buf) (channels buf)
        /\ duration buf = binary64 (Z.of_nat (frames buf) # rate)
        /\ (0 < duration buf)%Q
    end.
Proof.
  intros bytes rate n Hchannels Hrate. unfold decodeAudioData.
  pose proof (Int16Array_view bytes) as Hv.
  destruct (Int16Array_of_Uint8Array bytes) as [vs|]; [|exact Hv].
  destruct Hv as (He & Hl & _). rewrite Hl.
  destruct (Nat.eqb n 0) eqn:En; cbn [orb].
  { apply Nat.eqb_eq in En. split; [exact He | now left]. }
  apply Nat.eqb_neq in En.
  destruct (Nat.eqb (Nat.div (Nat.div (List.length bytes) 2) n) 0) eqn:Ef.
  { apply Nat.eqb_eq in Ef. split; [exact He|]. right.
    apply Nat.div_small_iff in Ef; [exact Ef | exact En]. }
  apply Nat.eqb_neq in Ef.
  unfold duration. cbn [numberOfChannels frames channels sampleRate].
  assert (Hn : (n <= Nat.div (List.length bytes) 2)%nat).
  { destruct (Nat.le_gt_cases n (Nat.div (List.length bytes) 2)) as [H|H]; [exact H|].
    exfalso. apply Ef. now apply Nat.div_small. }
  split; [exact He|]. split; [lia|]. split; [reflexivity|]. split; [reflexivity|].
  split; [lia|]. split; [now rewrite length_map, length_seq|].
  split.
  { apply Forall_forall. intros ch Hin. apply in_map_iff in Hin.
    destruct Hin as (c & <- & _). unfold channel_samples.
    now rewrite length_map, length_seq. }
  split; [reflexivity|].
  apply binary64_pos. unfold Qle. cbn [Qnum Qden]. nia.
Qed.

Lemma interleave_channels (g : nat -> number) (n f : nat) :
  forall i,
    interleave
      (map (fun c => map (fun j => g (j * n + c)%nat) (seq 0 (i + f))) (seq 0 n)) f i
    = map g (seq (i * n) (f * n)).
Proof.
  induction f as [|f IH]; intros i; [reflexivity|].
  cbn [interleave]. rewrite map_map.
  replace (i + S f)%nat with (S i + f)%nat by lia.
  rewrite IH.
  replace (S f * n)%nat with (n + f * n)%nat by lia.
  rewrite (seq_app n (f * n) (i * n)), map_app. f_equal.
  - clear IH.
    assert (Hs : map (fun c => (i * n + c)%nat) (seq 0 n) = seq (i * n) n).
    { clear. generalize (i * n)%nat. intros k. revert k.
      induction n as [|n IHn]; intros k; [reflexivity|].
      cbn [seq map]. rewrite Nat.add_0_r. f_equal.
      rewrite <- seq_shift, map_map. rewrite <- (IHn (S k)).
      apply map_ext. intros c. lia. }
    rewrite <- Hs, map_map. apply map_ext_in. intros c Hc. apply in_seq in Hc.
    rewrite (nth_indep _ NaN ((fun j => g (j * n + c)%nat) 0%nat))
      by (rewrite length_map, length_seq; lia).
    rewrite (map_nth (fun j => g (j * n + c)%nat) (seq 0 (S i + f)) 0%nat i).
    rewrite seq_nth by lia. reflexivity.
  - f_equal. f_equal. lia.
Qed.

(** X3.  [decodeAudioData] separates the channels of interleaved PCM: when
    the payload holds whole frames, reading the channels of the buffer
    frame by frame gives every 16-bit value of the payload, in order,
    divided by 32768. *)
Theorem decodeAudioData_deinterleaves :
  forall (pairs : list (byte * byte)) (rate : positive) (numChannels frameCount : nat)
         (buf : AudioBuffer),
    (1 <= numChannels)%nat ->
    List.length pairs = (frameCount * numChannels)%nat ->
    decodeAudioData (flat_map (fun p => [fst p; snd p]) pairs) rate numChannels
      = inr buf ->
    frames buf = frameCount
    /\ interleave (channels buf) (frames buf) 0
       = map (fun p => Finite (int16_of_bytes (fst p) (snd p) # 32768)) pairs.
Proof.
  intros pairs rate n f buf Hn Hlen. unfold decodeAudioData.
  rewrite Int16Array_of_pairs, length_map, Hlen, Nat.div_mul by lia.
  destruct (Nat.eqb n 0 || Nat.eqb f 0); [discriminate|].
  intros H. injection H as <-. cbn [frames channels]. split; [reflexivity|].
  set (vs := map (fun p => int16_of_bytes (fst p) (snd p)) pairs).
  unfold channel_samples.
  pose proof (interleave_channels (fun k => over_32768 (nth k vs 0)) n f 0%nat) as Hi.
  cbn [Nat.add Nat.mul] in Hi. rewrite Hi.
  replace (f * n)%nat with (List.length vs) by (unfold vs; now rewrite length_map).
  rewrite (map_nth_seq over_32768 vs 0). unfold vs, over_32768. now rewrite map_map.
Qed.

(** X4.  Decoding with [decodeAudioData] what [createBlob] has framed gives,
    for every sample, its 16-bit conversion divided by 32768. *)
Theorem capture_then_playback :
  forall (x : number) (samples : list number) (rate : positive),
    exists bytes,
      decode (data (createBlob (x :: samples))) = Some bytes
      /\ decodeAudioData bytes rate 1
         = inr {| numberOfChannels := 1;
                  frames := S (List.length samples);
                  sampleRate := rate;
                  channels :=
                    [map (fun y => Finite (ToInt16 (times_32768 y) # 32768))
                         (x :: samples)] |}.
Proof.
  intros x samples rate. eexists. split; [apply createBlob_bytes|].
  erewrite decodeAudioData_mono_int16.
  2:{ change (flat_map _ (x :: samples))
        with (flat_map (fun y => bytes_of_int16 (pcm16 y)) (x :: samples)).
      rewrite flat_map_concat_map, <- (map_map pcm16 bytes_of_int16),
        <- flat_map_concat_map.
      apply Int16Array_of_Uint8Array_of_Int16Array.
      apply Forall_forall. intros v Hin. apply in_map_iff in Hin.
      destruct Hin as (y & <- & _). apply ToInt16_range. }
  cbn [map List.length]. rewrite length_map, map_map. reflexivity.
Qed.

(** X5.  A sample in [-1, 1) is not wrapped: the value played back differs
    from it by less than 1/32768 and lies between zero and the sample. *)
Theorem quantization_error :
  forall q : Q,
    (-1 <= q)%Q -> (q < 1)%Q ->
    ToInt16 (times_32768 (Finite q)) = Qtruncate (q * 32768)
    /\ (q - (1 # 32768) < ToInt16 (times_32768 (Finite q)) # 32768)%Q
    /\ (ToInt16 (times_32768 (Finite q)) # 32768 < q + (1 # 32768))%Q
    /\ (0 <= q ->
        0 <= ToInt16 (times_32768 (Finite q)) # 32768
        /\ ToInt16 (times_32768 (Finite q)) # 32768 <= q)%Q
    /\ (q <= 0 ->
        q <= ToInt16 (times_32768 (Finite q)) # 32768
        /\ ToInt16 (times_32768 (Finite q)) # 32768 <= 0)%Q.
Proof.
  intros q Hlo Hhi. cbn [times_32768 ToInt16].
  set (n := Qtruncate (q * 32768)).
  assert (Hn : (0 <= q -> inject_Z n <= q * 32768 /\ q * 32768 < inject_Z n + 1)%Q).
  { intros H. apply Qtruncate_nonneg. lra. }
  assert (Hp : (q <= 0 -> q * 32768 <= inject_Z n /\ inject_Z n - 1 < q * 32768)%Q).
  { intros H. apply Qtruncate_nonpos. lra. }
  assert (Hsign : (0 <= q -> 0 <= inject_Z n)%Q /\ (q <= 0 -> inject_Z n <= 0)%Q).
  { split; intros H.
    - destruct (Hn H) as [H1 H2].
      assert (H4 : (inject_Z (-1) < inject_Z n)%Q)
        by (change (inject_Z (-1)) with (-1 # 1)%Q; lra).
      rewrite <- Zlt_Qlt in H4.
      change (inject_Z 0 <= inject_Z n)%Q. rewrite <- Zle_Qle. lia.
    - destruct (Hp H) as [H1 H2].
      assert (H4 : (inject_Z n < inject_Z 1)%Q)
        by (change (inject_Z 1) with (1 # 1)%Q; lra).
      rewrite <- Zlt_Qlt in H4.
      change (inject_Z n <= inject_Z 0)%Q. rewrite <- Zle_Qle. lia. }
  destruct Hsign as [Hs1 Hs2].
  assert (Hrange : -32768 <= n <= 32767).
  { destruct (Qlt_le_dec q 0) as [Hneg|Hpos].
    - destruct (Hp (Qlt_le_weak _ _ Hneg)) as [H1 H2].
      assert (H3 : (inject_Z (-32769) < inject_Z n)%Q)
        by (change (inject_Z (-32769)) with (-32769 # 1)%Q; lra).
      pose proof (Hs2 (Qlt_le_weak _ _ Hneg)) as H4.
      rewrite <- Zlt_Qlt in H3.
      change (inject_Z n <= inject_Z 0)%Q in H4. rewrite <- Zle_Qle in H4. lia.
    - destruct (Hn Hpos) as [H1 H2].
      assert (H3 : (inject_Z n < inject_Z 32768)%Q)
        by (change (inject_Z 32768) with (32768 # 1)%Q; lra).
      pose proof (Hs1 Hpos) as H4.
      rewrite <- Zlt_Qlt in H3.
      change (inject_Z 0 <= inject_Z n)%Q in H4. rewrite <- Zle_Qle in H4. lia. }
  rewrite (int16_of_Z_id n Hrange). split; [reflexivity|].
  pose proof (over_32768_quotient n) as Hq.
  assert (Hq' : (inject_Z n == (n # 32768) * 32768)%Q) by (rewrite Hq; field).
  destruct (Qlt_le_dec q 0) as [Hneg|Hpos].
  - destruct (Hp (Qlt_le_weak _ _ Hneg)) as [H1 H2].
    pose proof (Hs2 (Qlt_le_weak _ _ Hneg)) as H4.
    rewrite Hq' in H1, H2, H4.
    repeat split; intros; lra.
  - destruct (Hn Hpos) as [H1 H2]. pose proof (Hs1 Hpos) as H4.
    rewrite Hq' in H1, H2, H4.
    repeat split; intros; lra.
Qed.

(* ================================================================== *)
(** ** Further properties: the capture pipeline *)
(* ================================================================== *)

Lemma onaudioprocess_eq rms dateNow inputData st :
  onaudioprocess rms dateNow inputData st
  = let st1 := after_then [RealtimeInput (createBlob inputData)]
                 (after_voice rms dateNow (after_microtasks st)) in
    (inr tt, after_microtasks st1,
     volume_events rms st ++ voice_events rms dateNow st ++ microtask_events st1).
Proof.
  unfold onaudioprocess. rewrite bind_modify. fold (after_microtasks st).
  change (volume_events rms st) with (volume_events rms (after_microtasks st)).
  change (voice_events rms dateNow st)
    with (voice_events rms dateNow (after_microtasks st)).
  generalize (after_microtasks st). clear st. intros st.
  rewrite bind_get. cbv zeta.
  assert (Hv : when (negb (status_eqb (currentStatus st) speaking) && onVolumeUpdate st)
                 (emit (VolumeUpdate (binary64 (rms * 5)))) st
               = (inr tt, st, volume_events rms st)).
  { unfold volume_events.
    destruct (negb (status_eqb (currentStatus st) speaking) && onVolumeUpdate st);
      reflexivity. }
  rewrite (bind_normal _ _ _ _ _ _ Hv).
  assert (Hs : (if negb (Qle_bool rms speech_threshold)
                then
                  modify (fun st0 => set_voiceActivity st0 dateNow true);;
                  when (negb (status_eqb (currentStatus st) listening)
                        && negb (status_eqb (currentStatus st) speaking))
                    (setStatus listening)
                else
                  when (status_eqb (currentStatus st) listening && hasSpokenOnce st)
                    (when ((800 <? dateNow - lastUserInteraction st)
                           && (dateNow - lastUserInteraction st <? 3000))
                       (setStatus processing))) st
               = (inr tt, after_voice rms dateNow st, voice_events rms dateNow st)).
  { unfold after_voice, voice_events.
    destruct (negb (Qle_bool rms speech_threshold)).
    - rewrite bind_modify.
      destruct (negb (status_eqb (currentStatus st) listening)
                && negb (status_eqb (currentStatus st) speaking)); cbn [when].
      + rewrite setStatus_closed. reflexivity.
      + reflexivity.
    - destruct (status_eqb (currentStatus st) listening && hasSpokenOnce st);
        cbn [when andb]; [|reflexivity].
      destruct ((800 <? dateNow - lastUserInteraction st)
                && (dateNow - lastUserInteraction st <? 3000)); cbn [when].
      + rewrite setStatus_closed. reflexivity.
      + reflexivity. }
  rewrite (bind_normal _ _ _ _ _ _ Hs).
  rewrite (bind_normal _ _ _ _ _ _ (thenSession_eq _ _)).
  rewrite runMicrotasks_eq, !outcome_mk, !final_mk, !trace_mk.
  reflexivity.
Qed.

(** Sending a block touches neither the status nor the bookkeeping of
    the voice activity. *)
Lemma block_sent_frame calls st :
  let st' := after_microtasks (after_then calls st) in
  currentStatus st' = currentStatus st
  /\ hasSpokenOnce st' = hasSpokenOnce st
  /\ lastUserInteraction st' = lastUserInteraction st
  /\ onStatusChange st' = onStatusChange st.
Proof.
  unfold after_then. destruct (sessionPromise st) as [[rs| |]|];
    repeat split; reflexivity.
Qed.

Lemma after_voice_queue rms dateNow st :
  after_voice rms dateNow (after_microtasks st)
  = after_microtasks (after_voice rms dateNow st).
Proof.
  unfold after_voice, status_after.
  change (currentStatus (after_microtasks st)) with (currentStatus st).
  change (hasSpokenOnce (after_microtasks st)) with (hasSpokenOnce st).
  change (lastUserInteraction (after_microtasks st)) with (lastUserInteraction st).
  destruct (negb (Qle_bool rms speech_threshold));
    [destruct (_ && _) | destruct (_ && _)]; reflexivity.
Qed.

Lemma block_state calls rms dateNow st :
  let st' := after_microtasks
               (after_then calls (after_voice rms dateNow (after_microtasks st))) in
  currentStatus st' = currentStatus (after_voice rms dateNow st)
  /\ hasSpokenOnce st' = hasSpokenOnce (after_voice rms dateNow st)
  /\ lastUserInteraction st' = lastUserInteraction (after_voice rms dateNow st)
  /\ onStatusChange st' = onStatusChange (after_voice rms dateNow st).
Proof.
  cbv zeta. rewrite after_voice_queue.
  destruct (block_sent_frame calls (after_microtasks (after_voice rms dateNow st)))
    as (-> & -> & -> & ->).
  repeat split; reflexivity.
Qed.

Lemma Qle_bool_false (a b : Q) : Qle_bool a b = false <-> (b < a)%Q.
Proof.
  split; intros H.
  - destruct (Qlt_le_dec b a) as [Hlt|Hle]; [exact Hlt|].
    apply Qle_bool_iff in Hle. congruence.
  - destruct (Qle_bool a b) eqn:E; [|reflexivity].
    apply Qle_bool_iff in E. exfalso. apply (Qlt_not_le _ _ H E).
Qed.

Lemma after_voice_cases rms dateNow st :
  ((speech_threshold < rms)%Q ->
   hasSpokenOnce (after_voice rms dateNow st) = true
   /\ lastUserInteraction (after_voice rms dateNow st) = dateNow
   /\ currentStatus (after_voice rms dateNow st)
      = match currentStatus st with
        | speaking => speaking
        | error => error
        | _ => listening
        end)
  /\ ((rms <= speech_threshold)%Q ->
      hasSpokenOnce (after_voice rms dateNow st) = hasSpokenOnce st
      /\ lastUserInteraction (after_voice rms dateNow st) = lastUserInteraction st
      /\ currentStatus (after_voice rms dateNow st)
         = if status_eqb (currentStatus st) listening && hasSpokenOnce st
              && (800 <? dateNow - lastUserInteraction st)
              && (dateNow - lastUserInteraction st <? 3000)
           then processing
           else currentStatus st).
Proof.
  unfold after_voice.
  destruct (Qle_bool rms speech_threshold) eqn:Eq; cbn [negb].
  - apply Qle_bool_iff in Eq.
    split; [intros Hlt; exfalso; apply (Qlt_not_le _ _ Hlt Eq)|]. intros _.
    rewrite <- !andb_assoc.
    destruct (status_eqb (currentStatus st) listening
              && (hasSpokenOnce st
                  && ((800 <? dateNow - lastUserInteraction st)
                      && (dateNow - lastUserInteraction st <? 3000)))) eqn:Ec.
    + assert (Hl : currentStatus st = listening).
      { destruct (currentStatus st); try discriminate; reflexivity. }
      unfold status_after. rewrite Hl. repeat split.
    + repeat split.
  - apply Qle_bool_false in Eq.
    split; [|intros Hle; exfalso; apply (Qlt_not_le _ _ Eq Hle)]. intros _.
    unfold status_after. destruct (currentStatus st) eqn:Es; cbn; rewrite ?Es;
      repeat split.
Qed.

(** X6.  Voice activity.  The threshold is the binary64 number that the
    literal 0.02 denotes, which is more than 1/50.  A block never fails
    and never moves the status to anything but [listening] or
    [processing].  A block louder than the threshold records the time
    and marks the turn as spoken; it sets [listening] unless the status
    is [listening], [speaking] or [error].  A block that is not louder
    leaves the bookkeeping alone, and the status becomes [processing]
    exactly when it was [listening], the turn was spoken and the last
    loud block is more than 800 ms and less than 3000 ms old. *)
Theorem voice_activity :
  forall (rms : Q) (dateNow : Z) (inputData : list number) (st : LiveClient),
    let r := onaudioprocess rms dateNow inputData st in
    speech_threshold = (5764607523034235 # 288230376151711744)%Q
    /\ (1 # 50 < speech_threshold)%Q
    /\ outcome r = inr tt
    /\ (currentStatus (final r) = currentStatus st
        \/ currentStatus (final r) = listening
        \/ currentStatus (final r) = processing)
    /\ ((speech_threshold < rms)%Q ->
        hasSpokenOnce (final r) = true
        /\ lastUserInteraction (final r) = dateNow
        /\ currentStatus (final r)
           = match currentStatus st with
             | speaking => speaking
             | error => error
             | _ => listening
             end)
    /\ ((rms <= speech_threshold)%Q ->
        hasSpokenOnce (final r) = hasSpokenOnce st
        /\ lastUserInteraction (final r) = lastUserInteraction st
        /\ currentStatus (final r)
           = if status_eqb (currentStatus st) listening && hasSpokenOnce st
                && (800 <? dateNow - lastUserInteraction st)
                && (dateNow - lastUserInteraction st <? 3000)
             then processing
             else currentStatus st).
Proof.
  intros rms dateNow inputData st r. subst r.
  rewrite onaudioprocess_eq. cbv zeta. rewrite outcome_mk, final_mk.
  split; [vm_compute; reflexivity|]. split; [vm_compute; reflexivity|].
  split; [reflexivity|].
  destruct (block_state [RealtimeInput (createBlob inputData)] rms dateNow st) as (-> & -> & -> & _).
  destruct (after_voice_cases rms dateNow st) as [Hloud Hquiet].
  split; [|split; assumption].
  destruct (Qlt_le_dec speech_threshold rms) as [H|H].
  - destruct (Hloud H) as (_ & _ & ->).
    destruct (currentStatus st); auto.
  - destruct (Hquiet H) as (_ & _ & ->).
    destruct (status_eqb (currentStatus st) listening && hasSpokenOnce st
              && (800 <? dateNow - lastUserInteraction st)
              && (dateNow - lastUserInteraction st <? 3000)); auto.
Qed.

(** X7.  Speech followed by a pause: a block louder than the threshold
    moves a client that is neither speaking nor failed to [listening];
    a block that is not louder and comes more than 800 ms and less than
    3000 ms later moves it to [processing]; one that comes 3000 ms
    later or more leaves it [listening]. *)
Theorem speech_then_pause :
  forall (rms1 rms2 : Q) (t0 dt : Z) (block1 block2 : list number) (st : LiveClient),
    currentStatus st <> speaking ->
    currentStatus st <> error ->
    (speech_threshold < rms1)%Q ->
    (rms2 <= speech_threshold)%Q ->
    800 < dt ->
    let st1 := final (onaudioprocess rms1 t0 block1 st) in
    let st2 := final (onaudioprocess rms2 (t0 + dt) block2 st1) in
    currentStatus st1 = listening
    /\ hasSpokenOnce st1 = true
    /\ currentStatus st2 = (if dt <? 3000 then processing else listening).
Proof.
  intros rms1 rms2 t0 dt block1 block2 st Hsp Herr Hloud Hquiet Hdt st1 st2.
  assert (H1 : currentStatus st1 = listening
               /\ hasSpokenOnce st1 = true /\ lastUserInteraction st1 = t0).
  { subst st1. rewrite onaudioprocess_eq. cbv zeta. rewrite final_mk.
    destruct (block_state [RealtimeInput (createBlob block1)] rms1 t0 st) as (-> & -> & -> & _).
    destruct (proj1 (after_voice_cases rms1 t0 st) Hloud) as (-> & -> & ->).
    destruct (currentStatus st); try congruence; repeat split. }
  destruct H1 as (H1 & H2 & H3).
  split; [exact H1|]. split; [exact H2|].
  subst st2. remember st1 as s1 eqn:Es1. clear Es1 st1.
  rewrite onaudioprocess_eq. cbv zeta. rewrite final_mk.
  destruct (block_state [RealtimeInput (createBlob block2)] rms2 (t0 + dt) s1) as (-> & _).
  destruct (proj2 (after_voice_cases rms2 (t0 + dt) s1) Hquiet) as (_ & _ & ->).
  rewrite H1, H2, H3. cbn [status_eqb andb].
  replace (t0 + dt - t0) with dt by lia.
  assert (Hd : (800 <? dt) = true) by (apply Z.ltb_lt; lia).
  rewrite Hd. cbn [andb]. reflexivity.
Qed.

(* ------------------------------------------------------------------ *)

Lemma sourceEnded_eq source st :
  sourceEnded source st
  = (inr tt,
     (if Nat.eqb (List.length
                    (filter (fun s => negb (Nat.eqb s source)) (sources st))) 0
      then set_voiceActivity
             (set_currentStatus
                (set_sources st
                   (filter (fun s => negb (Nat.eqb s source)) (sources st)))
                (status_after listening st))
             0 false
      else set_sources st (filter (fun s => negb (Nat.eqb s source)) (sources st))),
     if Nat.eqb (List.length
                   (filter (fun s => negb (Nat.eqb s source)) (sources st))) 0
     then status_events listening st
     else []).
Proof.
  unfold sourceEnded. rewrite bind_modify, bind_get.
  cbn [sources set_sources].
  destruct (Nat.eqb (List.length
                       (filter (fun s => negb (Nat.eqb s source)) (sources st))) 0);
    cbn [when]; [|reflexivity].
  rewrite (bind_normal _ _ _ _ _ _ (setStatus_closed listening _)).
  unfold modify. rewrite ?outcome_mk, ?final_mk, ?trace_mk, app_nil_r. reflexivity.
Qed.

Lemma status_eqb_eq a b : status_eqb a b = true <-> a = b.
Proof. destruct a, b; cbn; split; intros H; try discriminate; reflexivity. Qed.

Lemma status_changes_app a b :
  status_changes (a ++ b) = status_changes a ++ status_changes b.
Proof. unfold status_changes. apply flat_map_app. Qed.

Lemma last_default {A} (x : A) (l : list A) (d d' : A) :
  last (x :: l) d = last (x :: l) d'.
Proof.
  revert x. induction l as [|y l IH]; intros x; [reflexivity|].
  change (last (y :: l) d = last (y :: l) d'). apply IH.
Qed.

Lemma displayed_status_last shown tr :
  displayed_status shown tr = last (status_changes tr) shown.
Proof.
  revert shown. induction tr as [|e tr IH]; intros shown; [reflexivity|].
  cbn [displayed_status fold_left]. fold (displayed_status
    (match e with StatusChange s' => s' | _ => shown end) tr).
  rewrite IH. unfold status_changes. cbn [flat_map].
  fold (status_changes tr).
  destruct e; cbn [app]; try reflexivity.
  destruct (status_changes tr) as [|s l] eqn:E; [reflexivity|].
  change (last (s :: l) status = last (s :: l) shown). apply last_default.
Qed.

(** What a request does to the status and to what is displayed. *)
Lemma status_events_changes request st :
  status_changes (status_events request st)
  = if onStatusChange st
    then (if status_eqb (currentStatus st) error
             && negb (status_eqb request idle) && negb (status_eqb request connecting)
          then [] else [request])
    else [].
Proof.
  unfold status_events.
  destruct (status_eqb (currentStatus st) error && negb (status_eqb request idle)
            && negb (status_eqb request connecting));
    destruct (onStatusChange st); reflexivity.
Qed.

Lemma tool_call_events_changes st l :
  status_changes (flat_map (tool_call_events st) l) = [].
Proof.
  induction l as [|fc l IH]; [reflexivity|].
  cbn [flat_map]. rewrite status_changes_app, IH, app_nil_r.
  unfold tool_call_events.
  destruct (String.eqb (fc_name fc) "update_lead" && onLeadUpdate st); reflexivity.
Qed.

Lemma turnComplete_events_changes m st :
  status_changes (turnComplete_events m st) = [].
Proof.
  unfold turnComplete_events.
  destruct (flushes_input m st); destruct (flushes_output m st); reflexivity.
Qed.

Lemma source_stops_changes l : status_changes (map SourceStop l) = [].
Proof. induction l; [reflexivity | assumption]. Qed.

Lemma microtask_events_changes st : status_changes (microtask_events st) = [].
Proof.
  apply session_calls_unobserved.
  - intros [] H; try discriminate H; reflexivity.
  - apply microtask_events_calls.
Qed.

Lemma after_microtasks_status st :
  currentStatus (after_microtasks st) = currentStatus st.
Proof. reflexivity. Qed.

Lemma after_microtasks_sources st : sources (after_microtasks st) = sources st.
Proof. reflexivity. Qed.

Lemma after_microtasks_callback st :
  onStatusChange (after_microtasks st) = onStatusChange st.
Proof. reflexivity. Qed.

Lemma handleAudio_reports m now st :
  let r := handleAudio m now st in
  onStatusChange (final r) = onStatusChange st
  /\ (onStatusChange st = true ->
      last (status_changes (trace r)) (currentStatus st) = currentStatus (final r))
  /\ (currentStatus st = error ->
      currentStatus (final r) = error /\ status_changes (trace r) = []).
Proof.
  cbv zeta. rewrite handleAudio_eq.
  destruct (audio_present m st); [|repeat split; auto].
  cbv zeta. unfold speaking_events, status_after, status_events.
  destruct (decoded_audio m); destruct (audio_awaited m);
    rewrite ?final_mk, ?trace_mk, ?status_changes_app, ?microtask_events_changes,
      ?app_nil_r;
    cbn [currentStatus onStatusChange set_nextStartTime set_currentStatus
         set_sources set_freshSource after_microtasks set_microtasks];
    (split; [reflexivity|]);
    destruct (currentStatus st); cbn;
    (split; [intros Hcb; rewrite ?Hcb; reflexivity
            | intros H; try discriminate H; split; reflexivity]).
Qed.

(** One stimulus: the callbacks stay registered, and with a status
    callback registered the last status reported, if any, is the status
    left; a failed client stays failed and reports nothing. *)
Lemma react_status s st :
  let r := react s st in
  onStatusChange (final r) = onStatusChange st
  /\ (onStatusChange st = true ->
      last (status_changes (trace r)) (currentStatus st) = currentStatus (final r))
  /\ (currentStatus st = error ->
      currentStatus (final r) = error /\ status_changes (trace r) = []).
Proof.
  destruct s as [m now | source | rms dateNow inputData]; cbn [react]; cbv zeta.
  - (* an inbound message *)
    rewrite handleMessage_final, handleMessage_trace. cbv zeta.
    destruct (before_audio_frame m st) as (_ & _ & _ & _ & Fc & _ & _ & Fo & _).
    pose proof (handleAudio_reports m now (before_audio m st)) as Ha. cbv zeta in Ha.
    rewrite Fc, Fo in Ha.
    remember (before_audio m st) as st2 eqn:E2. clear E2 Fc Fo.
    rewrite !status_changes_app, tool_call_events_changes, turnComplete_events_changes.
    cbn [app]. rewrite after_microtasks_status, after_microtasks_callback.
    destruct Ha as (A1 & A2 & A3).
    destruct (outcome (handleAudio m now st2)) as [e|[]].
    + rewrite microtask_events_changes, app_nil_r.
      repeat split; auto; apply A3; assumption.
    + rewrite handleInterrupted_eq.
      destruct (isInterrupted m); rewrite ?final_mk, ?trace_mk.
      * rewrite !status_changes_app, source_stops_changes, status_events_changes,
          microtask_events_changes.
        cbn [app]. rewrite app_nil_r, after_interrupted_status, A1.
        unfold after_interrupted.
        cbn [onStatusChange set_currentOutputTranscription set_voiceActivity
             set_currentStatus set_nextStartTime set_sources].
        split; [exact A1|]. split.
        -- intros Hcb. rewrite Hcb. specialize (A2 Hcb). cbn [status_eqb negb andb].
           rewrite andb_true_r.
           destruct (status_eqb (currentStatus (final (handleAudio m now st2))) error)
             eqn:E.
           ++ cbn [andb]. rewrite app_nil_r, A2. now apply status_eqb_eq in E.
           ++ cbn [andb]. now rewrite last_last.
        -- intros Herr. destruct (A3 Herr) as [A4 A5]. rewrite A4, A5. cbn.
           destruct (onStatusChange st); split; reflexivity.
      * cbn [app]. rewrite microtask_events_changes, app_nil_r.
        repeat split; auto; apply A3; assumption.
  - (* a playback node has ended *)
    rewrite sourceEnded_eq, final_mk, trace_mk.
    destruct (Nat.eqb _ 0).
    + rewrite status_events_changes. unfold status_after.
      cbn [onStatusChange currentStatus set_voiceActivity set_currentStatus set_sources].
      split; [reflexivity|]. split.
      * intros Hcb. rewrite ?Hcb. destruct (currentStatus st); reflexivity.
      * intros ->. cbn. destruct (onStatusChange st); split; reflexivity.
    + cbn [onStatusChange currentStatus set_sources]. repeat split; auto.
  - (* a captured block *)
    rewrite onaudioprocess_eq. cbv zeta. rewrite final_mk, trace_mk.
    destruct (block_state [RealtimeInput (createBlob inputData)] rms dateNow st) as (-> & _ & _ & ->).
    rewrite !status_changes_app, microtask_events_changes, app_nil_r.
    assert (Hv : status_changes (volume_events rms st) = []).
    { unfold volume_events.
      destruct (negb (status_eqb (currentStatus st) speaking) && onVolumeUpdate st);
        reflexivity. }
    rewrite Hv. cbn [app].
    unfold after_voice, voice_events, status_after.
    destruct (negb (Qle_bool rms speech_threshold));
      [destruct (negb (status_eqb (currentStatus st) listening)
                 && negb (status_eqb (currentStatus st) speaking)) eqn:E1
      |destruct ((status_eqb (currentStatus st) listening && hasSpokenOnce st)
                 && ((800 <? dateNow - lastUserInteraction st)
                     && (dateNow - lastUserInteraction st <? 3000))) eqn:E1];
      rewrite ?status_events_changes;
      cbn [onStatusChange currentStatus set_voiceActivity set_currentStatus];
      (split; [reflexivity|]);
      (split; [intros Hcb; rewrite ?Hcb; destruct (currentStatus st); reflexivity
              |intros Herr; rewrite Herr in *; cbn in *;
               try discriminate E1; destruct (onStatusChange st); split; reflexivity]).
Qed.

Lemma reacts_cons s rest st :
  reacts (s :: rest) st
  = (fst (reacts rest (final (react s st))),
     trace (react s st) ++ snd (reacts rest (final (react s st)))).
Proof.
  cbn [reacts]. destruct (reacts rest (final (react s st))); reflexivity.
Qed.

(** X8.  A failed client stays failed whatever arrives: inbound messages,
    ends of playback and captured blocks leave the status [error] and
    never call the status callback. *)
Theorem error_persists :
  forall (stimuli : list Stimulus) (st : LiveClient),
    currentStatus st = error ->
    currentStatus (fst (reacts stimuli st)) = error
    /\ status_changes (snd (reacts stimuli st)) = [].
Proof.
  induction stimuli as [|s rest IH]; intros st Herr; [split; [exact Herr | reflexivity]|].
  rewrite reacts_cons. cbn [fst snd].
  destruct (react_status s st) as (_ & _ & H). destruct (H Herr) as [H1 H2].
  destruct (IH _ H1) as [H3 H4].
  split; [exact H3|]. rewrite status_changes_app, H2, H4. reflexivity.
Qed.

Lemma reacts_callback stimuli st :
  onStatusChange (fst (reacts stimuli st)) = onStatusChange st.
Proof.
  revert st. induction stimuli as [|s rest IH]; intros st; [reflexivity|].
  rewrite reacts_cons. cbn [fst]. rewrite IH.
  apply (react_status s st).
Qed.

(** X9.  With a status callback registered, the status the application
    displays after any sequence of inbound messages, ends of playback
    and captured blocks is the status of the client. *)
Theorem displayed_status_tracks :
  forall (stimuli : list Stimulus) (st : LiveClient),
    onStatusChange st = true ->
    displayed_status (currentStatus st) (snd (reacts stimuli st))
    = currentStatus (fst (reacts stimuli st)).
Proof.
  induction stimuli as [|s rest IH]; intros st Hcb; [reflexivity|].
  rewrite reacts_cons. cbn [fst snd].
  destruct (react_status s st) as (H1 & H2 & _).
  unfold displayed_status. rewrite fold_left_app.
  fold (displayed_status (currentStatus st) (trace (react s st))).
  rewrite displayed_status_last, (H2 Hcb).
  apply IH. rewrite H1. exact Hcb.
Qed.

(* ------------------------------------------------------------------ *)

Lemma tool_call_events_scheduled st l :
  scheduled (flat_map (tool_call_events st) l) = [].
Proof.
  induction l as [|fc l IH]; [reflexivity|].
  cbn [flat_map]. rewrite scheduled_app, IH, app_nil_r.
  unfold tool_call_events.
  destruct (String.eqb (fc_name fc) "update_lead" && onLeadUpdate st); reflexivity.
Qed.

Lemma turnComplete_events_scheduled m st : scheduled (turnComplete_events m st) = [].
Proof.
  unfold turnComplete_events.
  destruct (flushes_input m st); destruct (flushes_output m st); reflexivity.
Qed.

Lemma status_events_scheduled request st : scheduled (status_events request st) = [].
Proof.
  unfold status_events.
  destruct (status_eqb (currentStatus st) error && negb (status_eqb request idle)
            && negb (status_eqb request connecting));
    destruct (onStatusChange st); reflexivity.
Qed.

Lemma source_stops_scheduled l : scheduled (map SourceStop l) = [].
Proof. induction l; [reflexivity | assumption]. Qed.

Lemma microtask_events_scheduled st : scheduled (microtask_events st) = [].
Proof. exact (proj1 (proj2 (microtask_events_plain st))). Qed.

Lemma tool_call_events_no_stop st l s :
  ~ In (SourceStop s) (flat_map (tool_call_events st) l).
Proof.
  intros H. apply tool_call_events_in in H. discriminate H.
Qed.

Lemma turnComplete_events_no_stop m st s :
  ~ In (SourceStop s) (turnComplete_events m st).
Proof.
  intros H. apply turnComplete_events_in in H. destruct H as (t & r & H). discriminate H.
Qed.

Lemma status_events_no_stop request st s :
  ~ In (SourceStop s) (status_events request st).
Proof.
  unfold status_events.
  destruct (status_eqb (currentStatus st) error && negb (status_eqb request idle)
            && negb (status_eqb request connecting));
    destruct (onStatusChange st); cbn; intuition discriminate.
Qed.

(** X10.  A chunk that cannot be decoded (bad base64, an odd number of octets,
    no sample at all) makes the handler throw after the status has been
    moved to [speaking] and the playback cursor to the clock: nothing is
    scheduled, the playing segments are kept, and an interruption
    carried by the same message is not carried out. *)
Theorem malformed_audio_aborts :
  forall (m : LiveServerMessage) (now : Q) (st : LiveClient) (e : Exn),
    audio_present m st = true ->
    decoded_audio m = inl e ->
    let r := handleMessage m now st in
    outcome r = inl e
    /\ scheduled (trace r) = []
    /\ (forall s, ~ In (SourceStop s) (trace r))
    /\ sources (final r) = sources st
    /\ nextStartTime (final r) = Math_max (nextStartTime st) now
    /\ currentStatus (final r)
       = (if status_eqb (currentStatus st) error then error else speaking).
Proof.
  intros m now st e Hpresent Hdecoded r. subst r.
  rewrite handleMessage_outcome, handleMessage_final, handleMessage_trace. cbv zeta.
  destruct (before_audio_frame m st) as (F1 & F2 & Fs & Fn & Fc & _ & _ & Fo & _).
  assert (Hp : audio_present m (before_audio m st) = true)
    by (unfold audio_present in *; rewrite F1, F2; exact Hpresent).
  assert (Hsp : speaking_events (before_audio m st) = speaking_events st)
    by (unfold speaking_events, status_events; rewrite Fc, Fo; reflexivity).
  assert (Hsa : status_after speaking (before_audio m st) = status_after speaking st)
    by (unfold status_after; rewrite Fc; reflexivity).
  remember (before_audio m st) as st2 eqn:E2. clear E2 F1 F2.
  rewrite !handleAudio_eq, Hp, Hdecoded. cbv zeta.
  rewrite ?outcome_mk, ?final_mk, ?trace_mk, Hsp, Hsa, Fc, Fn.
  split; [reflexivity|]. split.
  { destruct (audio_awaited m);
      rewrite !scheduled_app, tool_call_events_scheduled, turnComplete_events_scheduled,
        speaking_events_scheduled, ?microtask_events_scheduled; reflexivity. }
  split.
  { intros s H. apply in_app_or in H. destruct H as [H|H];
      [exact (tool_call_events_no_stop _ _ _ H)|].
    apply in_app_or in H. destruct H as [H|H];
      [exact (turnComplete_events_no_stop _ _ _ H)|].
    apply in_app_or in H. destruct H as [H|H].
    2:{ apply microtask_events_calls in H. discriminate H. }
    apply in_app_or in H. destruct H as [H|H].
    - unfold speaking_events in H.
      destruct (status_eqb (currentStatus st) speaking); [contradiction|].
      exact (status_events_no_stop _ _ _ H).
    - destruct (audio_awaited m); [|contradiction].
      apply microtask_events_calls in H. discriminate H. }
  assert (Hf : forall s x y,
             sources (set_nextStartTime (set_currentStatus s x) y) = sources s
             /\ nextStartTime (set_nextStartTime (set_currentStatus s x) y) = y
             /\ currentStatus (set_nextStartTime (set_currentStatus s x) y) = x)
    by (intros s x y; destruct s; repeat split; reflexivity).
  destruct (after_microtasks_frame
              (if audio_awaited m
               then after_microtasks
                      (set_nextStartTime
                         (set_currentStatus st2
                            (if status_eqb (currentStatus st) speaking
                             then speaking else status_after speaking st))
                         (Math_max (nextStartTime st) now))
               else set_nextStartTime
                      (set_currentStatus st2
                         (if status_eqb (currentStatus st) speaking
                          then speaking else status_after speaking st))
                      (Math_max (nextStartTime st) now)))
    as (-> & _ & _ & -> & -> & _).
  destruct (audio_awaited m);
    rewrite ?after_microtasks_sources, ?after_microtasks_status;
    try (destruct (after_microtasks_frame
                     (set_nextStartTime
                        (set_currentStatus st2
                           (if status_eqb (currentStatus st) speaking
                            then speaking else status_after speaking st))
                        (Math_max (nextStartTime st) now))) as (-> & _));
    destruct (Hf st2 (if status_eqb (currentStatus st) speaking
                      then speaking else status_after speaking st)
                (Math_max (nextStartTime st) now)) as (-> & -> & ->);
    (split; [exact Fs|]); (split; [reflexivity|]);
    unfold status_after; destruct (currentStatus st); reflexivity.
Qed.

(* ------------------------------------------------------------------ *)

Lemma filter_empty_length {A} (f : A -> bool) (l : list A) :
  Nat.eqb (List.length (filter f l)) 0 = true <-> filter f l = [].
Proof.
  destruct (filter f l); cbn; split; intros H; try discriminate H; reflexivity.
Qed.

(** X11.  Once every playing segment has ended, in whatever order and with
    whatever other segments ending in between, nothing is left playing
    and a client that has not failed is [listening], with the memory of
    the last speech of the user erased. *)
Theorem playback_drains :
  forall (ended : list nat) (st : LiveClient),
    sources st <> [] ->
    currentStatus st <> error ->
    (forall s, In s (sources st) -> In s ended) ->
    let st' := fst (reacts (map Ended ended) st) in
    sources st' = []
    /\ currentStatus st' = listening
    /\ hasSpokenOnce st' = false
    /\ lastUserInteraction st' = 0.
Proof.
  intros ended st Hplaying Herr Hall.
  assert (G : forall (ended : list nat) (st : LiveClient),
             currentStatus st <> error ->
             (forall s, In s (sources st) -> In s ended) ->
             sources st <> []
             \/ (sources st = [] /\ currentStatus st = listening
                 /\ hasSpokenOnce st = false /\ lastUserInteraction st = 0) ->
             let st' := fst (reacts (map Ended ended) st) in
             sources st' = [] /\ currentStatus st' = listening
             /\ hasSpokenOnce st' = false /\ lastUserInteraction st' = 0).
  { clear. induction ended as [|s rest IH]; intros st Herr Hall Hinv.
    - cbn. destruct Hinv as [Hne|Hdone]; [|exact Hdone].
      destruct (sources st) as [|x l]; [congruence|].
      destruct (Hall x (or_introl eq_refl)).
    - cbn [map]. cbv zeta. rewrite reacts_cons. cbn [fst react].
      rewrite sourceEnded_eq, final_mk.
      apply IH.
      + destruct (Nat.eqb _ 0); cbn [currentStatus set_voiceActivity set_currentStatus
                                      set_sources]; [|exact Herr].
        unfold status_after. destruct (currentStatus st); cbn; congruence.
      + intros x Hx.
        assert (Hin : In x (filter (fun y => negb (Nat.eqb y s)) (sources st)))
          by (destruct (Nat.eqb _ 0); exact Hx).
        apply filter_In in Hin. destruct Hin as [Hin Hneq].
        destruct (Hall x Hin) as [Heq|Hrest]; [|exact Hrest].
        subst x. rewrite Nat.eqb_refl in Hneq. discriminate Hneq.
      + destruct (Nat.eqb (List.length
                             (filter (fun y => negb (Nat.eqb y s)) (sources st))) 0)
          eqn:E.
        * right. apply filter_empty_length in E.
          cbn [sources currentStatus hasSpokenOnce lastUserInteraction
               set_voiceActivity set_currentStatus set_sources].
          split; [exact E|]. split; [|split; reflexivity].
          unfold status_after. destruct (currentStatus st); cbn; congruence.
        * left. cbn [sources set_sources]. intros H.
          rewrite H in E. discriminate E. }
  apply G; auto.
Qed.

(* ------------------------------------------------------------------ *)

Ltac by_fields st :=
  destruct st as [f1 f2 f3 f4 f5 f6 f7 f8 f9 f10 f11 f12 f13 [[rs mime]|]
                  f15 f16 f17 f18 f19 f20 f21 f22 f23 f24 f25];
  vm_compute; repeat split; reflexivity.

Lemma after_disconnect_released env st : released (after_disconnect env st).
Proof. unfold released. by_fields st. Qed.

Lemma after_disconnect_memory env st :
  memory (after_disconnect env st) = memory st.
Proof. by_fields st. Qed.

Lemma after_disconnect_kept env st :
  currentStatus (after_disconnect env st) = idle
  /\ onStatusChange (after_disconnect env st) = onStatusChange st
  /\ onLeadUpdate (after_disconnect env st) = onLeadUpdate st
  /\ onTranscript (after_disconnect env st) = onTranscript st
  /\ onVolumeUpdate (after_disconnect env st) = onVolumeUpdate st
  /\ onAudioRecord (after_disconnect env st) = onAudioRecord st.
Proof. by_fields st. Qed.

Lemma after_disconnect_leftovers env st :
  audioChunks (after_disconnect env st)
  = (if recorder_active st && Nat.ltb 0 (blob_size (final_data env))
     then audioChunks st ++ [final_data env]
     else audioChunks st)
  /\ (mediaRecorder (after_disconnect env st) = None <-> mediaRecorder st = None)
  /\ outputNode (after_disconnect env st) = outputNode st
  /\ outputAnalyser (after_disconnect env st) = outputAnalyser st.
Proof.
  destruct st as [f1 f2 f3 f4 f5 f6 f7 f8 f9 f10 f11 f12 f13 [[rs mime]|]
                  f15 f16 f17 f18 f19 f20 f21 f22 f23 f24 f25];
    vm_compute; repeat split; try reflexivity; intros H; discriminate H.
Qed.

(** X12.  What [disconnect] does not give back.  The recorder object stays
    (inactive) with the chunks recorded, to which the data delivered on
    stopping are added; the output gain node and analyser stay; the
    playback cursor, the voice activity and the transcripts not yet
    delivered stay; the callbacks stay registered. *)
Theorem disconnect_keeps :
  forall (env : TeardownEnv) (st : LiveClient),
    let st' := final (disconnect env st) in
    memory st' = memory st
    /\ audioChunks st'
       = (if recorder_active st && Nat.ltb 0 (blob_size (final_data env))
          then audioChunks st ++ [final_data env]
          else audioChunks st)
    /\ (mediaRecorder st' = None <-> mediaRecorder st = None)
    /\ outputNode st' = outputNode st
    /\ outputAnalyser st' = outputAnalyser st
    /\ onStatusChange st' = onStatusChange st
    /\ onLeadUpdate st' = onLeadUpdate st
    /\ onTranscript st' = onTranscript st
    /\ onVolumeUpdate st' = onVolumeUpdate st
    /\ onAudioRecord st' = onAudioRecord st.
Proof.
  intros env st st'. subst st'. rewrite disconnect_eq, final_mk.
  destruct (after_disconnect_kept env st) as (_ & K1 & K2 & K3 & K4 & K5).
  destruct (after_disconnect_leftovers env st) as (L1 & L2 & L3 & L4).
  split; [exact (after_disconnect_memory env st)|].
  split; [exact L1|]. split; [exact L2|]. split; [exact L3|]. split; [exact L4|].
  split; [exact K1|]. split; [exact K2|]. split; [exact K3|]. split; [exact K4|].
  exact K5.
Qed.

(** X13.  A message handled after [disconnect] plays nothing and answers no
    tool call, and its handler completes; the lead callback is still
    called for each [update_lead] call, and an interruption moves the
    client from [idle] to [listening]. *)
Theorem message_after_disconnect :
  forall (env : TeardownEnv) (st0 : LiveClient) (m : LiveServerMessage) (now : Q),
    let st := final (disconnect env st0) in
    let r := handleMessage m now st in
    outcome r = inr tt
    /\ scheduled (trace r) = []
    /\ tool_events (trace r)
       = (if onLeadUpdate st0
          then map (fun fc => LeadUpdate (fc_args fc))
                 (filter (fun fc => String.eqb (fc_name fc) "update_lead")
                    (functionCalls m))
          else [])
    /\ sources (final r) = []
    /\ currentStatus (final r) = (if isInterrupted m then listening else idle).
Proof.
  intros env st0 m now st r. subst r st.
  rewrite disconnect_eq, final_mk.
  destruct (after_disconnect_released env st0) as (Hs & _ & _ & _ & _ & _ & Hctx & Hsrc).
  destruct (after_disconnect_kept env st0) as (Hidle & _ & Hlead & _).
  remember (after_disconnect env st0) as st eqn:E. clear E.
  destruct (before_audio_frame m st)
    as (F1 & _ & F3 & _ & F4 & _ & _ & _ & _ & _ & _ & _ & Fm).
  rewrite Hs in Fm.
  remember (before_audio m st) as st2 eqn:E2.
  assert (Hau : handleAudio m now st2 = (inr tt, st2, [])).
  { rewrite handleAudio_eq. unfold audio_present. rewrite F1, Hctx.
    destruct (base64Audio m); reflexivity. }
  assert (Hin : handleInterrupted m st2
                = (inr tt, (if isInterrupted m then after_interrupted st2 else st2),
                   if isInterrupted m then status_events listening st2 else [])).
  { rewrite handleInterrupted_eq, F3, Hsrc. destruct (isInterrupted m); reflexivity. }
  split; [now rewrite handleMessage_outcome, <- E2, Hau|].
  split; [now rewrite handleMessage_scheduled, <- E2, Hau|].
  split.
  { rewrite handleMessage_tool_events, <- E2. unfold microtask_events.
    rewrite Fm. cbn [map]. unfold tool_events. cbn [filter]. rewrite app_nil_r.
    clear E2 Hau Hin.
    induction (functionCalls m) as [|fc l IH]; [now destruct (onLeadUpdate st0)|].
    cbn [flat_map filter]. rewrite filter_app, IH.
    unfold tool_call_events. rewrite Hlead.
    destruct (String.eqb (fc_name fc) "update_lead"), (onLeadUpdate st0); reflexivity. }
  rewrite handleMessage_final. cbv zeta.
  rewrite <- E2, Hau, outcome_mk, final_mk, Hin, final_mk.
  rewrite after_microtasks_status, after_microtasks_sources.
  destruct (isInterrupted m).
  - rewrite after_interrupted_status, F4, Hidle. clear. split; reflexivity.
  - rewrite F3, F4. split; [exact Hsrc | exact Hidle].
Qed.

(* ------------------------------------------------------------------ *)

Lemma call_events_changes l : status_changes (map call_event l) = [].
Proof. induction l as [|[] l IH]; [reflexivity | exact IH | exact IH]. Qed.

Lemma teardown_events_changes env st :
  status_changes (teardown_events env st) = if onStatusChange st then [idle] else [].
Proof.
  unfold teardown_events. rewrite !status_changes_app.
  replace (status_changes (closeSession_events env st)) with (@nil AgentStatus)
    by (unfold closeSession_events; destruct (sessionPromise st) as [[reactions| |]|];
        destruct (pending_fulfils env); destruct (session_close_throws env);
        rewrite ?status_changes_app, ?call_events_changes; reflexivity).
  replace (status_changes (stopRecorder_events env st)) with (@nil AgentStatus)
    by (unfold stopRecorder_events; destruct (recorder_active st);
        [destruct (_ && _)|]; reflexivity).
  replace (status_changes (clearInterval_events st)) with (@nil AgentStatus)
    by (unfold clearInterval_events; destruct (outputVolumeInterval st); reflexivity).
  replace (status_changes (stopTracks_events st)) with (@nil AgentStatus)
    by (unfold stopTracks_events; destruct (stream st) as [l|];
        [induction l; [reflexivity | assumption] | reflexivity]).
  replace (status_changes (inputNode_events st)) with (@nil AgentStatus)
    by (unfold inputNode_events; destruct (inputNode st); reflexivity).
  replace (status_changes
             (closeContext_events InputContext (input_close_rejects env)
                (inputAudioContext st))) with (@nil AgentStatus)
    by (destruct (inputAudioContext st) as [[| |]|];
        destruct (input_close_rejects env); reflexivity).
  replace (status_changes
             (closeContext_events OutputContext (output_close_rejects env)
                (outputAudioContext st))) with (@nil AgentStatus)
    by (destruct (outputAudioContext st) as [[| |]|];
        destruct (output_close_rejects env); reflexivity).
  rewrite source_stops_changes. cbn [app].
  destruct (onStatusChange st); reflexivity.
Qed.

Lemma connect_prefix_changes env st :
  status_changes (connect_prefix env st)
  = if onStatusChange st then [idle; connecting] else [].
Proof.
  unfold connect_prefix. rewrite !status_changes_app, teardown_events_changes.
  destruct (onStatusChange st); reflexivity.
Qed.

Lemma connect_prefix_attempts env st : attempts (connect_prefix env st) = [].
Proof.
  unfold connect_prefix.
  rewrite (proj1 (observed_app _ _)), (proj1 (observed_app _ _)).
  rewrite (proj1 (teardown_events_quiet _ _)).
  destruct (onStatusChange st); reflexivity.
Qed.

Lemma retry_events_changes rank retries k :
  status_changes (retry_events rank retries k) = [].
Proof.
  unfold retry_events. induction (seq 0 k) as [|i l IH]; [reflexivity|].
  cbn [flat_map]. rewrite status_changes_app, IH. reflexivity.
Qed.

Lemma setupRecording_events_changes env :
  status_changes (setupRecording_events env) = [].
Proof.
  unfold setupRecording_events.
  destruct (recorder_constructor_throws env || recorder_start_throws env); reflexivity.
Qed.

Lemma connectWithRetry_final env retries :
  forall rank st,
    final (connectWithRetry env retries rank st) = st
    \/ final (connectWithRetry env retries rank st) = after_onopen env st.
Proof.
  induction retries as [|n IH]; intros rank st;
    destruct (attempt env rank) as [|message status] eqn:E.
  - right. now rewrite (connectWithRetry_open _ _ _ _ E).
  - left. now rewrite (connectWithRetry_propagates _ _ _ _ _ _ E (or_introl eq_refl)).
  - right. now rewrite (connectWithRetry_open _ _ _ _ E).
  - destruct (is_unavailable message status) eqn:U.
    + rewrite connectWithRetry_retries by (unfold transient_failure; now rewrite E).
      rewrite final_mk. apply IH.
    + left. now rewrite (connectWithRetry_propagates _ _ _ _ _ _ E (or_intror U)).
Qed.

Lemma memory_after_onopen env st : memory (after_onopen env st) = memory st.
Proof. destruct st; reflexivity. Qed.

Lemma memory_set_sessionPromise st v : memory (set_sessionPromise st v) = memory st.
Proof. destruct st; reflexivity. Qed.

Lemma memory_set_currentStatus st v : memory (set_currentStatus st v) = memory st.
Proof. destruct st; reflexivity. Qed.

Lemma memory_set_pendingTeardown st v : memory (set_pendingTeardown st v) = memory st.
Proof. destruct st; reflexivity. Qed.

Lemma memory_connecting_state env st : memory (connecting_state env st) = memory st.
Proof. by_fields st. Qed.

Lemma memory_dialing_state env st tracks :
  memory (dialing_state env st tracks) = memory st.
Proof. by_fields st. Qed.

Lemma connect_memory env st : memory (final (connect env st)) = memory st.
Proof.
  rewrite connect_eq. destruct (getUserMedia env) as [tracks|].
  - cbv zeta.
    destruct (connectWithRetry_final env 3 0 (dialing_state env st tracks)) as [H|H];
      destruct (outcome (connectWithRetry env 3 0 (dialing_state env st tracks)));
      rewrite final_mk, H, ?memory_set_pendingTeardown,
        ?memory_set_currentStatus, ?memory_set_sessionPromise, ?memory_after_onopen;
      apply memory_dialing_state.
  - rewrite final_mk, memory_set_pendingTeardown, memory_set_currentStatus.
    apply memory_connecting_state.
Qed.

(** X14.  [connect] resets neither the playback cursor, nor the voice
    activity, nor the transcripts not yet delivered, whether it succeeds
    or not; so a chunk played after a reconnection starts no earlier
    than the cursor that the previous session left. *)
Theorem reconnection_keeps_memory :
  forall (env : ConnectEnv) (st : LiveClient),
    let st' := final (connect env st) in
    memory st' = memory st
    /\ (forall (m : LiveServerMessage) (now t d : Q),
          In (t, d) (scheduled (trace (handleMessage m now st'))) ->
          t = Math_max (nextStartTime st) now).
Proof.
  intros env st st'. subst st'.
  pose proof (connect_memory env st) as Hm.
  split; [exact Hm|].
  remember (final (connect env st)) as st' eqn:E. clear E.
  assert (Hn : nextStartTime st' = nextStartTime st)
    by (unfold memory in Hm; congruence).
  clear Hm. intros m now t d Hin.
  rewrite handleMessage_scheduled in Hin.
  destruct (before_audio_frame m st') as (_ & _ & _ & F4 & _).
  pose proof (handleAudio_schedule m now (before_audio m st')) as H. cbv zeta in H.
  remember (before_audio m st') as st2 eqn:E2. clear E2.
  destruct (plays st2 (m, now)).
  - destruct H as (H & _). rewrite H in Hin.
    destruct Hin as [Hin|[]]. rewrite F4, Hn in Hin. congruence.
  - destruct H as (H & _). rewrite H in Hin. destruct Hin.
Qed.

(* ------------------------------------------------------------------ *)

Lemma refused_state_fields env st :
  let st' := set_pendingTeardown (set_currentStatus (connecting_state env st) error)
               (Some AtInputClose) in
  currentStatus st' = error
  /\ sessionPromise st' = None
  /\ stream st' = None
  /\ recorder_active st' = false
  /\ outputAudioContext st' = Some ctx_running
  /\ pendingTeardown st' = Some AtInputClose
  /\ onStatusChange st' = onStatusChange st.
Proof. by_fields st. Qed.

Lemma refused_state_resumed env after st :
  let st' := set_pendingTeardown (set_currentStatus (connecting_state env st) error)
               (Some AtInputClose) in
  resumed_events after st'
  = (if input_close_rejects after
     then [Console (ErrorClosingContext InputContext)] else [])
    ++ ContextClose OutputContext
       :: (if output_close_rejects after
           then [Console (ErrorClosingContext OutputContext)] else [])
    ++ (if onStatusChange st then [StatusChange idle] else [])
  /\ released (after_resumed st')
  /\ currentStatus (after_resumed st') = idle
  /\ onStatusChange (after_resumed st') = onStatusChange st.
Proof.
  unfold released, resumed_events.
  destruct st as [f1 f2 f3 f4 f5 f6 f7 f8 f9 f10 f11 f12 f13 [[rs mime]|]
                  f15 f16 f17 f18 f19 f20 f21 f22 f23 f24 f25];
    cbn; repeat split; reflexivity.
Qed.

(** X15.  When the microphone is refused, [connect] makes no connection
    attempt and starts no recorder, and reports [idle], [connecting] and
    [error].  The teardown that it starts without awaiting it has called
    [close] on the input context when [connect] returns, and is
    suspended there: the client is [error], without session and without
    stream, and the output context is not closed yet.  When that
    teardown goes on, it closes the output context and reports [idle],
    and every resource is released. *)
Theorem microphone_refused :
  forall (env : ConnectEnv) (after : TeardownEnv) (st : LiveClient),
    getUserMedia env = None ->
    let r := connect env st in
    let r' := resumeTeardown after (final r) in
    outcome r = inr true
    /\ trace r = connect_prefix env st ++ failure_events st ++ [ContextClose InputContext]
    /\ pendingTeardown (final r) = Some AtInputClose
    /\ currentStatus (final r) = error
    /\ sessionPromise (final r) = None
    /\ stream (final r) = None
    /\ recorder_active (final r) = false
    /\ outputAudioContext (final r) = Some ctx_running
    /\ attempts (trace r) = []
    /\ (forall mime, ~ In (RecorderStart mime) (trace r))
    /\ status_changes (trace r)
       = (if onStatusChange st then [idle; connecting; error] else [])
    /\ outcome r' = inr tt
    /\ trace r'
       = (if input_close_rejects after
          then [Console (ErrorClosingContext InputContext)] else [])
         ++ ContextClose OutputContext
            :: (if output_close_rejects after
                then [Console (ErrorClosingContext OutputContext)] else [])
         ++ (if onStatusChange st then [StatusChange idle] else [])
    /\ released (final r')
    /\ currentStatus (final r') = idle.
Proof.
  intros env after st Hmic r r'. subst r' r. rewrite connect_eq, Hmic.
  rewrite outcome_mk, final_mk, trace_mk.
  destruct (refused_state_fields env st) as (H1 & H2 & H3 & H4 & H5 & H6 & _).
  destruct (refused_state_resumed env after st) as (R1 & R2 & R3 & _).
  rewrite (resume_at_input after _ H6), outcome_mk, final_mk, trace_mk.
  split; [reflexivity|]. split; [reflexivity|]. split; [exact H6|].
  split; [exact H1|]. split; [exact H2|]. split; [exact H3|]. split; [exact H4|].
  split; [exact H5|].
  split.
  { rewrite (proj1 (observed_app _ _)), connect_prefix_attempts.
    unfold failure_events. destruct (onStatusChange st); reflexivity. }
  split.
  { intros mime H. apply in_app_or in H. destruct H as [H|H].
    - unfold connect_prefix in H. apply in_app_or in H. destruct H as [H|H].
      + destruct (teardown_events_sorted (teardown env) st) as [_ Hb].
        rewrite Forall_forall in Hb. specialize (Hb _ H). cbn in Hb. lia.
      + destruct (onStatusChange st); cbn in H; intuition discriminate.
    - unfold failure_events in H.
      destruct (onStatusChange st); cbn in H; intuition discriminate. }
  split.
  { rewrite status_changes_app, connect_prefix_changes. unfold failure_events.
    destruct (onStatusChange st); reflexivity. }
  split; [reflexivity|]. split; [exact R1|]. split; [exact R2 | exact R3].
Qed.

Lemma opened_state_fields env st tracks :
  let st' := set_sessionPromise (after_onopen env (dialing_state env st tracks))
               (Some Fulfilled) in
  currentStatus st' = listening
  /\ sessionPromise st' = Some Fulfilled
  /\ stream st' = Some tracks
  /\ inputNode st' = true
  /\ outputVolumeInterval st' = Some (interval_handle env)
  /\ inputAudioContext st' = Some ctx_running
  /\ outputAudioContext st' = Some ctx_running
  /\ outputNode st' = true
  /\ recorder_active st'
     = negb (recorder_constructor_throws env || recorder_start_throws env)
  /\ audioChunks st' = []
  /\ sources st' = [].
Proof.
  destruct env as [tenv gum rdef its rct rst ih att]. destruct rct, rst; by_fields st.
Qed.

Lemma dialing_state_kept env st tracks :
  onStatusChange (dialing_state env st tracks) = onStatusChange st
  /\ outputVolumeInterval (dialing_state env st tracks) = None.
Proof. by_fields st. Qed.

(** X16.  A connection that opens, at once or after retries, leaves the client
    [listening] with everything a session needs: the microphone stream,
    the capture node, the volume timer, both audio contexts and the
    fulfilled session.  A recorder that cannot be made or started does
    not prevent it: the session then runs without recording. *)
Theorem connect_acquires :
  forall (env : ConnectEnv) (st : LiveClient) (tracks : list nat) (k : nat),
    getUserMedia env = Some tracks ->
    (k <= 3)%nat ->
    (forall i, (i < k)%nat -> transient_failure (attempt env i) = true) ->
    attempt env k = Opened ->
    let r := connect env st in
    outcome r = inr false
    /\ currentStatus (final r) = listening
    /\ sessionPromise (final r) = Some Fulfilled
    /\ stream (final r) = Some tracks
    /\ inputNode (final r) = true
    /\ outputVolumeInterval (final r) = Some (interval_handle env)
    /\ inputAudioContext (final r) = Some ctx_running
    /\ outputAudioContext (final r) = Some ctx_running
    /\ outputNode (final r) = true
    /\ recorder_active (final r)
       = negb (recorder_constructor_throws env || recorder_start_throws env)
    /\ audioChunks (final r) = []
    /\ sources (final r) = []
    /\ status_changes (trace r)
       = (if onStatusChange st then [idle; connecting; listening] else []).
Proof.
  intros env st tracks k Hmic Hk Hbefore Hopen r. subst r.
  rewrite connect_eq, Hmic. cbv zeta.
  rewrite (connectWithRetry_opens env k _ Hk Hbefore Hopen).
  rewrite !outcome_mk, !final_mk, !trace_mk.
  destruct (opened_state_fields env st tracks)
    as (H1 & H2 & H3 & H4 & H5 & H6 & H7 & H8 & H9 & H10 & H11).
  repeat (split; [first [reflexivity | assumption]|]).
  rewrite !status_changes_app, connect_prefix_changes, setupRecording_events_changes,
    retry_events_changes.
  cbn [app]. change (ConnectAttempt k :: ?l) with ([ConnectAttempt k] ++ l).
  rewrite status_changes_app. unfold onopen_events.
  rewrite !status_changes_app, status_events_changes.
  destruct (dialing_state_kept env st tracks) as [K1 K2].
  rewrite K1, dialing_state_status. unfold clearInterval_events. rewrite K2.
  destruct (onStatusChange st); reflexivity.
Qed.

(** X17.  A session error reports [error] (unless the client had already
    failed) and then, once the teardown it starts has run, [idle]: the
    client ends [idle] with nothing held. *)
Theorem session_error_settles_idle :
  forall (env : TeardownEnv) (st : LiveClient),
    let r := onerror env st in
    outcome r = inr tt
    /\ released (final r)
    /\ currentStatus (final r) = idle
    /\ status_changes (trace r)
       = (if onStatusChange st
          then (if status_eqb (currentStatus st) error then [idle] else [error; idle])
          else []).
Proof.
  intros env st r. subst r. unfold onerror.
  rewrite (bind_normal _ _ _ _ _ _ (setStatus_closed error st)), disconnect_eq.
  rewrite ?outcome_mk, ?final_mk, ?trace_mk.
  split; [reflexivity|]. split; [apply after_disconnect_released|].
  split; [exact (proj1 (after_disconnect_kept _ _))|].
  rewrite status_changes_app, status_events_changes, teardown_events_changes.
  cbn [onStatusChange set_currentStatus].
  destruct (onStatusChange st); [|reflexivity].
  destruct (currentStatus st); reflexivity.
Qed.

(** X18.  When the service closes the session, the client reports [idle] but
    releases nothing: the capture goes on.  A block louder than the
    threshold puts the client back to [listening]; the volume callback
    gets the binary64 product of its level by 5; and the block is still
    handed to the session promise: it is sent when the listener returns
    if the promise is fulfilled, it waits in the promise if the promise
    is pending, and it is dropped otherwise. *)
Theorem closed_session_keeps_capturing :
  forall (st : LiveClient) (rms : Q) (dateNow : Z) (inputData : list number),
    (speech_threshold < rms)%Q ->
    let st1 := final (onclose st) in
    let r := onaudioprocess rms dateNow inputData st1 in
    currentStatus st1 = idle
    /\ stream st1 = stream st
    /\ inputNode st1 = inputNode st
    /\ sessionPromise st1 = sessionPromise st
    /\ inputAudioContext st1 = inputAudioContext st
    /\ outputVolumeInterval st1 = outputVolumeInterval st
    /\ outcome r = inr tt
    /\ currentStatus (final r) = listening
    /\ trace r
       = (if onVolumeUpdate st then [VolumeUpdate (binary64 (rms * 5))] else [])
         ++ (if onStatusChange st then [StatusChange listening] else [])
         ++ match sessionPromise st with
            | Some Fulfilled => [SendRealtimeInput (createBlob inputData)]
            | _ => []
            end
    /\ sessionPromise (final r)
       = match sessionPromise st with
         | Some (Pending reactions) =>
             Some (Pending (reactions ++ [RealtimeInput (createBlob inputData)]))
         | p => p
         end.
Proof.
  intros st rms dateNow inputData Hloud st1 r. subst r st1.
  unfold onclose. rewrite setStatus_closed, final_mk.
  assert (Hidle : status_after idle st = idle)
    by (unfold status_after; destruct (currentStatus st); reflexivity).
  rewrite Hidle. rewrite onaudioprocess_eq. cbv zeta.
  rewrite outcome_mk, final_mk, trace_mk.
  unfold volume_events, voice_events, after_voice, after_then, microtask_events,
    after_microtasks, status_after, status_events.
  apply Qle_bool_false in Hloud. rewrite Hloud.
  generalize (binary64 (rms * 5)). intros volume.
  generalize (createBlob inputData). intros media.
  destruct st as [f1 f2 f3 f4 f5 f6 f7 f8 [[rs| |]|] f10 f11 f12 f13 f14
                  f15 f16 f17 f18 f19 f20 f21 f22 f23 f24 f25];
    cbn; repeat split; reflexivity.
Qed.

(* ------------------------------------------------------------------ *)

Lemma sum_octets_bounds (l : list Z) :
  Forall (fun x => 0 <= x <= 255) l ->
  forall acc, acc <= fold_left Z.add l acc <= acc + 255 * Z.of_nat (List.length l).
Proof.
  induction 1 as [|x l Hx _ IH]; intros acc; cbn [fold_left List.length]; [lia|].
  specialize (IH (acc + x)). lia.
Qed.

Lemma Qlt_div_iff (a b c : Q) : (0 < c)%Q -> (a < b / c)%Q <-> (a * c < b)%Q.
Proof.
  intros Hc. split; [intros H | now apply Qlt_shift_div_l].
  apply (Qmult_lt_r _ _ c Hc) in H.
  setoid_replace (b / c * c)%Q with b in H; [exact H|].
  field. intros E. rewrite E in Hc. exact (Qlt_irrefl 0 Hc).
Qed.

(** X19.  The volume meter reports only while the client is [speaking], and
    what it reports for the octets of the analyser lies between 0 and
    255/128: it exceeds 1 when the mean of the octets exceeds 128. *)
Theorem volume_meter_range :
  forall (dataArray : list Z) (st : LiveClient) (v : Q),
    dataArray <> [] ->
    Forall (fun x => 0 <= x <= 255) dataArray ->
    volumeTick dataArray st = Some v ->
    currentStatus st = speaking
    /\ (0 <= v)%Q
    /\ (v <= 255 # 128)%Q
    /\ ((1 < v)%Q <->
        128 * Z.of_nat (List.length dataArray) < fold_left Z.add dataArray 0).
Proof.
  intros dataArray st v Hne Hoct Hv. unfold volumeTick in Hv.
  destruct (status_eqb (currentStatus st) speaking) eqn:Es; [|discriminate Hv].
  destruct (outputAnalyser st); [|discriminate Hv].
  destruct (onVolumeUpdate st); [|discriminate Hv].
  cbn [andb] in Hv. injection Hv as <-.
  apply status_eqb_eq in Es. split; [exact Es|].
  pose proof (sum_octets_bounds dataArray Hoct 0) as Hsum.
  set (s := fold_left Z.add dataArray 0) in *.
  assert (Hlen : 0 < Z.of_nat (List.length dataArray))
    by (destruct dataArray; [congruence | cbn [List.length]; lia]).
  set (n := Z.of_nat (List.length dataArray)) in *.
  assert (Hn : (0 < inject_Z n)%Q) by (change 0%Q with (inject_Z 0); now rewrite <- Zlt_Qlt).
  assert (H128 : (0 < 128)%Q) by reflexivity.
  split; [|split; [|split]].
  - apply Qle_shift_div_l; [exact H128|]. apply Qle_shift_div_l; [exact Hn|].
    rewrite !Qmult_0_l. change 0%Q with (inject_Z 0). rewrite <- Zle_Qle. lia.
  - apply Qle_shift_div_r; [exact H128|]. apply Qle_shift_div_r; [exact Hn|].
    setoid_replace ((255 # 128) * 128)%Q with (inject_Z 255) by reflexivity.
    rewrite <- inject_Z_mult, <- Zle_Qle. lia.
  - intros H. apply (Qlt_div_iff _ _ _ H128) in H. apply (Qlt_div_iff _ _ _ Hn) in H.
    setoid_replace (1 * 128)%Q with (inject_Z 128) in H by reflexivity.
    rewrite <- inject_Z_mult, <- Zlt_Qlt in H. exact H.
  - intros H. apply Qlt_shift_div_l; [exact H128|]. apply Qlt_shift_div_l; [exact Hn|].
    setoid_replace (1 * 128)%Q with (inject_Z 128) by reflexivity.
    rewrite <- inject_Z_mult, <- Zlt_Qlt. exact H.
Qed.

(* ------------------------------------------------------------------ *)

Lemma connectWithRetry_result env retries :
  forall rank st,
    (exists e, outcome (connectWithRetry env retries rank st) = inl e
               /\ final (connectWithRetry env retries rank st) = st)
    \/ (outcome (connectWithRetry env retries rank st) = inr tt
        /\ final (connectWithRetry env retries rank st) = after_onopen env st).
Proof.
  induction retries as [|n IH]; intros rank st;
    destruct (attempt env rank) as [|message status] eqn:E.
  - right. now rewrite (connectWithRetry_open _ _ _ _ E).
  - left. rewrite (connectWithRetry_propagates _ _ _ _ _ _ E (or_introl eq_refl)).
    eexists. split; reflexivity.
  - right. now rewrite (connectWithRetry_open _ _ _ _ E).
  - destruct (is_unavailable message status) eqn:U.
    + rewrite connectWithRetry_retries by (unfold transient_failure; now rewrite E).
      rewrite outcome_mk, final_mk. apply IH.
    + left. rewrite (connectWithRetry_propagates _ _ _ _ _ _ E (or_intror U)).
      eexists. split; reflexivity.
Qed.

Lemma connect_opened env st :
  outcome (connect env st) = inr false ->
  exists tracks,
    getUserMedia env = Some tracks
    /\ final (connect env st)
       = set_sessionPromise (after_onopen env (dialing_state env st tracks))
           (Some Fulfilled).
Proof.
  rewrite connect_eq. destruct (getUserMedia env) as [tracks|];
    [|rewrite outcome_mk; discriminate].
  cbv zeta.
  destruct (connectWithRetry_result env 3 0 (dialing_state env st tracks))
    as [(e & He & _)|[Ho Hf]].
  - rewrite He, outcome_mk. discriminate.
  - rewrite Ho, outcome_mk, final_mk, Hf. intros _. exists tracks. split; reflexivity.
Qed.

Lemma connect_completes env st : exists b, outcome (connect env st) = inr b.
Proof.
  rewrite connect_eq. destruct (getUserMedia env) as [tracks|];
    [cbv zeta;
     destruct (outcome (connectWithRetry env 3 0 (dialing_state env st tracks)))|];
    eexists; reflexivity.
Qed.

Lemma toggle_connects shown env st :
  shown = idle \/ shown = error ->
  final (toggleLiveSession shown env st) = final (connect env st)
  /\ trace (toggleLiveSession shown env st) = trace (connect env st).
Proof.
  intros H. unfold toggleLiveSession.
  replace (negb (status_eqb shown idle) && negb (status_eqb shown error)) with false
    by (destruct H; subst shown; reflexivity).
  destruct (connect_completes env st) as [b Hb].
  rewrite (bind_normal _ _ _ _ _ _
             (eq_trans (run_eta (connect env st))
                (f_equal (fun o => (o, final (connect env st), trace (connect env st)))
                   Hb))).
  unfold ret. rewrite final_mk, trace_mk, app_nil_r. split; reflexivity.
Qed.

Lemma in_connect_prefix env st e :
  In e (teardown_events (teardown env) st) -> In e (trace (connect env st)).
Proof.
  intros H. rewrite connect_eq.
  destruct (getUserMedia env) as [tracks|];
    [cbv zeta;
     destruct (outcome (connectWithRetry env 3 0 (dialing_state env st tracks)))|];
    rewrite trace_mk; apply in_or_app; left; unfold connect_prefix;
    apply in_or_app; left; exact H.
Qed.

(** X20.  A second [connect] on a client whose first [connect] has opened a
    session starts by giving back what the first one took: it closes
    the session, stops the recorder if one is running, clears the volume
    timer, stops every track of the microphone, disconnects the capture
    node and closes both audio contexts. *)
Theorem reconnect_releases_previous :
  forall (env env2 : ConnectEnv) (st : LiveClient),
    outcome (connect env st) = inr false ->
    let st1 := final (connect env st) in
    let r2 := connect env2 st1 in
    In SessionClose (trace r2)
    /\ (recorder_active st1 = true -> In RecorderStop (trace r2))
    /\ In (ClearInterval (interval_handle env)) (trace r2)
    /\ (forall tracks track,
          getUserMedia env = Some tracks -> In track tracks ->
          In (TrackStop track) (trace r2))
    /\ In InputNodeDisconnect (trace r2)
    /\ In (ContextClose InputContext) (trace r2)
    /\ In (ContextClose OutputContext) (trace r2).
Proof.
  intros env env2 st Hopen st1 r2. subst r2 st1.
  destruct (connect_opened env st Hopen) as (tracks & Hmic & Hfinal).
  rewrite Hfinal.
  destruct (opened_state_fields env st tracks)
    as (H1 & H2 & H3 & H4 & H5 & H6 & H7 & H8 & H9 & H10 & H11).
  remember (set_sessionPromise (after_onopen env (dialing_state env st tracks))
              (Some Fulfilled)) as st1 eqn:E. clear E Hfinal.
  repeat split.
  - apply in_connect_prefix. unfold teardown_events. apply in_or_app. left.
    unfold closeSession_events. rewrite H2. left. reflexivity.
  - intros Hrec. apply in_connect_prefix. unfold teardown_events.
    apply in_or_app. right. apply in_or_app. left.
    unfold stopRecorder_events. rewrite Hrec. left. reflexivity.
  - apply in_connect_prefix. unfold teardown_events.
    do 2 (apply in_or_app; right). apply in_or_app. left.
    unfold clearInterval_events. rewrite H5. left. reflexivity.
  - intros tracks' track Hmic' Hin. rewrite Hmic in Hmic'. injection Hmic' as <-.
    apply in_connect_prefix. unfold teardown_events.
    do 3 (apply in_or_app; right). apply in_or_app. left.
    unfold stopTracks_events. rewrite H3. now apply in_map.
  - apply in_connect_prefix. unfold teardown_events.
    do 4 (apply in_or_app; right). apply in_or_app. left.
    unfold inputNode_events. rewrite H4. left. reflexivity.
  - apply in_connect_prefix. unfold teardown_events.
    do 5 (apply in_or_app; right). apply in_or_app. left.
    rewrite H6. left. reflexivity.
  - apply in_connect_prefix. unfold teardown_events.
    do 6 (apply in_or_app; right). apply in_or_app. left.
    rewrite H7. left. reflexivity.
Qed.

(** X21.  The button of the application is an on/off switch: pressed on an
    [idle] or failed client when the service opens the session, it
    leaves the client [listening] with a session; pressed again with
    that status shown, it closes the session and leaves the client
    [idle] with nothing held. *)
Theorem toggle_round_trip :
  forall (env : ConnectEnv) (st : LiveClient),
    currentStatus st = idle \/ currentStatus st = error ->
    outcome (connect env st) = inr false ->
    let r1 := toggleLiveSession (currentStatus st) env st in
    let r2 := toggleLiveSession (currentStatus (final r1)) env (final r1) in
    currentStatus (final r1) = listening
    /\ sessionPromise (final r1) = Some Fulfilled
    /\ In SessionClose (trace r2)
    /\ attempts (trace r2) = []
    /\ currentStatus (final r2) = idle
    /\ released (final r2).
Proof.
  intros env st Hshown Hopen r1 r2. subst r2 r1.
  destruct (toggle_connects _ env st Hshown) as [Hf _]. rewrite Hf.
  destruct (connect_opened env st Hopen) as (tracks & Hmic & Hfinal).
  rewrite Hfinal.
  destruct (opened_state_fields env st tracks) as (H1 & H2 & _).
  remember (set_sessionPromise (after_onopen env (dialing_state env st tracks))
              (Some Fulfilled)) as st1 eqn:E. clear E Hfinal Hf.
  rewrite H1. unfold toggleLiveSession. cbn [status_eqb negb andb].
  rewrite disconnect_eq, final_mk, trace_mk.
  split; [reflexivity|]. split; [exact H2|]. split.
  { unfold teardown_events. apply in_or_app. left.
    unfold closeSession_events. rewrite H2. left. reflexivity. }
  split; [exact (proj1 (teardown_events_quiet _ _))|].
  split; [exact (proj1 (after_disconnect_kept _ _))|].
  exact (after_disconnect_released _ _).
Qed.

Lemma set_status_promise_kept st p v :
  currentStatus (set_currentStatus (set_sessionPromise st p) v) = v
  /\ onStatusChange (set_currentStatus (set_sessionPromise st p) v) = onStatusChange st
  /\ currentStatus (set_sessionPromise st p) = currentStatus st.
Proof. destruct st; repeat split; reflexivity. Qed.

Lemma after_onopen_kept env st :
  onStatusChange (after_onopen env st) = onStatusChange st
  /\ currentStatus (after_onopen env st) = status_after listening st.
Proof. destruct st; split; reflexivity. Qed.

Lemma set_pending_kept st p :
  currentStatus (set_pendingTeardown st p) = currentStatus st
  /\ onStatusChange (set_pendingTeardown st p) = onStatusChange st
  /\ pendingTeardown (set_pendingTeardown st p) = p.
Proof. destruct st; repeat split; reflexivity. Qed.

Lemma failed_connect_state env st :
  outcome (connect env st) = inr true ->
  currentStatus (final (connect env st)) = error
  /\ onStatusChange (final (connect env st)) = onStatusChange st.
Proof.
  rewrite connect_eq. destruct (getUserMedia env) as [tr|].
  - cbv zeta.
    pose proof (proj1 (dialing_state_kept env st tr)) as Hcb.
    remember (dialing_state env st tr) as D eqn:E. clear E.
    destruct (connectWithRetry_result env 3 0 D) as [(e & He & Hf)|[Ho _]].
    + rewrite He, outcome_mk, final_mk, Hf. intros _.
      destruct (set_pending_kept
                  (set_currentStatus (set_sessionPromise D (Some Rejected)) error)
                  (Some AtSession)) as (P1 & P2 & _).
      destruct (set_status_promise_kept D (Some Rejected) error) as (K1 & K2 & _).
      split; [now rewrite P1 | now rewrite P2, K2].
    + rewrite Ho, outcome_mk. discriminate.
  - rewrite outcome_mk, final_mk. intros _.
    destruct (refused_state_fields env st) as (H1 & _ & _ & _ & _ & _ & H7).
    split; assumption.
Qed.

Lemma connect_first_attempt env st tracks :
  getUserMedia env = Some tracks ->
  hd_error (attempts (trace (connect env st))) = Some 0%nat
  /\ (onStatusChange st = true ->
      hd_error (status_changes (trace (connect env st))) = Some idle)
  /\ currentStatus (final (connect env st)) <> idle.
Proof.
  intros Hmic. rewrite connect_eq, Hmic. cbv zeta.
  pose proof (dialing_state_status env st tracks) as Hdial.
  remember (dialing_state env st tracks) as D eqn:E. clear E.
  assert (Hfirst : exists rest,
             trace (connectWithRetry env 3 0 D) = ConnectAttempt 0 :: rest).
  { destruct (attempt env 0) as [|message status] eqn:A.
    - rewrite (connectWithRetry_open _ _ _ _ A), trace_mk. eexists. reflexivity.
    - destruct (is_unavailable message status) eqn:U.
      + rewrite connectWithRetry_retries by (unfold transient_failure; now rewrite A).
        rewrite trace_mk. eexists. reflexivity.
      + rewrite (connectWithRetry_propagates _ _ _ _ _ _ A (or_intror U)), trace_mk.
        eexists. reflexivity. }
  destruct Hfirst as [rest Hrest].
  assert (Hstatus : currentStatus (final (connectWithRetry env 3 0 D)) <> idle).
  { destruct (connectWithRetry_final env 3 0 D) as [H|H]; rewrite H.
    - rewrite Hdial. discriminate.
    - rewrite (proj2 (after_onopen_kept env D)). unfold status_after.
      rewrite Hdial. discriminate. }
  remember (final (connectWithRetry env 3 0 D)) as F eqn:EF. clear EF.
  destruct (outcome (connectWithRetry env 3 0 D));
    rewrite final_mk, trace_mk, Hrest;
    rewrite !(proj1 (observed_app _ _)), connect_prefix_attempts;
    rewrite !status_changes_app, connect_prefix_changes;
    (split; [unfold setupRecording_events;
             destruct (recorder_constructor_throws env || recorder_start_throws env);
             reflexivity|]);
    (split; [intros Hon; rewrite Hon; reflexivity|]).
  - rewrite (proj1 (set_pending_kept _ _)),
      (proj1 (set_status_promise_kept F (Some Rejected) error)). discriminate.
  - destruct (set_status_promise_kept F (Some Fulfilled) error) as (_ & _ & K).
    rewrite K. exact Hstatus.
Qed.

Lemma failed_connect_changes env st :
  outcome (connect env st) = inr true ->
  onStatusChange st = true ->
  exists before, status_changes (trace (connect env st)) = before ++ [error].
Proof.
  rewrite connect_eq. destruct (getUserMedia env) as [tracks|].
  - cbv zeta.
    pose proof (dialing_state_status env st tracks) as Hdial.
    pose proof (proj1 (dialing_state_kept env st tracks)) as Hcb.
    remember (dialing_state env st tracks) as D eqn:E. clear E.
    destruct (connectWithRetry_result env 3 0 D) as [(e & He & Hf)|[Ho _]].
    + rewrite He, outcome_mk, trace_mk, Hf. intros _ Hon.
      rewrite !status_changes_app.
      change (Console ConnectionFailedFully :: status_events error D)
        with ([Console ConnectionFailedFully] ++ status_events error D).
      rewrite status_changes_app, status_events_changes, Hcb, Hon, Hdial.
      cbn [status_eqb andb negb status_changes flat_map app].
      eexists. rewrite !app_assoc. reflexivity.
    + rewrite Ho, outcome_mk. discriminate.
  - rewrite outcome_mk, trace_mk. intros _ Hon.
    rewrite !status_changes_app, connect_prefix_changes. unfold failure_events.
    rewrite Hon. exists [idle; connecting]. reflexivity.
Qed.

(** A failed [connect] and the teardown it leaves behind, once it has
    run. *)
Lemma connect_settled_run env after st :
  outcome (connect env st) = inr true ->
  let r := connect_settled env after st in
  outcome r = inr tt
  /\ currentStatus (final r) = idle
  /\ released (final r)
  /\ onStatusChange (final r) = onStatusChange st
  /\ exists tail,
       trace r = trace (connect env st) ++ tail
       /\ status_changes tail = (if onStatusChange st then [idle] else []).
Proof.
  intros H. cbv zeta. unfold connect_settled.
  rewrite (bind_normal _ _ _ _ _ _
             (eq_trans (run_eta (connect env st))
                (f_equal (fun o => (o, final (connect env st), trace (connect env st)))
                   H))).
  cbn [when]. rewrite outcome_mk, final_mk, trace_mk.
  destruct (failed_connect_state env st H) as [_ Hcb].
  revert H Hcb. rewrite connect_eq.
  destruct (getUserMedia env) as [tracks|].
  - cbv zeta.
    destruct (outcome (connectWithRetry env 3 0 (dialing_state env st tracks))) as [e|[]];
      rewrite !outcome_mk, !final_mk, !trace_mk; [intros _ Hcb | discriminate].
    remember (final (connectWithRetry env 3 0 (dialing_state env st tracks))) as F eqn:EF.
    clear EF.
    rewrite resume_at_session by exact (proj2 (proj2 (set_pending_kept _ _))).
    rewrite !outcome_mk, !final_mk, !trace_mk.
    remember (set_pendingTeardown
                (set_currentStatus (set_sessionPromise F (Some Rejected)) error)
                (Some AtSession)) as S eqn:ES. clear ES.
    split; [reflexivity|].
    split; [exact (proj1 (after_disconnect_kept _ _))|].
    split; [exact (after_disconnect_released _ _)|].
    split.
    { rewrite (proj1 (proj2 (after_disconnect_kept _ _))).
      rewrite (proj1 (proj2 (set_pending_kept S None))). exact Hcb. }
    eexists. split; [reflexivity|].
    now rewrite teardown_events_changes, Hcb.
  - rewrite !outcome_mk, !final_mk, !trace_mk. intros _ _.
    destruct (refused_state_fields env st) as (_ & _ & _ & _ & _ & H6 & _).
    destruct (refused_state_resumed env after st) as (R1 & R2 & R3 & R4).
    rewrite (resume_at_input after _ H6), outcome_mk, final_mk, trace_mk.
    split; [reflexivity|]. split; [exact R3|]. split; [exact R2|]. split; [exact R4|].
    eexists. split; [reflexivity|]. rewrite R1.
    destruct (input_close_rejects after), (output_close_rejects after),
      (onStatusChange st); reflexivity.
Qed.

(** X22.  A connection that has failed leaves the client [error] until the
    teardown that the failure has started has run, and [idle] with
    nothing held afterwards.  The button pressed then connects again
    instead of tearing down: the service is called anew, and the client
    is not [idle] when that connection returns. *)
Theorem toggle_retries_after_failure :
  forall (env env2 : ConnectEnv) (after : TeardownEnv) (st : LiveClient)
         (tracks : list nat),
    outcome (connect env st) = inr true ->
    getUserMedia env2 = Some tracks ->
    let st1 := final (connect_settled env after st) in
    let r2 := toggleLiveSession (currentStatus st1) env2 st1 in
    currentStatus (final (connect env st)) = error
    /\ currentStatus st1 = idle
    /\ released st1
    /\ hd_error (attempts (trace r2)) = Some 0%nat
    /\ (onStatusChange st = true ->
        hd_error (status_changes (trace r2)) = Some idle)
    /\ currentStatus (final r2) <> idle.
Proof.
  intros env env2 after st tracks Hfail Hmic st1 r2. subst r2 st1.
  destruct (failed_connect_state env st Hfail) as [Herr _].
  destruct (connect_settled_run env after st Hfail) as (_ & Hidle & Hrel & Hcb & _).
  remember (final (connect_settled env after st)) as st1 eqn:E. clear E Hfail.
  rewrite Hidle.
  destruct (toggle_connects idle env2 st1 (or_introl eq_refl)) as [Hf Ht].
  rewrite Hf, Ht.
  split; [exact Herr|]. split; [reflexivity|]. split; [exact Hrel|].
  destruct (connect_first_attempt env2 st1 tracks Hmic) as (A1 & A2 & A3).
  split; [exact A1|]. split; [|exact A3].
  intros Hon. apply A2. now rewrite Hcb.
Qed.

(* ------------------------------------------------------------------ *)

(** X23.  A connection that fails reports [error] only for a moment: the
    teardown that the failure starts without waiting for it ends with
    [idle], so that the client is left [idle] with nothing held, and the
    last two statuses reported are [error] and [idle]. *)
Theorem failed_connect_ends_idle :
  forall (env : ConnectEnv) (after : TeardownEnv) (st : LiveClient),
    outcome (connect env st) = inr true ->
    let r := connect_settled env after st in
    outcome r = inr tt
    /\ currentStatus (final r) = idle
    /\ released (final r)
    /\ (onStatusChange st = true ->
        exists before, status_changes (trace r) = before ++ [error; idle]).
Proof.
  intros env after st Hfail r. subst r.
  pose proof (failed_connect_changes env st Hfail) as Hch.
  destruct (connect_settled_run env after st Hfail)
    as (H1 & H2 & H3 & _ & tail & Ht & Hc).
  split; [exact H1|]. split; [exact H2|]. split; [exact H3|].
  intros Hon. destruct (Hch Hon) as [before Hb].
  rewrite Ht, status_changes_app, Hb, Hc, Hon.
  exists before. now rewrite <- app_assoc.
Qed.

(* ------------------------------------------------------------------ *)

Lemma list_ascii_of_string_app (a b : string) :
  list_ascii_of_string (a ++ b) = list_ascii_of_string a ++ list_ascii_of_string b.
Proof. induction a as [|c a IH]; cbn; [reflexivity | now rewrite IH]. Qed.

(** X24.  ASCII white space inside a payload does not change what [decode]
    returns. *)
Theorem decode_ignores_whitespace :
  forall (s1 s2 : string) (c : ascii),
    Base64.is_ascii_whitespace c = true ->
    decode (s1 ++ String c s2) = decode (s1 ++ s2).
Proof.
  intros s1 s2 c Hc. unfold decode, Base64.atob.
  rewrite !list_ascii_of_string_app. cbn [list_ascii_of_string].
  rewrite !filter_app. cbn [filter]. rewrite Hc. reflexivity.
Qed.

Lemma strip_padding_keeps (l : list ascii) (c : ascii) :
  In c l -> c <> Base64.pad_char -> In c (Base64.strip_padding l).
Proof.
  intros Hin Hc. unfold Base64.strip_padding.
  destruct (Nat.eqb (Nat.modulo (List.length l) 4) 0); [|exact Hin].
  rewrite <- (rev_involutive l) in Hin. apply in_rev in Hin.
  destruct (rev l) as [|c1 [|c2 r]] eqn:E; [destruct Hin| |].
  - destruct (Ascii.eqb c1 Base64.pad_char) eqn:E1.
    + apply Ascii.eqb_eq in E1. destruct Hin as [->|[]]. contradiction.
    + rewrite <- (rev_involutive l), E. apply in_rev. rewrite rev_involutive.
      exact Hin.
  - assert (Hl : forall x, In x (rev l) -> In x l) by (intros x; apply in_rev).
    destruct (Ascii.eqb c1 Base64.pad_char) eqn:E1.
    + apply Ascii.eqb_eq in E1.
      destruct Hin as [->|Hin]; [contradiction|].
      destruct (Ascii.eqb c2 Base64.pad_char) eqn:E2.
      * apply Ascii.eqb_eq in E2. destruct Hin as [->|Hin]; [contradiction|].
        now apply -> in_rev.
      * now apply -> in_rev.
    + apply Hl. rewrite E. exact Hin.
Qed.

Lemma sextets_rejects (l : list ascii) (c : ascii) :
  In c l -> Base64.char_sextet c = None -> Base64.sextets l = None.
Proof.
  induction l as [|x l IH]; intros Hin Hc; [destruct Hin|].
  cbn [Base64.sextets]. destruct Hin as [->|Hin].
  - now rewrite Hc.
  - rewrite (IH Hin Hc). destruct (Base64.char_sextet x); reflexivity.
Qed.

(** X25.  A payload with a character outside the base64 alphabet that is
    neither ASCII white space nor [=] is refused by [decode]. *)
Theorem decode_rejects :
  forall (s : string) (c : ascii),
    In c (list_ascii_of_string s) ->
    Base64.char_sextet c = None ->
    Base64.is_ascii_whitespace c = false ->
    c <> Base64.pad_char ->
    decode s = None.
Proof.
  intros s c Hin Hc Hws Hpad. unfold decode, Base64.atob.
  assert (H : In c (Base64.strip_padding
                      (filter (fun c => negb (Base64.is_ascii_whitespace c))
                         (list_ascii_of_string s)))).
  { apply strip_padding_keeps; [|exact Hpad].
    apply filter_In. split; [exact Hin | now rewrite Hws]. }
  rewrite (sextets_rejects _ _ H Hc).
  destruct (Nat.eqb _ 1); reflexivity.
Qed.

(* ================================================================== *)
(** ** Instances of the session properties *)
(* ================================================================== *)

(** Two frames on one channel at 24000 Hz. *)
Lemma decodeAudioData_cases_witness :
  (1 <= 32)%nat
  /\ 8000 <= 24000 <= 96000
  /\ exists buf,
       decodeAudioData [x01; x00; x02; x00] 24000 1 = inr buf
       /\ frames buf = 2%nat
       /\ (0 < duration buf)%Q.
Proof.
  assert (H1 : (1 <= 32)%nat) by lia.
  assert (H2 : 8000 <= 24000 <= 96000) by lia.
  split; [exact H1|]. split; [exact H2|].
  pose proof (decodeAudioData_cases [x01; x00; x02; x00] 24000 1 H1 H2) as H.
  destruct (decodeAudioData [x01; x00; x02; x00] 24000 1) as [e|buf] eqn:E.
  - vm_compute in E. discriminate E.
  - exists buf. split; [reflexivity|].
    destruct H as (_ & _ & _ & Hf & _ & _ & _ & _ & Hd).
    split; [exact Hf | exact Hd].
Defined.

(** Two stereo frames. *)
Lemma decodeAudioData_deinterleaves_witness :
  decodeAudioData (flat_map (fun p => [fst p; snd p]) stereo_pairs) 24000 2
    = inr stereo_buffer
  /\ frames stereo_buffer = 2%nat
  /\ interleave (channels stereo_buffer) (frames stereo_buffer) 0
     = map (fun p => Finite (int16_of_bytes (fst p) (snd p) # 32768)) stereo_pairs.
Proof.
  assert (H : decodeAudioData (flat_map (fun p => [fst p; snd p]) stereo_pairs) 24000 2
              = inr stereo_buffer) by (vm_compute; reflexivity).
  split; [exact H|].
  exact (decodeAudioData_deinterleaves stereo_pairs 24000 2 2 stereo_buffer
           (le_S 1 1 (le_n 1)) eq_refl H).
Defined.

(** The sample 1/3. *)
Lemma quantization_error_witness :
  (-1 <= 1 # 3)%Q /\ (1 # 3 < 1)%Q
  /\ ToInt16 (times_32768 (Finite (1 # 3))) = Qtruncate ((1 # 3) * 32768).
Proof.
  assert (H1 : (-1 <= 1 # 3)%Q) by (unfold Qle; simpl; lia).
  assert (H2 : (1 # 3 < 1)%Q) by (unfold Qlt; simpl; lia).
  split; [exact H1|]. split; [exact H2|].
  exact (proj1 (quantization_error (1 # 3) H1 H2)).
Defined.

(** A loud block on an idle client, then a silent one a second later. *)
Lemma speech_then_pause_witness :
  currentStatus observed_client <> speaking
  /\ currentStatus observed_client <> error
  /\ (speech_threshold < 1 # 2)%Q
  /\ (0 <= speech_threshold)%Q
  /\ 800 < 1000
  /\ currentStatus (final (onaudioprocess (1 # 2) 1000 [] observed_client)) = listening
  /\ currentStatus
       (final (onaudioprocess 0 (1000 + 1000) []
                 (final (onaudioprocess (1 # 2) 1000 [] observed_client))))
     = processing.
Proof.
  assert (H1 : currentStatus observed_client <> speaking) by discriminate.
  assert (H2 : currentStatus observed_client <> error) by discriminate.
  assert (H3 : (speech_threshold < 1 # 2)%Q) by (vm_compute; reflexivity).
  assert (H4 : (0 <= speech_threshold)%Q) by (vm_compute; discriminate).
  assert (H5 : 800 < 1000) by lia.
  repeat (split; [assumption|]).
  pose proof (speech_then_pause (1 # 2) 0 1000 1000 [] [] observed_client
                H1 H2 H3 H4 H5) as H.
  split; [exact (proj1 H) | exact (proj2 (proj2 H))].
Defined.

(** A failed client that receives a chunk, an interruption, the end of
    a segment and a loud block. *)
Lemma error_persists_witness :
  currentStatus failed_session = error
  /\ currentStatus (fst (reacts sample_stimuli failed_session)) = error
  /\ status_changes (snd (reacts sample_stimuli failed_session)) = [].
Proof.
  split; [reflexivity|].
  exact (error_persists sample_stimuli failed_session eq_refl).
Defined.

(** The same stimuli on a connected client. *)
Lemma displayed_status_tracks_witness :
  onStatusChange connected_client = true
  /\ displayed_status (currentStatus connected_client)
       (snd (reacts sample_stimuli connected_client))
     = currentStatus (fst (reacts sample_stimuli connected_client)).
Proof.
  split; [reflexivity|].
  exact (displayed_status_tracks sample_stimuli connected_client eq_refl).
Defined.

(** A chunk of one octet that comes with an interruption while two
    segments are playing. *)
Lemma malformed_audio_aborts_witness :
  audio_present odd_chunk_message speaking_client = true
  /\ decoded_audio odd_chunk_message = inl RangeError
  /\ outcome (handleMessage odd_chunk_message 0 speaking_client) = inl RangeError
  /\ sources (final (handleMessage odd_chunk_message 0 speaking_client))
     = sources speaking_client.
Proof.
  assert (H1 : audio_present odd_chunk_message speaking_client = true)
    by (vm_compute; reflexivity).
  assert (H2 : decoded_audio odd_chunk_message = inl RangeError)
    by (vm_compute; reflexivity).
  split; [exact H1|]. split; [exact H2|].
  pose proof (malformed_audio_aborts odd_chunk_message 0 speaking_client RangeError
                H1 H2) as H.
  split; [exact (proj1 H) | exact (proj1 (proj2 (proj2 (proj2 H))))].
Defined.

(** The two segments of a speaking client end, the second one first. *)
Lemma playback_drains_witness :
  sources speaking_client <> []
  /\ currentStatus speaking_client <> error
  /\ currentStatus (fst (reacts (map Ended [1; 0]%nat) speaking_client)) = listening.
Proof.
  assert (H1 : sources speaking_client <> []) by discriminate.
  assert (H2 : currentStatus speaking_client <> error) by discriminate.
  assert (H3 : forall s, In s (sources speaking_client) -> In s [1; 0]%nat)
    by (intros s [<-|[<-|[]]]; simpl; auto).
  split; [exact H1|]. split; [exact H2|].
  exact (proj1 (proj2 (playback_drains [1; 0]%nat speaking_client H1 H2 H3))).
Defined.

(** The microphone is refused. *)
Lemma microphone_refused_witness :
  getUserMedia refused_microphone = None
  /\ outcome (connect refused_microphone observed_client) = inr true
  /\ trace (connect refused_microphone observed_client)
     = [StatusChange idle; StatusChange connecting; GetUserMedia;
        Console ConnectionFailedFully; StatusChange error;
        ContextClose InputContext]
  /\ pendingTeardown (final (connect refused_microphone observed_client))
     = Some AtInputClose.
Proof.
  split; [reflexivity|].
  pose proof (microphone_refused refused_microphone quiet_teardown observed_client
                eq_refl) as H.
  split; [exact (proj1 H)|].
  split; [exact (proj1 (proj2 H)) | exact (proj1 (proj2 (proj2 H)))].
Defined.

(** One refusal, then the session opens. *)
Lemma connect_acquires_witness :
  getUserMedia (unavailable_then_open 1) = Some [0%nat]
  /\ attempt (unavailable_then_open 1) 1 = Opened
  /\ currentStatus (final (connect (unavailable_then_open 1) observed_client))
     = listening
  /\ stream (final (connect (unavailable_then_open 1) observed_client))
     = Some [0%nat].
Proof.
  split; [reflexivity|]. split; [reflexivity|].
  assert (Hb : forall i, (i < 1)%nat ->
                 transient_failure (attempt (unavailable_then_open 1) i) = true).
  { intros i Hi. destruct i as [|i]; [reflexivity|].
    exfalso. apply (Nat.lt_irrefl 0).
    apply Nat.le_lt_trans with i; [apply Nat.le_0_l | now apply Nat.succ_lt_mono]. }
  pose proof (connect_acquires (unavailable_then_open 1) observed_client [0%nat] 1%nat
                eq_refl (le_S 1 2 (le_S 1 1 (le_n 1))) Hb eq_refl) as H.
  split; [exact (proj1 (proj2 H)) | exact (proj1 (proj2 (proj2 (proj2 H))))].
Defined.

(** The service closes the session of a connected client, which then
    hears a loud block. *)
Lemma closed_session_keeps_capturing_witness :
  (speech_threshold < 1 # 2)%Q
  /\ currentStatus (final (onclose connected_client)) = idle
  /\ stream (final (onclose connected_client)) = stream connected_client
  /\ trace (onaudioprocess (1 # 2) 0 [] (final (onclose connected_client)))
     = [VolumeUpdate (5 # 2); StatusChange listening; SendRealtimeInput (createBlob [])].
Proof.
  assert (H1 : (speech_threshold < 1 # 2)%Q) by (vm_compute; reflexivity).
  split; [exact H1|].
  pose proof (closed_session_keeps_capturing connected_client (1 # 2) 0 [] H1) as H.
  split; [exact (proj1 H)|]. split; [exact (proj1 (proj2 H))|].
  exact (proj1 (proj2 (proj2 (proj2 (proj2 (proj2 (proj2 (proj2 (proj2 H))))))))).
Defined.

(** Two saturated octets. *)
Lemma volume_meter_range_witness :
  [255; 255] <> []
  /\ Forall (fun x => 0 <= x <= 255) [255; 255]
  /\ volumeTick [255; 255] speaking_client = Some (510 # 256)%Q
  /\ (510 # 256 <= 255 # 128)%Q.
Proof.
  assert (H1 : [255; 255] <> []) by discriminate.
  assert (H2 : Forall (fun x => 0 <= x <= 255) [255; 255])
    by (repeat constructor; lia).
  assert (H3 : volumeTick [255; 255] speaking_client = Some (510 # 256)%Q)
    by reflexivity.
  split; [exact H1|]. split; [exact H2|]. split; [exact H3|].
  exact (proj1 (proj2 (proj2
           (volume_meter_range [255; 255] speaking_client (510 # 256)%Q H1 H2 H3)))).
Defined.

(** A second connection after one that has opened at once. *)
Lemma reconnect_releases_previous_witness :
  outcome (connect (unavailable_then_open 0) observed_client) = inr false
  /\ In SessionClose
       (trace (connect (unavailable_then_open 0)
                 (final (connect (unavailable_then_open 0) observed_client)))).
Proof.
  assert (H1 : outcome (connect (unavailable_then_open 0) observed_client) = inr false)
    by (vm_compute; reflexivity).
  split; [exact H1|].
  exact (proj1 (reconnect_releases_previous (unavailable_then_open 0)
                  (unavailable_then_open 0) observed_client H1)).
Defined.

(** The button pressed twice on a fresh client. *)
Lemma toggle_round_trip_witness :
  (currentStatus observed_client = idle \/ currentStatus observed_client = error)
  /\ outcome (connect (unavailable_then_open 0) observed_client) = inr false
  /\ currentStatus
       (final (toggleLiveSession (currentStatus observed_client)
                 (unavailable_then_open 0) observed_client))
     = listening.
Proof.
  assert (H1 : currentStatus observed_client = idle
               \/ currentStatus observed_client = error) by (left; reflexivity).
  assert (H2 : outcome (connect (unavailable_then_open 0) observed_client) = inr false)
    by (vm_compute; reflexivity).
  split; [exact H1|]. split; [exact H2|].
  exact (proj1 (toggle_round_trip (unavailable_then_open 0) observed_client H1 H2)).
Defined.

(** The button pressed after four refusals and their teardown. *)
Lemma toggle_retries_after_failure_witness :
  outcome (connect always_unavailable observed_client) = inr true
  /\ getUserMedia (unavailable_then_open 0) = Some [0%nat]
  /\ currentStatus (final (connect always_unavailable observed_client)) = error
  /\ currentStatus
       (final (connect_settled always_unavailable quiet_teardown observed_client))
     = idle.
Proof.
  assert (H1 : outcome (connect always_unavailable observed_client) = inr true)
    by (vm_compute; reflexivity).
  split; [exact H1|]. split; [reflexivity|].
  pose proof (toggle_retries_after_failure always_unavailable
                (unavailable_then_open 0) quiet_teardown observed_client [0%nat]
                H1 eq_refl) as H.
  split; [exact (proj1 H) | exact (proj1 (proj2 H))].
Defined.

(** Four refusals, then the teardown. *)
Lemma failed_connect_ends_idle_witness :
  outcome (connect always_unavailable observed_client) = inr true
  /\ currentStatus
       (final (connect_settled always_unavailable quiet_teardown observed_client))
     = idle.
Proof.
  assert (H1 : outcome (connect always_unavailable observed_client) = inr true)
    by (vm_compute; reflexivity).
  split; [exact H1|].
  exact (proj1 (proj2 (failed_connect_ends_idle always_unavailable quiet_teardown
                         observed_client H1))).
Defined.

(** A line feed in the middle of a payload. *)
Lemma decode_ignores_whitespace_witness :
  Base64.is_ascii_whitespace "010"%char = true
  /\ decode ("AAAA" ++ String "010"%char "AAAA") = decode ("AAAA" ++ "AAAA").
Proof.
  split; [reflexivity|].
  exact (decode_ignores_whitespace "AAAA" "AAAA" "010"%char eq_refl).
Defined.

(** An exclamation mark in a payload. *)
Lemma decode_rejects_witness :
  In "!"%char (list_ascii_of_string "AA!A")
  /\ Base64.char_sextet "!"%char = None
  /\ Base64.is_ascii_whitespace "!"%char = false
  /\ "!"%char <> Base64.pad_char
  /\ decode "AA!A" = None.
Proof.
  assert (H1 : In "!"%char (list_ascii_of_string "AA!A"))
    by (right; right; left; reflexivity).
  assert (H4 : "!"%char <> Base64.pad_char) by discriminate.
  split; [exact H1|]. split; [reflexivity|]. split; [reflexivity|].
  split; [exact H4|].
  exact (decode_rejects "AA!A" "!"%char H1 eq_refl eq_refl H4).
Defined.
